(** * Kademlia routing core of wave-capacitor: a shallow embedding

    The development follows the Go package [dht]:
    - [dht/node.go]      : [NodeID], [Distance], [Contact], [Contact_Equal];
    - [dht/routing.go]   : [KBucket], [RoutingTable], [getBucketIndex],
                           [GetClosestContacts], [GetRandomIDFromBucket], [lessThan];
    - [dht/discovery.go] : [FindNode], [handleFindNode].

    Go's [int] is rendered as [Z], a [byte] as a [Z] in [0,256), the array
    type [[20]byte] as a list of bytes together with the predicate
    [wf_NodeID], [container/list] as [list], [time.Time] as [Z], run-time
    panics as the [Panic] result. *)

From Stdlib Require Import String Ascii ZArith Zbitwise List Bool Lia Permutation Sorted.
Import ListNotations.
Local Open Scope Z_scope.

(* ================================================================== *)
(** ** Results of fallible code *)

Inductive result (A : Type) : Type :=
| Ok (a : A)
| Panic
| OutOfFuel.
Arguments Ok {A} a.
Arguments Panic {A}.
Arguments OutOfFuel {A}.

Definition bind {A B : Type} (r : result A) (k : A -> result B) : result B :=
  match r with
  | Ok a => k a
  | Panic => Panic
  | OutOfFuel => OutOfFuel
  end.

Notation "x <- e ;; k" := (bind e (fun x => k))
  (at level 61, e at next level, right associativity).

(** Go's [len] on a slice or list, as an [int]. *)
Definition len {A : Type} (l : list A) : Z := Z.of_nat (length l).

(** [s[i]] for reading, [s[i] = v] for writing; both panic out of range. *)
Definition index {A : Type} (l : list A) (i : Z) : result A :=
  if (0 <=? i) && (i <? len l)
  then match nth_error l (Z.to_nat i) with Some a => Ok a | None => Panic end
  else Panic.

Fixpoint set_nth {A : Type} (l : list A) (n : nat) (v : A) : list A :=
  match l, n with
  | [], _ => []
  | _ :: r, O => v :: r
  | a :: r, S n' => a :: set_nth r n' v
  end.

Definition store {A : Type} (l : list A) (i : Z) (v : A) : result (list A) :=
  if (0 <=? i) && (i <? len l) then Ok (set_nth l (Z.to_nat i) v) else Panic.

(* ================================================================== *)
(** ** dht/node.go *)

(** [type NodeID [20]byte] *)
Definition NodeID := list Z.

Definition is_byte (b : Z) : bool := (0 <=? b) && (b <? 256).

Definition wf_NodeID (n : NodeID) : Prop :=
  length n = 20%nat /\ forallb is_byte n = true.

Definition zeroID : NodeID := repeat 0 20.

(** [distance[i] = n[i] ^ other[i]] for every index of the array. *)
Fixpoint xor_bytes (n other : list Z) : list Z :=
  match n, other with
  | a :: n', b :: other' => Z.lxor a b :: xor_bytes n' other'
  | _, _ => []
  end.

Definition Distance (n other : NodeID) : NodeID := xor_bytes n other.

(** [==] on arrays of bytes. *)
Fixpoint NodeID_eqb (a b : NodeID) : bool :=
  match a, b with
  | [], [] => true
  | x :: a', y :: b' => (x =? y) && NodeID_eqb a' b'
  | _, _ => false
  end.

Record Contact : Type := mkContact {
  ID : NodeID;
  Address : string;
  LastSeen : Z
}.

Definition Contact_Equal (c other : Contact) : bool :=
  NodeID_eqb (ID c) (ID other).

(* ================================================================== *)
(** ** dht/routing.go *)

Definition K : Z := 20.
Definition Alpha : Z := 3.

(** [lessThan] compares two NodeIDs lexicographically. *)
Fixpoint lessThan (a b : NodeID) : bool :=
  match a, b with
  | x :: a', y :: b' =>
      if x <? y then true
      else if x >? y then false
      else lessThan a' b'
  | _, _ => false
  end.

Record KBucket : Type := mkKBucket {
  contacts : list Contact;   (* front = least recently seen *)
  lastSeen : Z;
  range_min : NodeID;
  range_max : NodeID
}.

Definition NewKBucket (now : Z) : KBucket :=
  {| contacts := [];
     lastSeen := now;
     range_min := repeat 255 20;
     range_max := repeat 0 20 |}.

(** The search loop of [KBucket.AddContact]: on the first element equal
    to [contact] the element is moved to the back and its value is
    replaced by [contact]; [None] when the loop finds nothing. *)
Fixpoint refresh (contact : Contact) (l : list Contact) : option (list Contact) :=
  match l with
  | [] => None
  | e :: rest =>
      if Contact_Equal e contact then Some (rest ++ [contact])
      else match refresh contact rest with
           | Some rest' => Some (e :: rest')
           | None => None
           end
  end.

Definition KBucket_AddContact (now : Z) (kb : KBucket) (contact : Contact)
  : bool * KBucket :=
  match refresh contact (contacts kb) with
  | Some l =>
      (true, {| contacts := l; lastSeen := now;
                range_min := range_min kb; range_max := range_max kb |})
  | None =>
      if len (contacts kb) <? K then
        (true,
         {| contacts := contacts kb ++ [contact];
            lastSeen := now;
            range_min := if lessThan (ID contact) (range_min kb)
                         then ID contact else range_min kb;
            range_max := if lessThan (range_max kb) (ID contact)
                         then ID contact else range_max kb |})
      else (false, kb)
  end.

(** [make([]Contact, 0, count)] panics on a negative capacity. *)
Definition KBucket_GetContacts (kb : KBucket) (count : Z) : result (list Contact) :=
  let count := if count >? len (contacts kb) then len (contacts kb) else count in
  if count <? 0 then Panic
  else Ok (firstn (Z.to_nat count) (contacts kb)).

Definition KBucket_Size (kb : KBucket) : Z := len (contacts kb).

Record RoutingTable : Type := mkRoutingTable {
  localID : NodeID;
  buckets : list KBucket
}.

(** [clock i] is the reading of [time.Now()] when bucket [i] is created. *)
Definition NewRoutingTable (clock : nat -> Z) (localID : NodeID) : RoutingTable :=
  {| localID := localID;
     buckets := map (fun i => NewKBucket (clock i)) (seq 0 160) |}.

(** Inner loop of [getBucketIndex]: the first [j] in [0..7] with
    [(b >> (7 - j)) & 0x1 != 0]. *)
Definition scan_bits (b : Z) : option Z :=
  find (fun j => negb (Z.land (Z.shiftr b (7 - j)) 1 =? 0)) [0; 1; 2; 3; 4; 5; 6; 7].

(** Outer loop of [getBucketIndex], at byte [i]. *)
Fixpoint scan_bytes (distance : list Z) (i : Z) : option Z :=
  match distance with
  | [] => None
  | b :: rest =>
      match scan_bits b with
      | Some j => Some (i * 8 + j)
      | None => scan_bytes rest (i + 1)
      end
  end.

Definition getBucketIndex (local id : NodeID) : Z :=
  match scan_bytes (Distance local id) 0 with
  | Some k => k
  | None => 159
  end.

Definition RoutingTable_AddContact (now : Z) (rt : RoutingTable) (contact : Contact)
  : result RoutingTable :=
  let bucketIndex := getBucketIndex (localID rt) (ID contact) in
  kb <- index (buckets rt) bucketIndex ;;
  bs <- store (buckets rt) bucketIndex (snd (KBucket_AddContact now kb contact)) ;;
  Ok {| localID := localID rt; buckets := bs |}.

(** Go's [sort.Slice] with the comparison [less]: it returns some ordering
    of the slice that is sorted for [less]; which one among equivalent
    elements is not specified.  The model inserts each element after the
    elements it is not strictly smaller than.  For the pools sorted by
    [GetClosestContacts] the choice is immaterial: no two contacts have
    the same key (see [GetClosestContacts_only_sorted_arrangement]). *)
Fixpoint insert_sorted {A : Type} (less : A -> A -> bool) (x : A) (l : list A) : list A :=
  match l with
  | [] => [x]
  | y :: r => if less x y then x :: y :: r else y :: insert_sorted less x r
  end.

Definition sort_Slice {A : Type} (less : A -> A -> bool) (l : list A) : list A :=
  fold_left (fun acc x => insert_sorted less x acc) l [].

Definition closer (target : NodeID) (ci cj : Contact) : bool :=
  lessThan (Distance (ID ci) target) (Distance (ID cj) target).

(** The neighbour loop of [GetClosestContacts], entered with loop
    variable [i] and the contacts gathered so far. *)
Fixpoint closest_loop (fuel : nat) (rt : RoutingTable) (bucketIndex count i : Z)
    (acc : list Contact) : result (list Contact) :=
  if (len acc <? count) && ((bucketIndex - i >=? 0) || (bucketIndex + i <? 160)) then
    match fuel with
    | O => OutOfFuel
    | S fuel' =>
        acc1 <- (if bucketIndex - i >=? 0 then
                   kb <- index (buckets rt) (bucketIndex - i) ;;
                   cs <- KBucket_GetContacts kb (count - len acc) ;;
                   Ok (acc ++ cs)
                 else Ok acc) ;;
        acc2 <- (if (bucketIndex + i <? 160) && (len acc1 <? count) then
                   kb <- index (buckets rt) (bucketIndex + i) ;;
                   cs <- KBucket_GetContacts kb (count - len acc1) ;;
                   Ok (acc1 ++ cs)
                 else Ok acc1) ;;
        closest_loop fuel' rt bucketIndex count (i + 1) acc2
    end
  else Ok acc.

(** [GetClosestContacts] holds the read lock of the table for the whole
    call and [RoutingTable.AddContact] the write lock, so each call sees
    one state of the table. *)
Definition GetClosestContacts (rt : RoutingTable) (target : NodeID) (count : Z)
  : result (list Contact) :=
  let bucketIndex := getBucketIndex (localID rt) target in
  kb <- index (buckets rt) bucketIndex ;;
  first <- KBucket_GetContacts kb count ;;
  pool <- closest_loop 160 rt bucketIndex count 1 first ;;
  let sorted := sort_Slice (closer target) pool in
  Ok (if len sorted >? count then firstn (Z.to_nat count) sorted else sorted).

(** [byte(x)]: conversion of an [int] to a byte. *)
Definition to_byte (x : Z) : Z := x mod 256.

Definition GetRandomIDFromBucket (rt : RoutingTable) (bucketIndex : Z) : result NodeID :=
  let id := localID rt in
  let byteIndex := Z.quot bucketIndex 8 in
  let bitIndex := Z.rem bucketIndex 8 in
  old <- index id byteIndex ;;
  store id byteIndex (Z.lxor old (to_byte (Z.shiftl 1 (7 - bitIndex)))).

Definition RoutingTable_Size (rt : RoutingTable) : Z :=
  fold_left (fun total bucket => total + KBucket_Size bucket) (buckets rt) 0.

(* ================================================================== *)
(** ** dht/discovery.go *)

(** *** encoding/hex.Decode, as used by [handleFindNode]

    The standard decoder reads the source two characters at a time and
    writes each decoded byte to [dst[i]]; it stops at the first character
    that is not a hexadecimal digit and returns the number of bytes
    written so far with the error; an odd trailing digit is a length
    error.  Writing past the end of [dst] is an index panic. *)

Inductive hex_error : Type :=
| InvalidByteError (c : ascii)
| ErrLength.

Definition fromHexChar (c : ascii) : option Z :=
  let n := Z.of_N (N_of_ascii c) in
  if (48 <=? n) && (n <=? 57) then Some (n - 48)            (* '0'..'9' *)
  else if (97 <=? n) && (n <=? 102) then Some (n - 97 + 10) (* 'a'..'f' *)
  else if (65 <=? n) && (n <=? 70) then Some (n - 65 + 10)  (* 'A'..'F' *)
  else None.

Fixpoint hex_Decode_from (dst : list Z) (i : Z) (src : list ascii)
  : result (list Z * Z * option hex_error) :=
  match src with
  | [] => Ok (dst, i, None)
  | [p] =>
      match fromHexChar p with
      | None => Ok (dst, i, Some (InvalidByteError p))
      | Some _ => Ok (dst, i, Some ErrLength)
      end
  | p :: q :: rest =>
      match fromHexChar p with
      | None => Ok (dst, i, Some (InvalidByteError p))
      | Some a =>
          match fromHexChar q with
          | None => Ok (dst, i, Some (InvalidByteError q))
          | Some b =>
              dst' <- store dst i (Z.lor (Z.shiftl a 4) b) ;;
              hex_Decode_from dst' (i + 1) rest
          end
      end
  end.

Definition hex_Decode (dst : list Z) (src : string)
  : result (list Z * Z * option hex_error) :=
  hex_Decode_from dst 0 (list_ascii_of_string src).

(** *** The FindNode RPC handler *)

Inductive body : Type :=
| Text (msg : string)
| ContactsJSON (cs : list Contact).

Record response : Type := mkResponse {
  status : Z;
  payload : body
}.

Definition StatusOK : Z := 200.
Definition StatusBadRequest : Z := 400.

(** The request, reduced to its query string: [target] is [None] when the
    parameter is absent; [r.URL.Query().Get] then yields the empty string. *)
Record request : Type := mkRequest {
  target_param : option string
}.

Definition Query_Get_target (r : request) : string :=
  match target_param r with
  | Some s => s
  | None => EmptyString
  end.

Definition http_Error (msg : string) (code : Z) : response :=
  {| status := code; payload := Text msg |}.

(** The handler reads the routing table and never writes it: the table
    after the call is returned next to the response, also when the
    handler panics. *)
Definition handleFindNode (rt : RoutingTable) (r : request)
  : result response * RoutingTable :=
  let targetStr := Query_Get_target r in
  if String.eqb targetStr EmptyString then
    (Ok (http_Error "Missing target parameter" StatusBadRequest), rt)
  else
    match hex_Decode (repeat 0 20) targetStr with
    | Ok (targetID, n, err) =>
        if (match err with Some _ => true | None => false end) || negb (n =? 20) then
          (Ok (http_Error "Invalid target ID" StatusBadRequest), rt)
        else
          (closestContacts <- GetClosestContacts rt targetID K ;;
           Ok {| status := StatusOK; payload := ContactsJSON closestContacts |}, rt)
    | Panic => (Panic, rt)
    | OutOfFuel => (OutOfFuel, rt)
    end.

(** *** FindNode

    The main loop of [FindNode] owns [contacted], [closestSoFar] and
    [activeQueries]; the goroutines only run [findNodeRPC] and send the
    reply on [resultChan].  A run is therefore determined by the order in
    which replies arrive and by what they carry: a [delivery] names the
    query in flight that reports next, its reply ([None] for the [nil]
    sent after a failed RPC) and the clock reading used while the reply
    is merged. *)

Record delivery : Type := mkDelivery {
  who : nat;
  reply : option (list Contact);
  at_time : Z
}.

Record lookup : Type := mkLookup {
  lk_table : RoutingTable;
  lk_contacted : list string;      (* keys of the map [contacted] *)
  lk_closestSoFar : list Contact;
  lk_inflight : list Contact;      (* [activeQueries] = its length *)
  lk_rpcs : list Contact           (* every findNodeRPC started, in order *)
}.

Definition contacted_has (m : list string) (addr : string) : bool :=
  existsb (String.eqb addr) m.

Fixpoint remove_nth {A : Type} (n : nat) (l : list A) : list A :=
  match l, n with
  | [], _ => []
  | _ :: r, O => r
  | a :: r, S n' => a :: remove_nth n' r
  end.

(** [for _, contact := range contacts] in the receive branch. *)
Fixpoint merge_reply (now : Z) (cs : list Contact) (st : lookup) : result lookup :=
  match cs with
  | [] => Ok st
  | contact :: rest =>
      if contacted_has (lk_contacted st) (Address contact) then merge_reply now rest st
      else
        rt <- RoutingTable_AddContact now (lk_table st) contact ;;
        merge_reply now rest
          {| lk_table := rt;
             lk_contacted := Address contact :: lk_contacted st;
             lk_closestSoFar := lk_closestSoFar st ++ [contact];
             lk_inflight := lk_inflight st;
             lk_rpcs := lk_rpcs st |}
  end.

(** One iteration of [for activeQueries > 0], receiving delivery [d]. *)
Definition receive (target : NodeID) (d : delivery) (st : lookup) : result lookup :=
  let st := {| lk_table := lk_table st;
               lk_contacted := lk_contacted st;
               lk_closestSoFar := lk_closestSoFar st;
               lk_inflight := remove_nth (who d) (lk_inflight st);
               lk_rpcs := lk_rpcs st |} in
  match reply d with
  | None => Ok st
  | Some cs =>
      st <- merge_reply (at_time d) cs st ;;
      let sorted := sort_Slice (closer target) (lk_closestSoFar st) in
      match sorted with
      | next :: others =>
          if len (lk_inflight st) <? Alpha then
            Ok {| lk_table := lk_table st;
                  lk_contacted := lk_contacted st;
                  lk_closestSoFar := others;
                  lk_inflight := lk_inflight st ++ [next];
                  lk_rpcs := lk_rpcs st ++ [next] |}
          else
            Ok {| lk_table := lk_table st;
                  lk_contacted := lk_contacted st;
                  lk_closestSoFar := sorted;
                  lk_inflight := lk_inflight st;
                  lk_rpcs := lk_rpcs st |}
      | [] =>
          Ok {| lk_table := lk_table st;
                lk_contacted := lk_contacted st;
                lk_closestSoFar := sorted;
                lk_inflight := lk_inflight st;
                lk_rpcs := lk_rpcs st |}
      end
  end.

Inductive outcome : Type :=
| Returned (err : option string) (st : lookup)
| Waiting (st : lookup)      (* blocked on [resultChan]: no delivery left *)
| Crashed.

(** A delivery that names no query in flight stands for nothing and is
    skipped. *)
Fixpoint FindNode_loop (target : NodeID) (sched : list delivery) (st : lookup) : outcome :=
  if len (lk_inflight st) >? 0 then
    match sched with
    | [] => Waiting st
    | d :: rest =>
        if (who d <? length (lk_inflight st))%nat then
          match receive target d st with
          | Ok st' => FindNode_loop target rest st'
          | _ => Crashed
          end
        else FindNode_loop target rest st
    end
  else Returned None st.

Definition no_contacts_error : string := "no contacts in routing table".

Definition FindNode (rt : RoutingTable) (targetID : NodeID) (sched : list delivery)
  : outcome :=
  match GetClosestContacts rt targetID Alpha with
  | Ok closestNodes =>
      if len closestNodes =? 0 then
        Returned (Some no_contacts_error)
          {| lk_table := rt; lk_contacted := []; lk_closestSoFar := [];
             lk_inflight := []; lk_rpcs := [] |}
      else
        FindNode_loop targetID sched
          {| lk_table := rt;
             lk_contacted := map Address closestNodes;
             lk_closestSoFar := [];
             lk_inflight := closestNodes;
             lk_rpcs := closestNodes |}
  | _ => Crashed
  end.

(* ================================================================== *)
(** ** Sequences of operations *)

Inductive bucket_op : Type :=
| BAddContact (now : Z) (c : Contact)
| BGetContacts (count : Z)
| BSize.

(** Only [AddContact] writes the bucket. *)
Definition bucket_step (kb : KBucket) (op : bucket_op) : KBucket :=
  match op with
  | BAddContact now c => snd (KBucket_AddContact now kb c)
  | BGetContacts _ => kb
  | BSize => kb
  end.

Definition bucket_run (ops : list bucket_op) (kb : KBucket) : KBucket :=
  fold_left bucket_step ops kb.

Inductive table_op : Type :=
| TAddContact (now : Z) (c : Contact)
| TGetClosestContacts (target : NodeID) (count : Z).

Definition table_step (rt : RoutingTable) (op : table_op) : result RoutingTable :=
  match op with
  | TAddContact now c => RoutingTable_AddContact now rt c
  | TGetClosestContacts target count =>
      _ <- GetClosestContacts rt target count ;; Ok rt
  end.

Fixpoint table_run (ops : list table_op) (rt : RoutingTable) : result RoutingTable :=
  match ops with
  | [] => Ok rt
  | op :: rest => rt' <- table_step rt op ;; table_run rest rt'
  end.

(** Arguments the Go types admit: 20-byte identifiers, and counts for
    which [make] does not panic. *)
Definition wf_table_op (op : table_op) : Prop :=
  match op with
  | TAddContact _ c => wf_NodeID (ID c)
  | TGetClosestContacts target count => wf_NodeID target /\ 0 <= count
  end.

(** Tables the program can build. *)
Definition reachable (rt : RoutingTable) : Prop :=
  exists clock local ops,
    wf_NodeID local /\ Forall wf_table_op ops /\
    table_run ops (NewRoutingTable clock local) = Ok rt.

(* ================================================================== *)
(** ** Notions used by the properties *)

(** Bit [k] of an identifier, bit 0 being the most significant bit of
    byte 0. *)
Definition bit_at (d : NodeID) (k : Z) : bool :=
  Z.testbit (nth (Z.to_nat (k / 8)) d 0) (7 - k mod 8).

Definition highest_set_bit (d : NodeID) (i : Z) : Prop :=
  0 <= i < 160 /\ bit_at d i = true /\
  forall j, 0 <= j < i -> bit_at d j = false.

Definition first_difference (a b : NodeID) (i : Z) : Prop :=
  0 <= i < 160 /\ bit_at a i <> bit_at b i /\
  forall j, 0 <= j < i -> bit_at a j = bit_at b j.

(** An identifier or a distance read as an unsigned big-endian integer. *)
Fixpoint toZ (d : NodeID) : Z :=
  match d with
  | [] => 0
  | b :: rest => b * 256 ^ len rest + toZ rest
  end.

Definition all_contacts (rt : RoutingTable) : list Contact :=
  concat (map contacts (buckets rt)).

Definition has_ID (id : NodeID) (l : list Contact) : Prop :=
  exists e, In e l /\ ID e = id.

(** Non-decreasing distance to [target]: no element is strictly closer
    than one placed before it. *)
Definition dist_le (target : NodeID) (x y : Contact) : Prop :=
  closer target y x = false.

(* ================================================================== *)
(** ** Concrete identifiers and tables used in examples *)

Definition id_of_first_byte (b : Z) : NodeID := b :: repeat 0 19.
Definition id_of_last_byte (b : Z) : NodeID := repeat 0 19 ++ [b].

Definition clock0 : nat -> Z := fun _ => 0.

Definition contact_of (id : NodeID) (addr : string) (t : Z) : Contact :=
  {| ID := id; Address := addr; LastSeen := t |}.

(* ================================================================== *)
(** ** Invariants, and the concrete values of the examples *)

(** Comparison of two elements by an integer key. *)
Definition key_le {A : Type} (f : A -> Z) (a b : A) : Prop := f a <= f b.

(** What holds of every table the program builds. *)
Definition table_inv (rt : RoutingTable) : Prop :=
  wf_NodeID (localID rt) /\
  length (buckets rt) = 160%nat /\
  forall i kb, nth_error (buckets rt) i = Some kb ->
    NoDup (map ID (contacts kb)) /\
    forall c, In c (contacts kb) ->
      wf_NodeID (ID c) /\ getBucketIndex (localID rt) (ID c) = Z.of_nat i.

(** The pool gathered so far: at most [count] contacts of the table,
    without a repeated NodeID, all from buckets strictly between [lo]
    and [hi]. *)
Definition pool_inv (rt : RoutingTable) (lo hi count : Z) (acc : list Contact) : Prop :=
  len acc <= count /\
  NoDup (map ID acc) /\
  forall c, In c acc ->
    In c (all_contacts rt) /\ lo < getBucketIndex (localID rt) (ID c) < hi.

Definition is_hex (c : ascii) : bool :=
  match fromHexChar c with Some _ => true | None => false end.

Definition full_bucket : KBucket :=
  {| contacts := map (fun b => contact_of (id_of_last_byte b) "10.0.0.1:4000" 0)
                     [1; 2; 3; 4; 5; 6; 7; 8; 9; 10; 11; 12; 13; 14; 15; 16; 17; 18; 19; 20];
     lastSeen := 0; range_min := id_of_last_byte 1; range_max := id_of_last_byte 20 |}.

Definition two_bucket : KBucket :=
  {| contacts := [contact_of (id_of_last_byte 1) "10.0.0.1:4000" 10;
                  contact_of (id_of_last_byte 2) "10.0.0.2:4000" 11];
     lastSeen := 11; range_min := id_of_last_byte 1; range_max := id_of_last_byte 2 |}.

Definition sample_ops : list table_op :=
  [TAddContact 1 (contact_of (id_of_first_byte 128) "10.0.0.1:4000" 1);
   TAddContact 2 (contact_of (id_of_last_byte 1) "10.0.0.2:4000" 2);
   TGetClosestContacts (id_of_first_byte 64) 3;
   TAddContact 3 (contact_of (id_of_first_byte 64) "10.0.0.3:4000" 3);
   TAddContact 4 (contact_of (id_of_first_byte 128) "10.0.0.9:4000" 4)].

Definition sample_table : RoutingTable :=
  match table_run sample_ops (NewRoutingTable clock0 zeroID) with
  | Ok rt => rt
  | _ => NewRoutingTable clock0 zeroID
  end.

Definition one_contact : Contact := contact_of (id_of_first_byte 128) "10.0.0.1:4000" 1.

Definition one_contact_table : RoutingTable :=
  match table_run [TAddContact 1 one_contact] (NewRoutingTable clock0 zeroID) with
  | Ok rt => rt
  | _ => NewRoutingTable clock0 zeroID
  end.

(** 42 hexadecimal digits followed by two characters that are not. *)
Definition long_malformed_target : string :=
  "000000000000000000000000000000000000000000zz".

(* ================================================================== *)
(** ** Further code of the package *)

(** *** NodeID.String: encoding/hex.EncodeToString

    Each byte [v] gives the two characters [hextable[v>>4]] and
    [hextable[v&0x0f]]. *)

Definition hextable : list ascii := list_ascii_of_string "0123456789abcdef".

Definition hex_digit (v : Z) : ascii := nth (Z.to_nat v) hextable "0"%char.

Fixpoint hex_Encode (src : list Z) : list ascii :=
  match src with
  | [] => []
  | v :: rest =>
      hex_digit (Z.shiftr v 4) :: hex_digit (Z.land v 15) :: hex_Encode rest
  end.

Definition NodeID_String (n : NodeID) : string :=
  string_of_list_ascii (hex_Encode n).

(** The first [n] characters exist and are hexadecimal digits. *)
Definition hex_prefix (n : nat) (src : list ascii) : Prop :=
  (n <= length src)%nat /\ forallb is_hex (firstn n src) = true.

(** *** Bounds kept by a bucket *)

(** [range.min <= c.ID <= range.max] in the order of [lessThan]. *)
Definition in_range (kb : KBucket) (c : Contact) : Prop :=
  lessThan (ID c) (range_min kb) = false /\
  lessThan (range_max kb) (ID c) = false.

Definition wf_bucket_op (op : bucket_op) : Prop :=
  match op with
  | BAddContact _ c => wf_NodeID (ID c)
  | _ => True
  end.

(** *** bootstrap and addBootstrapNode

    [ping addr] is the answer of [pingNode] for the node at [addr]:
    [None] when the RPC fails, otherwise the NodeID of the returned
    ServiceInfo, the only field that is used.  [tc] is the reading of the
    clock stored in the contact, [tb] the one taken by the bucket.  The
    message printed for a failed node is not modelled. *)

Definition addBootstrapNode (ping : string -> option NodeID) (tc tb : Z)
    (rt : RoutingTable) (addr : string) : result (bool * RoutingTable) :=
  match ping addr with
  | None => Ok (false, rt)                       (* [return err] *)
  | Some id =>
      let realContact := {| ID := id; Address := addr; LastSeen := tc |} in
      rt' <- RoutingTable_AddContact tb rt realContact ;;
      Ok (true, rt')                             (* [return nil] *)
  end.

(** [for _, addr := range dht.config.BootstrapNodes]: errors are printed
    and the loop goes on.  Node [k] reads the clock at [clock (2k)] and
    [clock (2k+1)]. *)
Fixpoint bootstrap_nodes (ping : string -> option NodeID) (clock : nat -> Z)
    (k : nat) (rt : RoutingTable) (nodes : list string) : result RoutingTable :=
  match nodes with
  | [] => Ok rt
  | addr :: rest =>
      r <- addBootstrapNode ping (clock (2 * k)%nat) (clock (2 * k + 1)%nat) rt addr ;;
      bootstrap_nodes ping clock (S k) (snd r) rest
  end.

Definition idle (rt : RoutingTable) : lookup :=
  {| lk_table := rt; lk_contacted := []; lk_closestSoFar := [];
     lk_inflight := []; lk_rpcs := [] |}.

(** The lookup that follows is for the node's own ID, which is the local
    ID the routing table was created with ([NewDHT]). *)
Definition bootstrap (ping : string -> option NodeID) (clock : nat -> Z)
    (sched : list delivery) (rt : RoutingTable) (BootstrapNodes : list string)
  : outcome :=
  if len BootstrapNodes =? 0 then Returned None (idle rt)
  else
    match bootstrap_nodes ping clock 0 rt BootstrapNodes with
    | Ok rt' => FindNode rt' (localID rt') sched
    | _ => Crashed
    end.



(** *** The service registry *)

Record ServiceInfo : Type := mkServiceInfo {
  svc_NodeID : NodeID;
  svc_NodeType : string;
  svc_Address : string;
  svc_APIPort : Z;
  svc_GRPCPort : Z;
  svc_NumShards : Z;
  svc_Version : string;
  svc_Properties : list (string * string);
  svc_LastSeen : Z
}.

(** [map[string]ServiceInfo]: one entry per key. *)
Definition services_map := list (string * ServiceInfo).

Fixpoint services_get (m : services_map) (k : string) : option ServiceInfo :=
  match m with
  | [] => None
  | (k', v) :: rest => if String.eqb k' k then Some v else services_get rest k
  end.

Fixpoint services_set (m : services_map) (k : string) (v : ServiceInfo)
  : services_map :=
  match m with
  | [] => [(k, v)]
  | (k', v') :: rest =>
      if String.eqb k' k then (k, v) :: rest
      else (k', v') :: services_set rest k v
  end.

(** [RegisterService] stores the entry and returns [nil]. *)
Definition RegisterService (services : services_map) (serviceID : string)
    (info : ServiceInfo) : option string * services_map :=
  (None, services_set services serviceID info).

Definition service_not_found : string := "service not found".

Definition FindService (services : services_map) (serviceID : string)
  : option ServiceInfo * option string :=
  match services_get services serviceID with
  | Some info => (Some info, None)
  | None => (None, Some service_not_found)
  end.

(** The order in which Go ranges over a map is not specified; the model
    ranges in the order of the list. *)
Definition FindServicesByType (services : services_map) (serviceType : string)
  : list ServiceInfo * option string :=
  (map snd (filter (fun kv => String.eqb (svc_NodeType (snd kv)) serviceType) services),
   None).


(** [rt'] is a table the program can build, with the local ID of [rt] and
    at least the NodeIDs of [rt]. *)
Definition table_extends (rt rt' : RoutingTable) : Prop :=
  reachable rt' /\ localID rt' = localID rt /\
  forall id, has_ID id (all_contacts rt) -> has_ID id (all_contacts rt').

(** The registry after a series of [RegisterService] calls on an empty
    map. *)
Definition registry_of (regs : list (string * ServiceInfo)) : services_map :=
  fold_left (fun m kv => snd (RegisterService m (fst kv) (snd kv))) regs [].

(** One tick of [refreshRoutingTable]: [bucketIndex] is the value drawn by
    [rand.Intn(160)]; the error returned by [FindNode] is dropped by the
    caller. *)
Definition refresh_tick (rt : RoutingTable) (bucketIndex : Z) (sched : list delivery)
  : outcome :=
  match GetRandomIDFromBucket rt bucketIndex with
  | Ok randomID => FindNode rt randomID sched
  | _ => Crashed
  end.

Definition bucket0_ops : list table_op :=
  [TAddContact 1 (contact_of (id_of_first_byte 128) "10.0.0.1:4000" 0);
   TAddContact 2 (contact_of (id_of_first_byte 129) "10.0.0.2:4000" 0);
   TAddContact 3 (contact_of (id_of_first_byte 130) "10.0.0.3:4000" 0);
   TAddContact 4 (contact_of (id_of_first_byte 131) "10.0.0.4:4000" 0)].

Definition bucket0_table : RoutingTable :=
  match table_run bucket0_ops (NewRoutingTable clock0 zeroID) with
  | Ok rt => rt
  | _ => NewRoutingTable clock0 zeroID
  end.

(* ================================================================== *)
(** * Properties *)

(** ** Bytes and identifiers *)

Lemma is_byte_range b : is_byte b = true <-> 0 <= b < 256.
Proof. unfold is_byte. rewrite andb_true_iff, Z.leb_le, Z.ltb_lt. tauto. Qed.

Lemma len_cons {A} (x : A) l : len (x :: l) = len l + 1.
Proof. unfold len. simpl length. lia. Qed.

Lemma len_nonneg {A} (l : list A) : 0 <= len l.
Proof. unfold len. lia. Qed.

Lemma len_app {A} (l1 l2 : list A) : len (l1 ++ l2) = len l1 + len l2.
Proof. unfold len. rewrite length_app. lia. Qed.

Lemma NodeID_eqb_eq a b : NodeID_eqb a b = true <-> a = b.
Proof.
  revert b. induction a as [|x a IH]; intros [|y b]; simpl; split;
    try congruence; try reflexivity.
  - rewrite andb_true_iff, Z.eqb_eq, IH. intros [-> ->]. reflexivity.
  - intros E. injection E as -> ->. rewrite Z.eqb_refl. simpl. apply IH. reflexivity.
Qed.

Lemma NodeID_eqb_neq a b : NodeID_eqb a b = false <-> a <> b.
Proof.
  rewrite <- NodeID_eqb_eq. destruct (NodeID_eqb a b); split; congruence.
Qed.

Lemma lxor_byte x y : 0 <= x < 256 -> 0 <= y < 256 -> 0 <= Z.lxor x y < 256.
Proof.
  intros Hx Hy. split.
  - apply Z.lxor_nonneg. lia.
  - pose proof (Z.add_lxor_2land x y) as E.
    assert (Hn : 0 <= Z.lxor x y) by (apply Z.lxor_nonneg; lia).
    destruct (Z.eq_dec (Z.lxor x y) 0) as [->|Hne]; [lia|].
    assert (Hl : Z.log2 (Z.lxor x y) <= Z.max (Z.log2 x) (Z.log2 y))
      by (apply Z.log2_lxor; lia).
    assert (Hx8 : Z.log2 x < 8).
    { destruct (Z.eq_dec x 0) as [->|]; [simpl; lia|].
      apply Z.log2_lt_pow2; lia. }
    assert (Hy8 : Z.log2 y < 8).
    { destruct (Z.eq_dec y 0) as [->|]; [simpl; lia|].
      apply Z.log2_lt_pow2; lia. }
    change 256 with (2 ^ 8). apply Z.log2_lt_pow2; lia.
Qed.

Lemma lxor_le_add x y : 0 <= x -> 0 <= y -> Z.lxor x y <= x + y.
Proof.
  intros Hx Hy. pose proof (Z.add_lxor_2land x y) as E.
  assert (0 <= Z.land x y) by (apply Z.land_nonneg; lia). lia.
Qed.

Lemma xor_bytes_length a b :
  length a = length b -> length (xor_bytes a b) = length a.
Proof.
  revert b. induction a as [|x a IH]; intros [|y b]; simpl; intros E;
    try congruence. f_equal. apply IH. lia.
Qed.

Lemma xor_bytes_is_byte a b :
  forallb is_byte a = true -> forallb is_byte b = true ->
  forallb is_byte (xor_bytes a b) = true.
Proof.
  revert b. induction a as [|x a IH]; intros [|y b]; simpl; try reflexivity.
  rewrite !andb_true_iff. intros [Hx Ha] [Hy Hb]. split; [|apply IH; assumption].
  apply is_byte_range. apply lxor_byte; apply is_byte_range; assumption.
Qed.

Lemma xor_bytes_comm a b : xor_bytes a b = xor_bytes b a.
Proof.
  revert b. induction a as [|x a IH]; intros [|y b]; simpl; try reflexivity.
  rewrite Z.lxor_comm, IH. reflexivity.
Qed.

Lemma xor_bytes_self a : xor_bytes a a = repeat 0 (length a).
Proof.
  induction a as [|x a IH]; simpl; [reflexivity|].
  rewrite Z.lxor_nilpotent, IH. reflexivity.
Qed.

Lemma Distance_wf a b : wf_NodeID a -> wf_NodeID b -> wf_NodeID (Distance a b).
Proof.
  intros [La Ba] [Lb Bb]. split.
  - unfold Distance. rewrite xor_bytes_length; congruence.
  - apply xor_bytes_is_byte; assumption.
Qed.

Lemma toZ_bounds d : forallb is_byte d = true -> 0 <= toZ d < 256 ^ len d.
Proof.
  induction d as [|b d IH]; cbn [toZ forallb]; intros H.
  - unfold len. simpl. lia.
  - apply andb_true_iff in H. destruct H as [Hb Hd].
    apply is_byte_range in Hb. specialize (IH Hd).
    rewrite len_cons, Z.pow_add_r by (pose proof (len_nonneg d); lia).
    nia.
Qed.

Lemma toZ_triangle a b c :
  length a = length b -> length b = length c ->
  forallb is_byte a = true -> forallb is_byte b = true -> forallb is_byte c = true ->
  toZ (xor_bytes a c) <= toZ (xor_bytes a b) + toZ (xor_bytes b c).
Proof.
  revert b c. induction a as [|x a IH]; intros [|y b] [|z c];
    cbn [toZ xor_bytes forallb length]; try discriminate; try lia.
  intros Lab Lbc Ha Hb Hc.
  apply andb_true_iff in Ha, Hb, Hc.
  destruct Ha as [Hx Ha], Hb as [Hy Hb], Hc as [Hz Hc].
  apply is_byte_range in Hx, Hy, Hz.
  injection Lab as Lab. injection Lbc as Lbc.
  specialize (IH b c Lab Lbc Ha Hb Hc).
  unfold len. rewrite !xor_bytes_length by congruence.
  replace (length b) with (length a) by congruence.
  set (P := 256 ^ Z.of_nat (length a)).
  assert (HP : 0 <= P) by (apply Z.pow_nonneg; lia).
  assert (Hxz : Z.lxor x z <= Z.lxor x y + Z.lxor y z).
  { replace (Z.lxor x z) with (Z.lxor (Z.lxor x y) (Z.lxor y z)).
    - apply lxor_le_add; apply Z.lxor_nonneg; lia.
    - rewrite Z.lxor_assoc, <- (Z.lxor_assoc y y z), Z.lxor_nilpotent, Z.lxor_0_l.
      reflexivity. }
  nia.
Qed.

(** C8: the XOR distance is total on 20-byte identifiers (its value is
    again a 20-byte identifier), symmetric, zero on equal arguments, and
    satisfies the triangle inequality when distances are read as
    unsigned big-endian integers. *)
Theorem Distance_metric (a b c : NodeID) :
  wf_NodeID a -> wf_NodeID b -> wf_NodeID c ->
  wf_NodeID (Distance a b) /\
  Distance a b = Distance b a /\
  Distance a a = zeroID /\
  toZ (Distance a c) <= toZ (Distance a b) + toZ (Distance b c).
Proof.
  intros Ha Hb Hc. split; [apply Distance_wf; assumption|].
  split; [apply xor_bytes_comm|].
  split.
  - unfold Distance, zeroID. rewrite xor_bytes_self.
    destruct Ha as [-> _]. reflexivity.
  - destruct Ha as [La Ba], Hb as [Lb Bb], Hc as [Lc Bc].
    apply toZ_triangle; congruence.
Qed.

Lemma Distance_metric_witness :
  let a := id_of_first_byte 128 in
  let b := id_of_last_byte 1 in
  let c := id_of_first_byte 7 in
  wf_NodeID (Distance a b) /\
  Distance a b = Distance b a /\
  Distance a a = zeroID /\
  toZ (Distance a c) <= toZ (Distance a b) + toZ (Distance b c).
Proof.
  apply (Distance_metric (id_of_first_byte 128) (id_of_last_byte 1) (id_of_first_byte 7));
    split; reflexivity.
Defined.

(** ** The lexicographic order and the big-endian reading *)

Lemma lessThan_toZ a b :
  length a = length b ->
  forallb is_byte a = true -> forallb is_byte b = true ->
  (lessThan a b = true <-> toZ a < toZ b).
Proof.
  revert b. induction a as [|x a IH]; intros [|y b];
    cbn [lessThan toZ forallb length]; try discriminate.
  - intros _ _ _. split; [discriminate | lia].
  - intros L Ha Hb. injection L as L.
    apply andb_true_iff in Ha, Hb. destruct Ha as [Hx Ha], Hb as [Hy Hb].
    apply is_byte_range in Hx, Hy.
    pose proof (toZ_bounds a Ha) as Ba. pose proof (toZ_bounds b Hb) as Bb.
    specialize (IH b L Ha Hb).
    assert (E : len b = len a) by (unfold len; lia). rewrite E in *.
    set (P := 256 ^ len a) in *.
    destruct (Z.ltb_spec x y) as [Hlt|Hge].
    + split; [intros _; nia | reflexivity].
    + destruct (Z.gtb_spec x y) as [Hgt|Hle].
      * split; [discriminate | nia].
      * assert (x = y) by lia. subst y. rewrite IH. lia.
Qed.

Lemma closer_toZ target x y :
  wf_NodeID target -> wf_NodeID (ID x) -> wf_NodeID (ID y) ->
  (closer target x y = true <->
   toZ (Distance (ID x) target) < toZ (Distance (ID y) target)).
Proof.
  intros Ht Hx Hy. unfold closer.
  destruct (Distance_wf _ _ Hx Ht) as [L1 B1].
  destruct (Distance_wf _ _ Hy Ht) as [L2 B2].
  apply lessThan_toZ; congruence.
Qed.

Lemma dist_le_toZ target x y :
  wf_NodeID target -> wf_NodeID (ID x) -> wf_NodeID (ID y) ->
  (dist_le target x y <->
   toZ (Distance (ID x) target) <= toZ (Distance (ID y) target)).
Proof.
  intros Ht Hx Hy. unfold dist_le.
  pose proof (closer_toZ target y x Ht Hy Hx) as E.
  destruct (closer target y x).
  - split; [discriminate|]. intros H. apply proj1 in E. specialize (E eq_refl). lia.
  - split; [|reflexivity]. intros _.
    destruct (Z.le_gt_cases (toZ (Distance (ID x) target)) (toZ (Distance (ID y) target)))
      as [H|H]; [assumption|].
    apply E in H. discriminate.
Qed.

(** ** Bits of an identifier *)

Lemma bit_test b k :
  0 <= k -> negb (Z.land (Z.shiftr b k) 1 =? 0) = Z.testbit b k.
Proof.
  intros Hk.
  replace (Z.testbit b k) with (Z.testbit (Z.shiftr b k) 0)
    by (rewrite Z.shiftr_spec by lia; f_equal; lia).
  change 1 with (Z.ones 1). rewrite Z.land_ones by lia.
  rewrite Z.bit0_eqb. change (2 ^ 1) with 2.
  pose proof (Z.mod_pos_bound (Z.shiftr b k) 2 ltac:(lia)).
  destruct (Z.eqb_spec (Z.shiftr b k mod 2) 0), (Z.eqb_spec (Z.shiftr b k mod 2) 1);
    simpl; try reflexivity; lia.
Qed.

Lemma scan_bits_spec b :
  match scan_bits b with
  | Some j => 0 <= j < 8 /\ Z.testbit b (7 - j) = true /\
              forall j', 0 <= j' < j -> Z.testbit b (7 - j') = false
  | None => forall j, 0 <= j < 8 -> Z.testbit b (7 - j) = false
  end.
Proof.
  unfold scan_bits. cbn [find].
  rewrite !bit_test by lia.
  repeat match goal with
  | |- context [if Z.testbit b ?k then _ else _] =>
      let E := fresh "E" in destruct (Z.testbit b k) eqn:E
  end;
  repeat split; try lia; try assumption;
  intros j Hj;
  (assert (Hc : j = 0 \/ j = 1 \/ j = 2 \/ j = 3 \/ j = 4 \/ j = 5 \/ j = 6 \/ j = 7) by lia);
  repeat (destruct Hc as [-> | Hc]; [first [assumption | lia]|]);
  first [subst j; assumption | lia].
Qed.

Lemma byte_bits_zero b :
  0 <= b < 256 -> (forall j, 0 <= j < 8 -> Z.testbit b (7 - j) = false) -> b = 0.
Proof.
  intros Hb H. apply Z.bits_inj'. intros n Hn. rewrite Z.bits_0.
  destruct (Z.lt_ge_cases n 8) as [Hlt|Hge].
  - specialize (H (7 - n) ltac:(lia)). replace (7 - (7 - n)) with n in H by lia.
    exact H.
  - destruct (Z.eq_dec b 0) as [->|Hne]; [apply Z.bits_0|].
    apply Z.bits_above_log2; [lia|].
    assert (Z.log2 b < 8) by (apply Z.log2_lt_pow2; lia). lia.
Qed.

Lemma bit_at_cons b d k :
  0 <= k ->
  bit_at (b :: d) k = if k <? 8 then Z.testbit b (7 - k) else bit_at d (k - 8).
Proof.
  intros Hk. unfold bit_at. destruct (Z.ltb_spec k 8) as [Hlt|Hge].
  - rewrite Z.div_small, Z.mod_small by lia. reflexivity.
  - replace k with ((k - 8) + 1 * 8) at 1 2 by lia.
    rewrite Z.div_add, Z.mod_add by lia.
    assert (0 <= (k - 8) / 8) by (apply Z.div_pos; lia).
    rewrite Z2Nat.inj_add by lia. change (Z.to_nat 1) with 1%nat.
    rewrite Nat.add_1_r. reflexivity.
Qed.

Lemma scan_bytes_spec d : forall i,
  match scan_bytes d i with
  | Some k => exists r, k = i * 8 + r /\ 0 <= r < 8 * len d /\
                        bit_at d r = true /\
                        forall j, 0 <= j < r -> bit_at d j = false
  | None => forall j, 0 <= j < 8 * len d -> bit_at d j = false
  end.
Proof.
  induction d as [|b d IH]; intros i; cbn [scan_bytes].
  - intros j Hj. unfold len in Hj. simpl in Hj. lia.
  - pose proof (scan_bits_spec b) as Hb. destruct (scan_bits b) as [j0|].
    + destruct Hb as (R & T & F). exists j0. rewrite len_cons.
      pose proof (len_nonneg d).
      repeat split; try lia.
      * rewrite bit_at_cons by lia. destruct (Z.ltb_spec j0 8); [assumption|lia].
      * intros j Hj. rewrite bit_at_cons by lia.
        destruct (Z.ltb_spec j 8); [apply F; lia|lia].
    + specialize (IH (i + 1)). destruct (scan_bytes d (i + 1)) as [k|].
      * destruct IH as (r & -> & R & T & F). exists (r + 8). rewrite len_cons.
        repeat split; try lia.
        -- rewrite bit_at_cons by lia. destruct (Z.ltb_spec (r + 8) 8); [lia|].
           replace (r + 8 - 8) with r by lia. assumption.
        -- intros j Hj. rewrite bit_at_cons by lia.
           destruct (Z.ltb_spec j 8); [apply Hb; lia|apply F; lia].
      * intros j Hj. rewrite len_cons in Hj. rewrite bit_at_cons by lia.
        destruct (Z.ltb_spec j 8); [apply Hb; lia|apply IH; lia].
Qed.

Lemma bits_zero_bytes d :
  forallb is_byte d = true ->
  (forall j, 0 <= j < 8 * len d -> bit_at d j = false) ->
  d = repeat 0 (length d).
Proof.
  induction d as [|b d IH]; cbn [forallb length repeat]; intros B H; [reflexivity|].
  apply andb_true_iff in B. destruct B as [Hb Hd]. apply is_byte_range in Hb.
  rewrite len_cons in H. pose proof (len_nonneg d). f_equal.
  - apply byte_bits_zero; [assumption|]. intros j Hj.
    specialize (H j ltac:(lia)). rewrite bit_at_cons in H by lia.
    destruct (Z.ltb_spec j 8); [assumption|lia].
  - apply IH; [assumption|]. intros j Hj.
    specialize (H (j + 8) ltac:(lia)). rewrite bit_at_cons in H by lia.
    destruct (Z.ltb_spec (j + 8) 8); [lia|].
    replace (j + 8 - 8) with j in H by lia. assumption.
Qed.

Lemma bit_at_zeros n k : bit_at (repeat 0 n) k = false.
Proof.
  unfold bit_at.
  assert (E : nth (Z.to_nat (k / 8)) (repeat 0 n) 0 = 0).
  { generalize (Z.to_nat (k / 8)). induction n as [|n IH]; intros [|m]; simpl; auto. }
  rewrite E. apply Z.bits_0.
Qed.

Lemma xor_bytes_zero_eq a b :
  length a = length b -> xor_bytes a b = repeat 0 (length a) -> a = b.
Proof.
  revert b. induction a as [|x a IH]; intros [|y b]; cbn [xor_bytes length repeat];
    try discriminate; [reflexivity|].
  intros L E. injection L as L. injection E as Exy E.
  apply Z.lxor_eq in Exy. subst y. f_equal. apply IH; assumption.
Qed.

Lemma bit_at_xor a b k :
  length a = length b -> 0 <= k ->
  bit_at (xor_bytes a b) k = xorb (bit_at a k) (bit_at b k).
Proof.
  revert b k. induction a as [|x a IH]; intros [|y b] k; cbn [xor_bytes length];
    try discriminate.
  - intros _ _. unfold bit_at. destruct (Z.to_nat (k / 8)); simpl; rewrite Z.bits_0;
      reflexivity.
  - intros L Hk. injection L as L. rewrite !bit_at_cons by assumption.
    destruct (Z.ltb_spec k 8).
    + apply Z.lxor_spec.
    + apply IH; [assumption|lia].
Qed.

Lemma highest_set_bit_unique d i i' :
  highest_set_bit d i -> highest_set_bit d i' -> i = i'.
Proof.
  intros (R & T & F) (R' & T' & F').
  destruct (Z.lt_trichotomy i i') as [H|[H|H]]; [|assumption|].
  - specialize (F' i ltac:(lia)). congruence.
  - specialize (F i' ltac:(lia)). congruence.
Qed.

Lemma highest_set_bit_first_difference a b i :
  length a = length b ->
  (highest_set_bit (Distance a b) i <-> first_difference a b i).
Proof.
  intros L. unfold highest_set_bit, first_difference, Distance.
  split; intros (R & T & F); (split; [assumption|]); split.
  - rewrite bit_at_xor in T by lia.
    destruct (bit_at a i), (bit_at b i); simpl in T; congruence.
  - intros j Hj. specialize (F j Hj). rewrite bit_at_xor in F by lia.
    destruct (bit_at a j), (bit_at b j); simpl in F; congruence.
  - rewrite bit_at_xor by lia.
    destruct (bit_at a i), (bit_at b i); simpl; congruence.
  - intros j Hj. specialize (F j Hj). rewrite bit_at_xor by lia.
    rewrite F. apply xorb_nilpotent.
Qed.

(** ** getBucketIndex *)

Lemma wf_len d : wf_NodeID d -> len d = 20.
Proof. intros [L _]. unfold len. rewrite L. reflexivity. Qed.

Lemma getBucketIndex_range L C :
  wf_NodeID L -> wf_NodeID C -> 0 <= getBucketIndex L C < 160.
Proof.
  intros HL HC. unfold getBucketIndex.
  pose proof (scan_bytes_spec (Distance L C) 0) as S.
  pose proof (wf_len _ (Distance_wf _ _ HL HC)) as E.
  destruct (scan_bytes (Distance L C) 0) as [k|]; [|lia].
  destruct S as (r & -> & R & _). lia.
Qed.

Lemma getBucketIndex_self L : wf_NodeID L -> getBucketIndex L L = 159.
Proof.
  intros HL. unfold getBucketIndex.
  pose proof (scan_bytes_spec (Distance L L) 0) as S.
  destruct (scan_bytes (Distance L L) 0) as [k|]; [|reflexivity].
  destruct S as (r & _ & _ & T & _).
  unfold Distance in T. rewrite xor_bytes_self, bit_at_zeros in T. discriminate.
Qed.

Lemma getBucketIndex_highest L C :
  wf_NodeID L -> wf_NodeID C -> C <> L ->
  highest_set_bit (Distance L C) (getBucketIndex L C).
Proof.
  intros HL HC Hne. unfold getBucketIndex.
  pose proof (scan_bytes_spec (Distance L C) 0) as S.
  pose proof (Distance_wf _ _ HL HC) as [LD BD].
  assert (E : len (Distance L C) = 20) by (unfold len; rewrite LD; reflexivity).
  destruct (scan_bytes (Distance L C) 0) as [k|].
  - destruct S as (r & -> & R & T & F). simpl (0 * 8 + r).
    split; [lia|]. split; assumption.
  - exfalso. apply Hne. symmetry.
    destruct HL as [LL _], HC as [LC _].
    apply xor_bytes_zero_eq; [congruence|].
    pose proof (bits_zero_bytes _ BD S) as Z0.
    unfold Distance in Z0, LD. rewrite LD in Z0. rewrite LL. exact Z0.
Qed.

Lemma getBucketIndex_intro L C i :
  wf_NodeID L -> wf_NodeID C ->
  highest_set_bit (Distance L C) i -> getBucketIndex L C = i.
Proof.
  intros HL HC H.
  assert (Hne : C <> L).
  { intros ->. destruct H as (_ & T & _).
    unfold Distance in T. rewrite xor_bytes_self, bit_at_zeros in T. discriminate. }
  apply (highest_set_bit_unique (Distance L C)); [|assumption].
  apply getBucketIndex_highest; assumption.
Qed.

(** The bits of an identifier are the bits of its big-endian value, bit 0
    of the identifier being the bit of highest weight. *)
Lemma testbit_high_low b t n m :
  0 <= n -> 0 <= m -> 0 <= t < 2 ^ n ->
  Z.testbit (b * 2 ^ n + t) m =
  if m <? n then Z.testbit t m else Z.testbit b (m - n).
Proof.
  intros Hn Hm Ht. destruct (Z.ltb_spec m n) as [Hlt|Hge].
  - rewrite <- (Z.mod_pow2_bits_low (b * 2 ^ n + t) n m) by assumption.
    rewrite Z.add_comm, Z.mod_add by lia. rewrite Z.mod_small by assumption.
    reflexivity.
  - replace m with ((m - n) + n) at 1 by lia.
    rewrite <- Z.div_pow2_bits by lia.
    rewrite Z.div_add_l by lia. rewrite Z.div_small by assumption.
    rewrite Z.add_0_r. reflexivity.
Qed.

Lemma toZ_testbit d : forall k,
  forallb is_byte d = true -> 0 <= k < 8 * len d ->
  Z.testbit (toZ d) (8 * len d - 1 - k) = bit_at d k.
Proof.
  induction d as [|b d IH]; intros k B Hk; cbn [toZ forallb] in *.
  - unfold len in Hk. simpl in Hk. lia.
  - apply andb_true_iff in B. destruct B as [Hb Hd].
    pose proof (toZ_bounds d Hd) as Bd. pose proof (len_nonneg d) as Hl.
    rewrite len_cons in *.
    replace (256 ^ len d) with (2 ^ (8 * len d)) in *
      by (rewrite Z.pow_mul_r by lia; reflexivity).
    rewrite testbit_high_low by lia. rewrite bit_at_cons by lia.
    destruct (Z.ltb_spec k 8) as [Hk8|Hk8].
    + destruct (Z.ltb_spec (8 * (len d + 1) - 1 - k) (8 * len d)); [lia|].
      f_equal. lia.
    + destruct (Z.ltb_spec (8 * (len d + 1) - 1 - k) (8 * len d)); [|lia].
      rewrite <- IH by (assumption || lia). f_equal. lia.
Qed.

Lemma highest_set_bit_log2 d i :
  wf_NodeID d -> highest_set_bit d i -> Z.log2 (toZ d) = 159 - i.
Proof.
  intros W (R & T & F). pose proof (wf_len d W) as E. destruct W as [_ B].
  pose proof (toZ_bounds d B) as Bd.
  apply Z.log2_bits_unique.
  - replace (159 - i) with (8 * len d - 1 - i) by lia.
    rewrite toZ_testbit by (assumption || lia). assumption.
  - intros m Hm. destruct (Z.lt_ge_cases m 160) as [Hlt|Hge].
    + replace m with (8 * len d - 1 - (159 - m)) by lia.
      rewrite toZ_testbit by (assumption || lia). apply F. lia.
    + destruct (Z.eq_dec (toZ d) 0) as [->|Hne]; [apply Z.bits_0|].
      apply Z.bits_above_log2; [lia|].
      assert (Z.log2 (toZ d) < 8 * len d).
      { apply Z.log2_lt_pow2; [lia|].
        replace (2 ^ (8 * len d)) with (256 ^ len d)
          by (rewrite Z.pow_mul_r by lia; reflexivity).
        lia. }
      lia.
Qed.

(** C2: for a candidate other than the local identifier, the bucket index
    is the position, counted from the most significant bit, of the
    highest set bit of the distance (the first bit where the two
    identifiers differ; 159 minus the binary logarithm of the distance
    read as an integer); the local identifier itself gets 159.  With the
    all-zero local identifier, 0x80 00..00 goes to bucket 0 and
    00..00 01 to bucket 159. *)
Theorem getBucketIndex_highest_set_bit (L C : NodeID) :
  wf_NodeID L -> wf_NodeID C ->
  (C <> L ->
     highest_set_bit (Distance L C) (getBucketIndex L C) /\
     first_difference L C (getBucketIndex L C) /\
     getBucketIndex L C = 159 - Z.log2 (toZ (Distance L C))) /\
  (C = L -> getBucketIndex L C = 159) /\
  getBucketIndex zeroID (id_of_first_byte 128) = 0 /\
  getBucketIndex zeroID (id_of_last_byte 1) = 159.
Proof.
  intros HL HC. split; [|split; [|split; reflexivity]].
  - intros Hne. pose proof (getBucketIndex_highest L C HL HC Hne) as H.
    split; [assumption|]. split.
    + apply highest_set_bit_first_difference; [|assumption].
      destruct HL as [-> _], HC as [-> _]. reflexivity.
    + pose proof (highest_set_bit_log2 _ _ (Distance_wf _ _ HL HC) H). lia.
  - intros ->. apply getBucketIndex_self. assumption.
Qed.

Lemma getBucketIndex_highest_set_bit_witness :
  (id_of_first_byte 5 <> zeroID ->
     highest_set_bit (Distance zeroID (id_of_first_byte 5))
       (getBucketIndex zeroID (id_of_first_byte 5)) /\
     first_difference zeroID (id_of_first_byte 5)
       (getBucketIndex zeroID (id_of_first_byte 5)) /\
     getBucketIndex zeroID (id_of_first_byte 5)
       = 159 - Z.log2 (toZ (Distance zeroID (id_of_first_byte 5)))) /\
  (id_of_first_byte 5 = zeroID -> getBucketIndex zeroID (id_of_first_byte 5) = 159) /\
  getBucketIndex zeroID (id_of_first_byte 128) = 0 /\
  getBucketIndex zeroID (id_of_last_byte 1) = 159.
Proof.
  apply (getBucketIndex_highest_set_bit zeroID (id_of_first_byte 5)); split; reflexivity.
Defined.

(** ** GetRandomIDFromBucket *)

Lemma nth_set_nth {A} (l : list A) n m v d :
  nth m (set_nth l n v) d =
  if (Nat.eqb m n && Nat.ltb n (length l))%bool then v else nth m l d.
Proof.
  revert n m. induction l as [|a l IH]; intros [|n] [|m]; simpl; try reflexivity.
  - rewrite andb_false_r. reflexivity.
  - rewrite IH. destruct (Nat.eqb m n); simpl; [|reflexivity].
    change (Nat.ltb (S n) (S (length l))) with (Nat.ltb n (length l)). reflexivity.
Qed.

Lemma length_set_nth {A} (l : list A) n v : length (set_nth l n v) = length l.
Proof.
  revert n. induction l as [|a l IH]; intros [|n]; simpl; try reflexivity.
  rewrite IH. reflexivity.
Qed.

Lemma forallb_set_nth {A} (p : A -> bool) l n v :
  forallb p l = true -> p v = true -> forallb p (set_nth l n v) = true.
Proof.
  revert n. induction l as [|a l IH]; intros [|n]; simpl; try reflexivity;
    rewrite !andb_true_iff; intros [Ha Hl] Hv; split; auto.
Qed.

Lemma forallb_nth_byte d n :
  forallb is_byte d = true -> 0 <= nth n d 0 < 256.
Proof.
  revert n. induction d as [|b d IH]; intros [|n]; simpl; try lia;
    rewrite andb_true_iff; intros [Hb Hd].
  - apply is_byte_range. assumption.
  - apply IH. assumption.
Qed.

Lemma index_nth {A} (l : list A) i d :
  0 <= i < len l -> index l i = Ok (nth (Z.to_nat i) l d).
Proof.
  intros Hi. unfold index.
  destruct (Z.leb_spec 0 i); [|lia]. destruct (Z.ltb_spec i (len l)); [|lia].
  simpl. assert (Hn : (Z.to_nat i < length l)%nat) by (unfold len in *; lia).
  destruct (nth_error l (Z.to_nat i)) eqn:E.
  - erewrite nth_error_nth by eassumption. reflexivity.
  - apply nth_error_None in E. lia.
Qed.

Lemma flip_mask k : 0 <= k < 8 -> to_byte (Z.shiftl 1 (7 - k)) = 2 ^ (7 - k).
Proof.
  intros Hk. rewrite Z.shiftl_1_l. unfold to_byte.
  assert (Hc : k = 0 \/ k = 1 \/ k = 2 \/ k = 3 \/ k = 4 \/ k = 5 \/ k = 6 \/ k = 7) by lia.
  repeat (destruct Hc as [-> | Hc]; [reflexivity|]). subst k. reflexivity.
Qed.

Lemma GetRandomIDFromBucket_flip rt i :
  wf_NodeID (localID rt) -> 0 <= i < 160 ->
  exists id,
    GetRandomIDFromBucket rt i = Ok id /\ wf_NodeID id /\
    forall j, 0 <= j < 160 ->
      bit_at id j = xorb (bit_at (localID rt) j) (j =? i).
Proof.
  intros HL Hi. pose proof (wf_len _ HL) as E. destruct HL as [LL BL].
  unfold GetRandomIDFromBucket.
  rewrite Z.quot_div_nonneg, Z.rem_mod_nonneg by lia.
  assert (Hq : 0 <= i / 8 < 20)
    by (split; [apply Z.div_pos; lia | apply Z.div_lt_upper_bound; lia]).
  assert (Hm : 0 <= i mod 8 < 8) by (apply Z.mod_pos_bound; lia).
  rewrite (index_nth _ _ 0) by lia. cbn [bind]. unfold store.
  destruct (Z.leb_spec 0 (i / 8)); [|lia].
  destruct (Z.ltb_spec (i / 8) (len (localID rt))); [|lia]. cbn [andb].
  rewrite flip_mask by assumption.
  eexists. split; [reflexivity|]. split.
  - split; [rewrite length_set_nth; assumption|].
    apply forallb_set_nth; [assumption|]. apply is_byte_range.
    apply lxor_byte; [apply forallb_nth_byte; assumption|].
    split; [apply Z.pow_nonneg; lia|].
    change 256 with (2 ^ 8). apply Z.pow_lt_mono_r; lia.
  - intros j Hj. unfold bit_at. rewrite nth_set_nth.
    assert (Hjq : 0 <= j / 8) by (apply Z.div_pos; lia).
    assert (Hjm : 0 <= j mod 8 < 8) by (apply Z.mod_pos_bound; lia).
    assert (Hlt : Nat.ltb (Z.to_nat (i / 8)) (length (localID rt)) = true)
      by (apply Nat.ltb_lt; lia).
    rewrite Hlt, andb_true_r.
    destruct (Nat.eqb_spec (Z.to_nat (j / 8)) (Z.to_nat (i / 8))) as [Eq|Ne].
    + assert (Eq' : j / 8 = i / 8) by lia. rewrite Eq'.
      rewrite Z.lxor_spec. f_equal.
      rewrite Z.pow2_bits_eqb by lia.
      pose proof (Z.div_mod j 8 ltac:(lia)). pose proof (Z.div_mod i 8 ltac:(lia)).
      destruct (Z.eqb_spec (7 - i mod 8) (7 - j mod 8)), (Z.eqb_spec j i);
        try reflexivity; lia.
    + destruct (Z.eqb_spec j i) as [->|_]; [congruence|].
      rewrite xorb_false_r. reflexivity.
Qed.

(** C7: for every bucket index in [0,159], GetRandomIDFromBucket returns
    the local identifier with exactly bit [i] flipped, and getBucketIndex
    sends that identifier back to bucket [i]. *)
Theorem GetRandomIDFromBucket_roundtrip (rt : RoutingTable) (i : Z) :
  wf_NodeID (localID rt) -> 0 <= i <= 159 ->
  exists id,
    GetRandomIDFromBucket rt i = Ok id /\
    wf_NodeID id /\
    (forall j, 0 <= j < 160 ->
       bit_at id j = xorb (bit_at (localID rt) j) (j =? i)) /\
    getBucketIndex (localID rt) id = i.
Proof.
  intros HL Hi.
  destruct (GetRandomIDFromBucket_flip rt i HL ltac:(lia)) as (id & E & W & B).
  exists id. repeat split; try assumption; try apply W.
  apply getBucketIndex_intro; [assumption..|].
  assert (LL : length (localID rt) = length id)
    by (destruct HL as [-> _], W as [-> _]; reflexivity).
  unfold highest_set_bit, Distance. split; [lia|]. split.
  - rewrite bit_at_xor, B by lia. rewrite Z.eqb_refl.
    destruct (bit_at (localID rt) i); reflexivity.
  - intros j Hj. rewrite bit_at_xor, B by lia.
    destruct (Z.eqb_spec j i); [lia|].
    destruct (bit_at (localID rt) j); reflexivity.
Qed.

Lemma GetRandomIDFromBucket_roundtrip_witness :
  let rt := NewRoutingTable clock0 (id_of_first_byte 165) in
  exists id,
    GetRandomIDFromBucket rt 13 = Ok id /\
    wf_NodeID id /\
    (forall j, 0 <= j < 160 ->
       bit_at id j = xorb (bit_at (localID rt) j) (j =? 13)) /\
    getBucketIndex (localID rt) id = 13.
Proof.
  apply (GetRandomIDFromBucket_roundtrip (NewRoutingTable clock0 (id_of_first_byte 165)) 13).
  - split; reflexivity.
  - lia.
Defined.

(** ** KBucket *)

Lemma Contact_Equal_iff e c : Contact_Equal e c = true <-> ID e = ID c.
Proof. apply NodeID_eqb_eq. Qed.

Lemma refresh_None c l : refresh c l = None <-> ~ has_ID (ID c) l.
Proof.
  induction l as [|e l IH]; cbn [refresh].
  - split; [|reflexivity]. intros _ (e & [] & _).
  - destruct (Contact_Equal e c) eqn:E.
    + split; [discriminate|]. intros H. exfalso. apply H. exists e.
      split; [left; reflexivity | apply Contact_Equal_iff; assumption].
    + destruct (refresh c l) as [l'|].
      * split; [discriminate|]. intros H. exfalso.
        assert (Hl : has_ID (ID c) l).
        { destruct (proj1 (not_iff_compat IH)) as []; [discriminate|].
          intros (x & Hx & Ex). apply H. exists x. split; [right|]; assumption. }
        apply H. destruct Hl as (x & Hx & Ex). exists x. split; [right|]; assumption.
      * split; [|reflexivity]. intros _ (x & [<-|Hx] & Ex).
        -- apply Contact_Equal_iff in Ex. congruence.
        -- apply (proj1 IH eq_refl). exists x. split; assumption.
Qed.

Lemma refresh_Some c l l' :
  refresh c l = Some l' ->
  exists l1 old l2,
    l = l1 ++ old :: l2 /\ ID old = ID c /\ ~ has_ID (ID c) l1 /\
    l' = l1 ++ l2 ++ [c].
Proof.
  revert l'. induction l as [|e l IH]; cbn [refresh]; intros l' H; [discriminate|].
  destruct (Contact_Equal e c) eqn:E.
  - injection H as <-. exists [], e, l. repeat split.
    + apply Contact_Equal_iff. assumption.
    + intros (x & [] & _).
  - destruct (refresh c l) as [r|]; [|discriminate]. injection H as <-.
    destruct (IH r eq_refl) as (l1 & old & l2 & -> & Eo & N & ->).
    exists (e :: l1), old, l2. repeat split; try assumption.
    intros (x & [<-|Hx] & Ex).
    + apply Contact_Equal_iff in Ex. congruence.
    + apply N. exists x. split; assumption.
Qed.

Lemma refresh_present c l : has_ID (ID c) l -> exists l', refresh c l = Some l'.
Proof.
  intros H. destruct (refresh c l) as [l'|] eqn:E; [exists l'; reflexivity|].
  apply refresh_None in E. contradiction.
Qed.

Lemma KBucket_AddContact_size now kb c :
  KBucket_Size kb <= K -> KBucket_Size (snd (KBucket_AddContact now kb c)) <= K.
Proof.
  unfold KBucket_AddContact, KBucket_Size. intros H.
  destruct (refresh c (contacts kb)) as [l|] eqn:E.
  - apply refresh_Some in E. destruct E as (l1 & old & l2 & E & _ & _ & ->).
    cbn [snd contacts]. rewrite E in H. unfold len in *.
    repeat (rewrite ?length_app in *; cbn [length] in * ). lia.
  - destruct (Z.ltb_spec (len (contacts kb)) K); cbn [snd contacts]; [|assumption].
    rewrite len_app. unfold len at 2. cbn [length]. lia.
Qed.

Lemma bucket_run_size ops : forall kb,
  KBucket_Size kb <= K -> KBucket_Size (bucket_run ops kb) <= K.
Proof.
  unfold bucket_run. induction ops as [|op ops IH]; intros kb H; cbn [fold_left];
    [assumption|].
  apply IH. destruct op; cbn [bucket_step]; try assumption.
  apply KBucket_AddContact_size. assumption.
Qed.

Lemma KBucket_AddContact_In now kb c e :
  In e (contacts (snd (KBucket_AddContact now kb c))) ->
  In e (contacts kb) \/ e = c.
Proof.
  unfold KBucket_AddContact.
  destruct (refresh c (contacts kb)) as [l|] eqn:E.
  - apply refresh_Some in E. destruct E as (l1 & old & l2 & E & _ & _ & ->).
    cbn [snd contacts]. rewrite E, !in_app_iff. cbn [In]. intuition auto.
  - destruct (len (contacts kb) <? K); cbn [snd contacts]; [|tauto].
    rewrite in_app_iff. cbn [In]. intros [H|[H|[]]]; auto.
Qed.

Lemma KBucket_AddContact_NoDup now kb c :
  NoDup (map ID (contacts kb)) ->
  NoDup (map ID (contacts (snd (KBucket_AddContact now kb c)))).
Proof.
  intros ND. unfold KBucket_AddContact.
  destruct (refresh c (contacts kb)) as [l|] eqn:E.
  - apply refresh_Some in E. destruct E as (l1 & old & l2 & E & Eo & _ & ->).
    cbn [snd contacts]. rewrite E, map_app in ND. cbn [map] in ND.
    pose proof (NoDup_remove_1 _ _ _ ND) as N1.
    pose proof (NoDup_remove_2 _ _ _ ND) as N2.
    rewrite app_assoc, map_app. cbn [map]. apply NoDup_app.
    + rewrite map_app. assumption.
    + constructor; [intros []|constructor].
    + intros a Ha [<-|[]]. apply N2. rewrite Eo, <- map_app. assumption.
  - apply refresh_None in E.
    destruct (len (contacts kb) <? K); cbn [snd contacts]; [|assumption].
    rewrite map_app. cbn [map]. apply NoDup_app.
    + assumption.
    + constructor; [intros []|constructor].
    + intros a Ha [<-|[]]. apply E. apply in_map_iff in Ha.
      destruct Ha as (x & Ex & Hx). exists x. split; assumption.
Qed.

Lemma bucket_run_NoDup ops : forall kb,
  NoDup (map ID (contacts kb)) -> NoDup (map ID (contacts (bucket_run ops kb))).
Proof.
  unfold bucket_run. induction ops as [|op ops IH]; intros kb H; cbn [fold_left];
    [assumption|].
  apply IH. destruct op; cbn [bucket_step]; try assumption.
  apply KBucket_AddContact_NoDup. assumption.
Qed.

(** C4: a contact with a new NodeID is accepted and appended at the
    most-recently-seen end while fewer than K = 20 contacts are held; when
    the bucket is full it is rejected and the bucket is left as it was; a
    NodeID already present is accepted also then; and no sequence of
    bucket operations takes the size above K. *)
Theorem KBucket_AddContact_capacity (now : Z) (kb : KBucket) (c : Contact) :
  (~ has_ID (ID c) (contacts kb) -> KBucket_Size kb < K ->
     fst (KBucket_AddContact now kb c) = true /\
     contacts (snd (KBucket_AddContact now kb c)) = contacts kb ++ [c]) /\
  (~ has_ID (ID c) (contacts kb) -> KBucket_Size kb = K ->
     KBucket_AddContact now kb c = (false, kb)) /\
  (has_ID (ID c) (contacts kb) -> fst (KBucket_AddContact now kb c) = true) /\
  (forall ops, KBucket_Size kb <= K -> KBucket_Size (bucket_run ops kb) <= K) /\
  (forall ops t, KBucket_Size (bucket_run ops (NewKBucket t)) <= K).
Proof.
  unfold KBucket_AddContact, KBucket_Size. repeat split.
  - apply refresh_None in H. rewrite H.
    destruct (Z.ltb_spec (len (contacts kb)) K); [reflexivity|lia].
  - apply refresh_None in H. rewrite H.
    destruct (Z.ltb_spec (len (contacts kb)) K); [reflexivity|lia].
  - intros N F. apply refresh_None in N. rewrite N.
    destruct (Z.ltb_spec (len (contacts kb)) K); [lia|reflexivity].
  - intros P. destruct (refresh_present c _ P) as (l' & ->). reflexivity.
  - intros ops H. apply bucket_run_size. assumption.
  - intros ops t. apply bucket_run_size. unfold KBucket_Size, K, len. simpl. lia.
Qed.

Lemma KBucket_AddContact_capacity_witness :
  KBucket_AddContact 5 full_bucket (contact_of (id_of_last_byte 21) "10.0.0.2:4000" 5)
    = (false, full_bucket) /\
  fst (KBucket_AddContact 5 full_bucket (contact_of (id_of_last_byte 20) "10.0.0.2:4000" 5))
    = true /\
  KBucket_Size (bucket_run [BAddContact 1 (contact_of (id_of_last_byte 1) "a" 1); BSize]
                  full_bucket) <= K.
Proof.
  pose proof (KBucket_AddContact_capacity 5 full_bucket
                (contact_of (id_of_last_byte 21) "10.0.0.2:4000" 5)) as (_ & R & _ & S & _).
  pose proof (KBucket_AddContact_capacity 5 full_bucket
                (contact_of (id_of_last_byte 20) "10.0.0.2:4000" 5)) as (_ & _ & A & _).
  split; [|split].
  - apply R; [|reflexivity]. apply refresh_None. reflexivity.
  - apply A. exists (contact_of (id_of_last_byte 20) "10.0.0.1:4000" 0).
    split; [|reflexivity]. cbn. tauto.
  - apply S. vm_compute. discriminate.
Defined.

Lemma KBucket_AddContact_present now kb c :
  has_ID (ID c) (contacts kb) ->
  exists l1 old l2,
    contacts kb = l1 ++ old :: l2 /\ ID old = ID c /\ ~ has_ID (ID c) l1 /\
    KBucket_AddContact now kb c =
      (true, {| contacts := l1 ++ l2 ++ [c]; lastSeen := now;
                range_min := range_min kb; range_max := range_max kb |}).
Proof.
  intros P. destruct (refresh_present c _ P) as (l' & E).
  destruct (refresh_Some _ _ _ E) as (l1 & old & l2 & E1 & Eo & N & ->).
  exists l1, old, l2. repeat split; try assumption.
  unfold KBucket_AddContact. rewrite E. reflexivity.
Qed.




(** C10: when the NodeID of [c] is already in the bucket, the stored
    element is replaced by [c] as a whole: the first entry with that
    NodeID is taken out, [c] is put at the back, the other entries stay
    as they were and in their order, the size is unchanged, and, in a
    bucket without duplicate NodeIDs, the entry found under that NodeID
    afterwards carries the Address and LastSeen of [c]. *)
Theorem KBucket_AddContact_replaces (now : Z) (kb : KBucket) (c : Contact) :
  has_ID (ID c) (contacts kb) ->
  exists l1 old l2,
    contacts kb = l1 ++ old :: l2 /\ ID old = ID c /\ ~ has_ID (ID c) l1 /\
    KBucket_AddContact now kb c =
      (true, {| contacts := l1 ++ l2 ++ [c]; lastSeen := now;
                range_min := range_min kb; range_max := range_max kb |}) /\
    KBucket_Size (snd (KBucket_AddContact now kb c)) = KBucket_Size kb /\
    (NoDup (map ID (contacts kb)) ->
       forall e, In e (contacts (snd (KBucket_AddContact now kb c))) ->
                 ID e = ID c ->
                 e = c /\ Address e = Address c /\ LastSeen e = LastSeen c).
Proof.
  intros P.
  destruct (KBucket_AddContact_present now kb c P) as (l1 & old & l2 & E & Eo & N & R).
  exists l1, old, l2. repeat split; try assumption.
  - rewrite R. unfold KBucket_Size, len. cbn [snd contacts]. rewrite E.
    repeat (rewrite ?length_app; cbn [length]). lia.
  - rewrite R in H0. cbn [snd contacts] in H0.
    rewrite app_assoc, in_app_iff in H0. destruct H0 as [Hin|[<-|[]]]; [|reflexivity].
    exfalso. rewrite E, map_app in H. cbn [map] in H. apply NoDup_remove_2 in H.
    apply H. rewrite <- map_app, Eo, <- H1. apply in_map. assumption.
  - rewrite R in H0. cbn [snd contacts] in H0.
    rewrite app_assoc, in_app_iff in H0. destruct H0 as [Hin|[<-|[]]]; [|reflexivity].
    exfalso. rewrite E, map_app in H. cbn [map] in H. apply NoDup_remove_2 in H.
    apply H. rewrite <- map_app, Eo, <- H1. apply in_map. assumption.
  - rewrite R in H0. cbn [snd contacts] in H0.
    rewrite app_assoc, in_app_iff in H0. destruct H0 as [Hin|[<-|[]]]; [|reflexivity].
    exfalso. rewrite E, map_app in H. cbn [map] in H. apply NoDup_remove_2 in H.
    apply H. rewrite <- map_app, Eo, <- H1. apply in_map. assumption.
Qed.

Lemma KBucket_AddContact_replaces_witness :
  let c := contact_of (id_of_last_byte 1) "192.168.7.7:9000" 30 in
  contacts (snd (KBucket_AddContact 30 two_bucket c)) =
    [contact_of (id_of_last_byte 2) "10.0.0.2:4000" 11; c] /\
  exists l1 old l2,
    contacts two_bucket = l1 ++ old :: l2 /\ ID old = ID c /\ ~ has_ID (ID c) l1 /\
    KBucket_AddContact 30 two_bucket c =
      (true, {| contacts := l1 ++ l2 ++ [c]; lastSeen := 30;
                range_min := range_min two_bucket; range_max := range_max two_bucket |}) /\
    KBucket_Size (snd (KBucket_AddContact 30 two_bucket c)) = KBucket_Size two_bucket /\
    (NoDup (map ID (contacts two_bucket)) ->
       forall e, In e (contacts (snd (KBucket_AddContact 30 two_bucket c))) ->
                 ID e = ID c ->
                 e = c /\ Address e = Address c /\ LastSeen e = LastSeen c).
Proof.
  split; [reflexivity|].
  apply (KBucket_AddContact_replaces 30 two_bucket
           (contact_of (id_of_last_byte 1) "192.168.7.7:9000" 30)).
  exists (contact_of (id_of_last_byte 1) "10.0.0.1:4000" 10).
  split; [left; reflexivity | reflexivity].
Defined.

(** ** The routing table *)

Lemma nth_error_set_nth {A} (l : list A) n m v :
  nth_error (set_nth l n v) m =
  if (Nat.eqb m n && Nat.ltb n (length l))%bool then Some v else nth_error l m.
Proof.
  revert n m. induction l as [|a l IH]; intros [|n] [|m]; simpl; try reflexivity.
  - rewrite andb_false_r. reflexivity.
  - rewrite IH. change (Nat.ltb (S n) (S (length l))) with (Nat.ltb n (length l)).
    reflexivity.
Qed.

Lemma index_nth_error {A} (l : list A) i :
  0 <= i < len l ->
  exists a, index l i = Ok a /\ nth_error l (Z.to_nat i) = Some a.
Proof.
  intros Hi. unfold index.
  destruct (Z.leb_spec 0 i); [|lia]. destruct (Z.ltb_spec i (len l)); [|lia].
  cbn [andb]. destruct (nth_error l (Z.to_nat i)) as [a|] eqn:E.
  - exists a. split; reflexivity.
  - apply nth_error_None in E. unfold len in *. lia.
Qed.

Lemma table_inv_new clock L : wf_NodeID L -> table_inv (NewRoutingTable clock L).
Proof.
  intros HL. split; [assumption|]. split.
  - cbn [NewRoutingTable buckets]. rewrite length_map, length_seq. reflexivity.
  - intros i kb E. cbn [NewRoutingTable buckets] in E.
    rewrite nth_error_map, nth_error_seq in E.
    destruct (Nat.ltb i 160); [|discriminate]. injection E as <-.
    split; [constructor|]. intros c [].
Qed.

Lemma table_inv_add now rt c :
  table_inv rt -> wf_NodeID (ID c) ->
  exists rt', RoutingTable_AddContact now rt c = Ok rt' /\
              localID rt' = localID rt /\ table_inv rt'.
Proof.
  intros (HL & Len & Inv) Hc. unfold RoutingTable_AddContact.
  pose proof (getBucketIndex_range _ _ HL Hc) as R.
  set (b := getBucketIndex (localID rt) (ID c)) in *.
  assert (Rb : 0 <= b < len (buckets rt)) by (unfold len; rewrite Len; lia).
  destruct (index_nth_error _ _ Rb) as (kb & -> & Ekb). cbn [bind].
  unfold store. destruct (Z.leb_spec 0 b); [|lia].
  destruct (Z.ltb_spec b (len (buckets rt))); [|lia]. cbn [andb bind].
  eexists. split; [reflexivity|]. split; [reflexivity|].
  split; [assumption|]. cbn [buckets localID].
  split; [rewrite length_set_nth; assumption|].
  intros i kb' E. rewrite nth_error_set_nth in E.
  assert (Hlt : Nat.ltb (Z.to_nat b) (length (buckets rt)) = true)
    by (apply Nat.ltb_lt; lia).
  rewrite Hlt, andb_true_r in E.
  destruct (Nat.eqb_spec i (Z.to_nat b)) as [->|Ne]; [|apply Inv; assumption].
  injection E as <-. destruct (Inv _ _ Ekb) as [ND Hin]. split.
  - apply KBucket_AddContact_NoDup. assumption.
  - intros e He. apply KBucket_AddContact_In in He. destruct He as [He| ->].
    + apply Hin. assumption.
    + split; [assumption|]. fold b. lia.
Qed.

Lemma in_all_contacts rt c :
  In c (all_contacts rt) <->
  exists i kb, nth_error (buckets rt) i = Some kb /\ In c (contacts kb).
Proof.
  unfold all_contacts. rewrite in_concat. split.
  - intros (l & Hl & Hc). apply in_map_iff in Hl. destruct Hl as (kb & <- & Hkb).
    apply In_nth_error in Hkb. destruct Hkb as (i & Hi). exists i, kb. tauto.
  - intros (i & kb & E & Hc). exists (contacts kb). split; [|assumption].
    apply in_map. eapply nth_error_In. eassumption.
Qed.

Lemma table_inv_contact rt c :
  table_inv rt -> In c (all_contacts rt) -> wf_NodeID (ID c).
Proof.
  intros (_ & _ & Inv) H. apply in_all_contacts in H.
  destruct H as (i & kb & E & Hc). apply (Inv _ _ E). assumption.
Qed.

(** ** sort.Slice *)

Section SortSlice.
Context {A : Type} (less : A -> A -> bool) (f : A -> Z) (P : A -> Prop).
Hypothesis less_spec :
  forall a b, P a -> P b -> (less a b = true <-> f a < f b).

Lemma insert_sorted_perm x l : Permutation (insert_sorted less x l) (x :: l).
Proof.
  induction l as [|y r IH]; cbn [insert_sorted]; [reflexivity|].
  destruct (less x y); [reflexivity|].
  rewrite IH. apply perm_swap.
Qed.

Lemma sort_Slice_fold_perm l : forall acc,
  Permutation (fold_left (fun acc x => insert_sorted less x acc) l acc) (l ++ acc).
Proof.
  induction l as [|x l IH]; intros acc; cbn [fold_left app]; [reflexivity|].
  rewrite IH, insert_sorted_perm. symmetry. apply Permutation_middle.
Qed.

Lemma sort_Slice_perm l : Permutation (sort_Slice less l) l.
Proof. unfold sort_Slice. rewrite sort_Slice_fold_perm, app_nil_r. reflexivity. Qed.

Lemma insert_sorted_sorted x l :
  P x -> Forall P l -> StronglySorted (key_le f) l ->
  StronglySorted (key_le f) (insert_sorted less x l).
Proof.
  intros Px. induction l as [|y r IH]; cbn [insert_sorted]; intros Pl S.
  - constructor; constructor.
  - apply Forall_cons_iff in Pl. destruct Pl as [Py Pr].
    apply StronglySorted_inv in S. destruct S as [Sr Fy].
    destruct (less x y) eqn:E.
    + apply (less_spec x y Px Py) in E.
      constructor; [constructor; assumption|].
      constructor; [unfold key_le; lia|].
      rewrite Forall_forall in *. intros z Hz. specialize (Fy z Hz).
      unfold key_le in *. lia.
    + constructor; [apply IH; assumption|].
      rewrite Forall_forall in *. intros z Hz.
      apply (Permutation_in _ (insert_sorted_perm x r)) in Hz.
      destruct Hz as [<-|Hz]; [|apply Fy; assumption].
      unfold key_le. destruct (Z.lt_ge_cases (f x) (f y)) as [Hlt|Hge]; [|lia].
      apply (less_spec x y Px Py) in Hlt. congruence.
Qed.

Lemma sort_Slice_sorted l :
  Forall P l -> StronglySorted (key_le f) (sort_Slice less l).
Proof.
  unfold sort_Slice.
  assert (G : forall acc,
            Forall P acc -> Forall P l -> StronglySorted (key_le f) acc ->
            StronglySorted (key_le f)
              (fold_left (fun acc x => insert_sorted less x acc) l acc)).
  { induction l as [|x l IH]; intros acc Pa Pl S; cbn [fold_left]; [assumption|].
    apply Forall_cons_iff in Pl. destruct Pl as [Px Pl].
    apply IH; [|assumption|apply insert_sorted_sorted; assumption].
    rewrite Forall_forall in *. intros z Hz.
    apply (Permutation_in _ (insert_sorted_perm x acc)) in Hz.
    destruct Hz as [<-|Hz]; auto. }
  intros Pl. apply G; [constructor|assumption|constructor].
Qed.
End SortSlice.

Lemma StronglySorted_impl {A} (R R' : A -> A -> Prop) (P : A -> Prop) l :
  (forall x y, P x -> P y -> R x y -> R' x y) ->
  Forall P l -> StronglySorted R l -> StronglySorted R' l.
Proof.
  intros HR Pl S. induction S as [|a l S IH F]; [constructor|].
  apply Forall_cons_iff in Pl. destruct Pl as [Pa Pl].
  constructor; [apply IH; assumption|].
  rewrite Forall_forall in *. intros y Hy. apply HR; auto.
Qed.

(** ** GetClosestContacts *)

Lemma RoutingTable_Size_all rt : RoutingTable_Size rt = len (all_contacts rt).
Proof.
  unfold RoutingTable_Size, all_contacts.
  assert (G : forall bs a,
            fold_left (fun total bucket => total + KBucket_Size bucket) bs a
            = a + len (concat (map contacts bs))).
  { induction bs as [|b bs IH]; intros a; cbn [fold_left map concat].
    - unfold len. simpl. lia.
    - rewrite IH, len_app. unfold KBucket_Size. lia. }
  rewrite G. lia.
Qed.

Lemma all_contacts_NoDup rt : table_inv rt -> NoDup (map ID (all_contacts rt)).
Proof.
  intros (_ & _ & Inv). unfold all_contacts.
  set (L := localID rt) in *.
  assert (G : forall bs off,
            (forall i kb, nth_error bs i = Some kb ->
               NoDup (map ID (contacts kb)) /\
               forall c, In c (contacts kb) ->
                 getBucketIndex L (ID c) = Z.of_nat (off + i)) ->
            NoDup (map ID (concat (map contacts bs)))).
  { induction bs as [|b bs IH]; intros off H; cbn [map concat]; [constructor|].
    rewrite map_app. apply NoDup_app.
    - apply (H 0%nat b eq_refl).
    - apply (IH (S off)). intros i kb E. destruct (H (S i) kb E) as [ND Hin].
      split; [assumption|]. intros c Hc. rewrite (Hin c Hc). lia.
    - intros a Ha Hb. apply in_map_iff in Ha. destruct Ha as (x & <- & Hx).
      apply in_map_iff in Hb. destruct Hb as (y & Ey & Hy).
      apply in_concat in Hy. destruct Hy as (l & Hl & Hyl).
      apply in_map_iff in Hl. destruct Hl as (kb & <- & Hkb).
      apply In_nth_error in Hkb. destruct Hkb as (i & Hi).
      pose proof (proj2 (H 0%nat b eq_refl) x Hx) as E1.
      pose proof (proj2 (H (S i) kb Hi) y Hyl) as E2.
      rewrite Ey in E2. lia. }
  apply (G _ 0%nat). intros i kb E. destruct (Inv i kb E) as [ND Hin].
  split; [assumption|]. intros c Hc. apply Hin. assumption.
Qed.

Lemma pool_inv_widen rt lo hi lo' hi' count acc :
  lo' <= lo -> hi <= hi' -> pool_inv rt lo hi count acc -> pool_inv rt lo' hi' count acc.
Proof.
  intros Hlo Hhi (L & ND & H). repeat split; try assumption; destruct (H c H0); try lia.
  assumption.
Qed.

Lemma take_bucket rt k kb lo hi count acc :
  table_inv rt -> 0 <= k ->
  nth_error (buckets rt) (Z.to_nat k) = Some kb ->
  pool_inv rt lo hi count acc -> (k <= lo \/ hi <= k) -> len acc <= count ->
  exists cs, KBucket_GetContacts kb (count - len acc) = Ok cs /\
             pool_inv rt (Z.min lo (k - 1)) (Z.max hi (k + 1)) count (acc ++ cs).
Proof.
  intros (HL & Len & Inv) Hk E (La & ND & Hin) Out Hlt.
  destruct (Inv _ _ E) as [NDk Hk_in].
  unfold KBucket_GetContacts.
  set (n := if count - len acc >? len (contacts kb) then len (contacts kb)
            else count - len acc).
  pose proof (len_nonneg (contacts kb)) as Hc0.
  assert (Hn : 0 <= n <= count - len acc)
    by (unfold n; destruct (Z.gtb_spec (count - len acc) (len (contacts kb))); lia).
  destruct (Z.ltb_spec n 0); [lia|].
  eexists. split; [reflexivity|].
  set (cs := firstn (Z.to_nat n) (contacts kb)).
  assert (Hsub : forall c, In c cs -> In c (contacts kb)).
  { intros c Hc. rewrite <- (firstn_skipn (Z.to_nat n) (contacts kb)).
    apply in_or_app. left. assumption. }
  split; [|split].
  - rewrite len_app. unfold len at 2. unfold cs.
    pose proof (firstn_le_length (Z.to_nat n) (contacts kb)). lia.
  - rewrite map_app. apply NoDup_app.
    + assumption.
    + unfold cs. rewrite <- firstn_map.
      rewrite <- (firstn_skipn (Z.to_nat n) (map ID (contacts kb))) in NDk.
      apply NoDup_app_remove_r in NDk. assumption.
    + intros a Ha Hb. apply in_map_iff in Ha. destruct Ha as (x & <- & Hx).
      apply in_map_iff in Hb. destruct Hb as (y & Ey & Hy).
      destruct (Hin x Hx) as [_ Rx].
      destruct (Hk_in y (Hsub y Hy)) as [_ Ry]. rewrite Ey in Ry. lia.
  - intros c Hc. apply in_app_iff in Hc. destruct Hc as [Hc|Hc].
    + destruct (Hin c Hc). split; [assumption|lia].
    + destruct (Hk_in c (Hsub c Hc)) as [_ Rc]. split; [|lia].
      apply in_all_contacts. exists (Z.to_nat k), kb. split; [assumption|].
      apply Hsub. assumption.
Qed.

Lemma closest_loop_ok rt b count :
  table_inv rt -> 0 <= b < 160 ->
  forall fuel i acc,
    1 <= i -> 161 <= i + Z.of_nat fuel ->
    pool_inv rt (b - i) (b + i) count acc ->
    exists out, closest_loop fuel rt b count i acc = Ok out /\
                exists lo hi, pool_inv rt lo hi count out.
Proof.
  intros Inv Hb. pose proof Inv as (HL & Len & _).
  assert (Hlen : len (buckets rt) = 160) by (unfold len; rewrite Len; reflexivity).
  induction fuel as [|fuel IH]; intros i acc Hi Hfuel Hp.
  - cbn [closest_loop]. rewrite Z.geb_leb.
    destruct (Z.ltb_spec (len acc) count); cbn [andb];
      [|exists acc; split; [reflexivity|eauto]].
    destruct (Z.leb_spec 0 (b - i)); [lia|].
    destruct (Z.ltb_spec (b + i) 160); [lia|].
    cbn [orb]. exists acc. split; [reflexivity|eauto].
  - cbn [closest_loop]. rewrite Z.geb_leb.
    destruct (Z.ltb_spec (len acc) count) as [Hacc|Hacc]; cbn [andb];
      [|exists acc; split; [reflexivity|eauto]].
    destruct ((0 <=? b - i) || (b + i <? 160)) eqn:Hcond;
      [|exists acc; split; [reflexivity|eauto]].
    (* bucket to the left *)
    assert (S1 : exists acc1,
               (if 0 <=? b - i
                then kb <- index (buckets rt) (b - i) ;;
                     cs <- KBucket_GetContacts kb (count - len acc) ;;
                     Ok (acc ++ cs)
                else Ok acc) = Ok acc1 /\
               pool_inv rt (b - i - 1) (b + i) count acc1).
    { destruct (Z.leb_spec 0 (b - i)) as [Hl|Hl].
      - destruct (index_nth_error (buckets rt) (b - i) ltac:(lia)) as (kb & -> & Ekb).
        cbn [bind].
        destruct (take_bucket rt (b - i) kb (b - i) (b + i) count acc Inv Hl Ekb Hp
                    ltac:(lia) ltac:(lia)) as (cs & -> & Hp1).
        cbn [bind]. exists (acc ++ cs). split; [reflexivity|].
        eapply pool_inv_widen; [| |exact Hp1]; lia.
      - exists acc. split; [reflexivity|].
        eapply pool_inv_widen; [| |exact Hp]; lia. }
    destruct S1 as (acc1 & -> & Hp1). cbn [bind].
    (* bucket to the right *)
    assert (S2 : exists acc2,
               (if (b + i <? 160) && (len acc1 <? count)
                then kb <- index (buckets rt) (b + i) ;;
                     cs <- KBucket_GetContacts kb (count - len acc1) ;;
                     Ok (acc1 ++ cs)
                else Ok acc1) = Ok acc2 /\
               pool_inv rt (b - (i + 1)) (b + (i + 1)) count acc2).
    { destruct (Z.ltb_spec (b + i) 160) as [Hr|Hr]; cbn [andb].
      - destruct (Z.ltb_spec (len acc1) count) as [Hc|Hc].
        + destruct (index_nth_error (buckets rt) (b + i) ltac:(lia)) as (kb & -> & Ekb).
          cbn [bind].
          destruct (take_bucket rt (b + i) kb (b - i - 1) (b + i) count acc1 Inv
                      ltac:(lia) Ekb Hp1 ltac:(lia) ltac:(lia)) as (cs & -> & Hp2).
          cbn [bind]. exists (acc1 ++ cs). split; [reflexivity|].
          eapply pool_inv_widen; [| |exact Hp2]; lia.
        + exists acc1. split; [reflexivity|].
          eapply pool_inv_widen; [| |exact Hp1]; lia.
      - exists acc1. split; [reflexivity|].
        eapply pool_inv_widen; [| |exact Hp1]; lia. }
    destruct S2 as (acc2 & -> & Hp2). cbn [bind].
    apply IH; [lia|lia|assumption].
Qed.

Lemma GetClosestContacts_pool rt target count :
  table_inv rt -> wf_NodeID target -> 0 <= count ->
  exists pool lo hi,
    GetClosestContacts rt target count = Ok (sort_Slice (closer target) pool) /\
    pool_inv rt lo hi count pool.
Proof.
  intros Inv Ht Hc. pose proof Inv as (HL & Len & _).
  assert (Hlen : len (buckets rt) = 160) by (unfold len; rewrite Len; reflexivity).
  unfold GetClosestContacts.
  pose proof (getBucketIndex_range _ _ HL Ht) as Hb.
  set (b := getBucketIndex (localID rt) target) in *.
  destruct (index_nth_error (buckets rt) b ltac:(lia)) as (kb & -> & Ekb). cbn [bind].
  assert (P0 : pool_inv rt b b count []).
  { split; [unfold len; simpl; lia|]. split; [constructor|]. intros c []. }
  destruct (take_bucket rt b kb b b count [] Inv ltac:(lia) Ekb P0 ltac:(lia)
              ltac:(unfold len; simpl; lia)) as (first & E & P1).
  change (len (@nil Contact)) with 0 in E. rewrite Z.sub_0_r in E. rewrite E.
  cbn [bind app] in *.
  destruct (closest_loop_ok rt b count Inv Hb 160 1 first ltac:(lia) ltac:(lia))
    as (pool & -> & lo & hi & Pp).
  { eapply pool_inv_widen; [| |exact P1]; lia. }
  cbn [bind]. exists pool, lo, hi. split; [|assumption].
  destruct Pp as (Lp & _).
  assert (Es : len (sort_Slice (closer target) pool) = len pool).
  { unfold len. f_equal. apply Permutation_length.
    apply (sort_Slice_perm (closer target)). }
  rewrite Es. destruct (Z.gtb_spec (len pool) count); [lia|reflexivity].
Qed.

Lemma GetClosestContacts_spec rt target count :
  table_inv rt -> wf_NodeID target -> 0 <= count ->
  exists out,
    GetClosestContacts rt target count = Ok out /\
    StronglySorted
      (fun x y => toZ (Distance (ID x) target) <= toZ (Distance (ID y) target)) out /\
    NoDup (map ID out) /\
    (forall c, In c out -> In c (all_contacts rt)) /\
    len out <= Z.min count (RoutingTable_Size rt).
Proof.
  intros Inv Ht Hc.
  destruct (GetClosestContacts_pool rt target count Inv Ht Hc)
    as (pool & lo & hi & E & Lp & ND & Hin).
  pose proof (sort_Slice_perm (closer target) pool) as Perm.
  exists (sort_Slice (closer target) pool). split; [assumption|].
  assert (Hall : forall c, In c (sort_Slice (closer target) pool) ->
                           In c (all_contacts rt)).
  { intros c H. apply (Permutation_in _ Perm) in H. apply Hin. assumption. }
  assert (NDs : NoDup (map ID (sort_Slice (closer target) pool))).
  { apply (Permutation_NoDup (l := map ID pool)); [|assumption].
    apply Permutation_map. symmetry. assumption. }
  split; [|split; [assumption|split; [assumption|]]].
  - apply (sort_Slice_sorted (closer target)
             (fun c => toZ (Distance (ID c) target)) (fun c => wf_NodeID (ID c))).
    + intros a b' Pa Pb. apply closer_toZ; assumption.
    + apply Forall_forall. intros c H. apply (table_inv_contact rt); [assumption|].
      apply Hin. assumption.
  - assert (L1 : len (sort_Slice (closer target) pool) = len pool)
      by (unfold len; f_equal; apply Permutation_length; assumption).
    assert (L2 : (length (map ID (sort_Slice (closer target) pool))
                  <= length (map ID (all_contacts rt)))%nat).
    { apply NoDup_incl_length; [assumption|]. intros a Ha.
      apply in_map_iff in Ha. destruct Ha as (x & <- & Hx).
      apply in_map. apply Hall. assumption. }
    rewrite !length_map in L2. rewrite RoutingTable_Size_all. unfold len in *. lia.
Qed.

(** ** Sequences of table operations *)

Lemma table_step_inv rt op :
  table_inv rt -> wf_table_op op ->
  exists rt', table_step rt op = Ok rt' /\ localID rt' = localID rt /\ table_inv rt'.
Proof.
  intros Inv W. destruct op as [now c|target count]; cbn [table_step wf_table_op] in *.
  - apply table_inv_add; assumption.
  - destruct W as [Wt Wc].
    destruct (GetClosestContacts_spec rt target count Inv Wt Wc) as (out & -> & _).
    cbn [bind]. exists rt. split; [reflexivity|]. split; [reflexivity|assumption].
Qed.

Lemma table_run_inv ops : forall rt,
  table_inv rt -> Forall wf_table_op ops ->
  exists rt', table_run ops rt = Ok rt' /\ localID rt' = localID rt /\ table_inv rt'.
Proof.
  induction ops as [|op ops IH]; intros rt Inv W; cbn [table_run].
  - exists rt. split; [reflexivity|]. split; [reflexivity|assumption].
  - apply Forall_cons_iff in W. destruct W as [Wop Wops].
    destruct (table_step_inv rt op Inv Wop) as (rt1 & -> & EL & Inv1). cbn [bind].
    destruct (IH rt1 Inv1 Wops) as (rt' & E & EL' & Inv'). exists rt'.
    split; [assumption|]. split; [congruence|assumption].
Qed.

Lemma reachable_inv rt : reachable rt -> table_inv rt.
Proof.
  intros (clock & L & ops & HL & W & E).
  destruct (table_run_inv ops _ (table_inv_new clock L HL) W) as (rt' & E' & _ & Inv).
  congruence.
Qed.

(** C3 (as the code has it): every sequence of AddContact and
    GetClosestContacts operations on a fresh table runs to completion, and
    afterwards every contact held in bucket [i] is routed there by
    getBucketIndex: either its NodeID differs from the local one and the
    distance has its highest set bit at position [i] (the first [i] bits
    agree with the local ID and bit [i] differs), or it is the local
    NodeID itself, held in bucket 159. *)
Theorem RoutingTable_bucket_invariant
    (clock : nat -> Z) (L : NodeID) (ops : list table_op) :
  wf_NodeID L -> Forall wf_table_op ops ->
  exists rt,
    table_run ops (NewRoutingTable clock L) = Ok rt /\
    forall i kb c,
      nth_error (buckets rt) i = Some kb -> In c (contacts kb) ->
      getBucketIndex L (ID c) = Z.of_nat i /\
      (ID c <> L ->
         highest_set_bit (Distance L (ID c)) (Z.of_nat i) /\
         first_difference L (ID c) (Z.of_nat i)) /\
      (ID c = L -> i = 159%nat).
Proof.
  intros HL W.
  destruct (table_run_inv ops _ (table_inv_new clock L HL) W) as (rt & E & EL & Inv).
  exists rt. split; [assumption|]. intros i kb c Ei Hc.
  destruct Inv as (_ & _ & Inv). destruct (Inv i kb Ei) as [_ Hin].
  destruct (Hin c Hc) as [Wc G]. rewrite EL in G. cbn [NewRoutingTable localID] in G.
  split; [assumption|]. split.
  - intros Hne. rewrite <- G. split.
    + apply getBucketIndex_highest; assumption.
    + apply highest_set_bit_first_difference.
      * destruct HL as [-> _], Wc as [-> _]. reflexivity.
      * apply getBucketIndex_highest; assumption.
  - intros Eq. rewrite Eq, getBucketIndex_self in G by assumption. lia.
Qed.

Lemma sample_ops_wf : Forall wf_table_op sample_ops.
Proof.
  unfold sample_ops. repeat apply Forall_cons; try apply Forall_nil;
    cbn [wf_table_op]; repeat split; try reflexivity; lia.
Qed.

Lemma RoutingTable_bucket_invariant_witness :
  exists rt,
    table_run sample_ops (NewRoutingTable clock0 zeroID) = Ok rt /\
    forall i kb c,
      nth_error (buckets rt) i = Some kb -> In c (contacts kb) ->
      getBucketIndex zeroID (ID c) = Z.of_nat i /\
      (ID c <> zeroID ->
         highest_set_bit (Distance zeroID (ID c)) (Z.of_nat i) /\
         first_difference zeroID (ID c) (Z.of_nat i)) /\
      (ID c = zeroID -> i = 159%nat).
Proof.
  apply (RoutingTable_bucket_invariant clock0 zeroID sample_ops).
  - split; reflexivity.
  - exact sample_ops_wf.
Defined.

(** C3 as stated fails: a contact carrying the local NodeID is accepted
    into bucket 159, and its distance to the local ID is zero, so it has
    no set bit at position 159 (nor anywhere). *)
Lemma bucket_invariant_fails_for_local_ID :
  let self := contact_of zeroID "127.0.0.1:4000" 1 in
  exists rt kb,
    table_run [TAddContact 1 self] (NewRoutingTable clock0 zeroID) = Ok rt /\
    nth_error (buckets rt) 159 = Some kb /\
    In self (contacts kb) /\
    ~ highest_set_bit (Distance zeroID (ID self)) 159 /\
    ~ first_difference zeroID (ID self) 159.
Proof.
  intros self. eexists. eexists.
  split; [vm_compute; reflexivity|].
  split; [vm_compute; reflexivity|].
  split; [left; reflexivity|].
  split.
  - intros (_ & T & _). vm_compute in T. discriminate.
  - intros (_ & T & _). apply T. reflexivity.
Qed.

(** C1: on every table the program can build, for every 20-byte target
    and every count n >= 0, GetClosestContacts returns a list sorted by
    non-decreasing XOR distance to the target (the order of [lessThan],
    which is the order of the distances read as unsigned big-endian
    integers), without two contacts of the same NodeID, of length at most
    min(n, Size()). *)
Theorem GetClosestContacts_sorted_nodup_bounded
    (rt : RoutingTable) (target : NodeID) (n : Z) :
  reachable rt -> wf_NodeID target -> 0 <= n ->
  exists out,
    GetClosestContacts rt target n = Ok out /\
    StronglySorted (dist_le target) out /\
    StronglySorted
      (fun x y => toZ (Distance (ID x) target) <= toZ (Distance (ID y) target)) out /\
    NoDup (map ID out) /\
    len out <= Z.min n (RoutingTable_Size rt).
Proof.
  intros R Ht Hn. pose proof (reachable_inv rt R) as Inv.
  destruct (GetClosestContacts_spec rt target n Inv Ht Hn)
    as (out & E & S & ND & Hall & B).
  exists out. split; [assumption|]. split; [|split; [assumption|split; assumption]].
  apply (StronglySorted_impl
           (fun x y => toZ (Distance (ID x) target) <= toZ (Distance (ID y) target))
           (dist_le target) (fun c => wf_NodeID (ID c)) out).
  - intros x y Px Py H. apply dist_le_toZ; assumption.
  - apply Forall_forall. intros c Hc. apply (table_inv_contact rt); auto.
  - exact S.
Qed.

Lemma sample_table_reachable : reachable sample_table.
Proof.
  exists clock0, zeroID, sample_ops.
  split; [split; reflexivity|]. split; [exact sample_ops_wf|].
  vm_compute. reflexivity.
Qed.

Lemma GetClosestContacts_sorted_nodup_bounded_witness :
  GetClosestContacts sample_table (id_of_first_byte 65) 2 =
    Ok [contact_of (id_of_first_byte 64) "10.0.0.3:4000" 3;
        contact_of (id_of_first_byte 128) "10.0.0.9:4000" 4] /\
  exists out,
    GetClosestContacts sample_table (id_of_first_byte 65) 2 = Ok out /\
    StronglySorted (dist_le (id_of_first_byte 65)) out /\
    StronglySorted
      (fun x y => toZ (Distance (ID x) (id_of_first_byte 65))
                  <= toZ (Distance (ID y) (id_of_first_byte 65))) out /\
    NoDup (map ID out) /\
    len out <= Z.min 2 (RoutingTable_Size sample_table).
Proof.
  split; [vm_compute; reflexivity|].
  apply (GetClosestContacts_sorted_nodup_bounded sample_table (id_of_first_byte 65) 2).
  - exact sample_table_reachable.
  - split; reflexivity.
  - lia.
Defined.

(** ** An empty answer means an empty table *)

Lemma bind_Ok {A B} (r : result A) (k : A -> result B) b :
  bind r k = Ok b -> exists a, r = Ok a /\ k a = Ok b.
Proof. destruct r as [a| |]; cbn [bind]; intros H; [eauto|discriminate..]. Qed.

Lemma KBucket_GetContacts_nil kb count :
  0 < count -> KBucket_GetContacts kb count = Ok [] -> contacts kb = [].
Proof.
  unfold KBucket_GetContacts. intros Hc.
  destruct (contacts kb) as [|c l]; [reflexivity|].
  rewrite len_cons. pose proof (len_nonneg l).
  destruct (Z.gtb_spec count (len l + 1)).
  - destruct (Z.ltb_spec (len l + 1) 0); [discriminate|].
    replace (Z.to_nat (len l + 1)) with (S (Z.to_nat (len l))) by lia.
    cbn [firstn]. discriminate.
  - destruct (Z.ltb_spec count 0); [discriminate|].
    replace (Z.to_nat count) with (S (Z.to_nat (count - 1))) by lia.
    cbn [firstn]. discriminate.
Qed.

Lemma closest_loop_prefix rt b count : forall fuel i acc out,
  closest_loop fuel rt b count i acc = Ok out -> exists rest, out = acc ++ rest.
Proof.
  induction fuel as [|fuel IH]; intros i acc out; cbn [closest_loop];
    destruct ((len acc <? count) && ((b - i >=? 0) || (b + i <? 160)));
    intros H; try discriminate;
    try (injection H as <-; exists []; rewrite app_nil_r; reflexivity).
  apply bind_Ok in H. destruct H as (acc1 & H1 & H).
  apply bind_Ok in H. destruct H as (acc2 & H2 & H).
  apply IH in H. destruct H as (r3 & ->).
  assert (P1 : exists r1, acc1 = acc ++ r1).
  { destruct (b - i >=? 0).
    - apply bind_Ok in H1. destruct H1 as (kb & _ & H1).
      apply bind_Ok in H1. destruct H1 as (cs & _ & H1).
      injection H1 as <-. eauto.
    - injection H1 as <-. exists []. rewrite app_nil_r. reflexivity. }
  assert (P2 : exists r2, acc2 = acc1 ++ r2).
  { destruct ((b + i <? 160) && (len acc1 <? count)).
    - apply bind_Ok in H2. destruct H2 as (kb & _ & H2).
      apply bind_Ok in H2. destruct H2 as (cs & _ & H2).
      injection H2 as <-. eauto.
    - injection H2 as <-. exists []. rewrite app_nil_r. reflexivity. }
  destruct P1 as (r1 & ->), P2 as (r2 & ->).
  exists (r1 ++ r2 ++ r3). rewrite !app_assoc. reflexivity.
Qed.

Lemma index_Ok_nth_error {A} (l : list A) i a :
  index l i = Ok a -> 0 <= i /\ nth_error l (Z.to_nat i) = Some a.
Proof.
  unfold index. destruct (Z.leb_spec 0 i) as [Hi|Hi]; cbn [andb]; [|discriminate].
  destruct (i <? len l); [|discriminate].
  destruct (nth_error l (Z.to_nat i)); [|discriminate].
  intros H. injection H as ->. split; [assumption|reflexivity].
Qed.

Lemma closest_loop_empty rt b count :
  0 < count -> 0 <= b < 160 ->
  forall fuel i,
    1 <= i ->
    closest_loop fuel rt b count i [] = Ok [] ->
    forall k kb, 0 <= k < 160 -> (k <= b - i \/ b + i <= k) ->
                 nth_error (buckets rt) (Z.to_nat k) = Some kb -> contacts kb = [].
Proof.
  intros Hc Hb. induction fuel as [|fuel IH]; intros i Hi; cbn [closest_loop];
    change (len (@nil Contact)) with 0;
    (destruct (Z.ltb_spec 0 count) as [_|Hn]; [|lia]); cbn [andb]; rewrite Z.geb_leb;
    destruct (Z.leb_spec 0 (b - i)) as [Hl|Hl];
    destruct (Z.ltb_spec (b + i) 160) as [Hr|Hr]; cbn [orb];
    intros H k kb Hk Hside Ek; try discriminate; try lia.
  all: apply bind_Ok in H; destruct H as (acc1 & H1 & H);
       apply bind_Ok in H; destruct H as (acc2 & H2 & H);
       pose proof (closest_loop_prefix _ _ _ _ _ _ _ H) as (r3 & E3);
       symmetry in E3; apply app_eq_nil in E3; destruct E3 as [-> _].
  - (* both neighbours exist *)
    apply bind_Ok in H1. destruct H1 as (kbl & Il & H1).
    apply bind_Ok in H1. destruct H1 as (csl & Gl & H1).
    injection H1 as <-. cbn [app] in H2.
    rewrite Z.sub_0_r in Gl.
    destruct csl as [|x csl].
    + change (len (@nil Contact)) with 0 in H2.
      destruct (Z.ltb_spec 0 count) as [_|Hn]; [|lia]. cbn [andb] in H2.
      apply bind_Ok in H2. destruct H2 as (kbr & Ir & H2).
      apply bind_Ok in H2. destruct H2 as (csr & Gr & H2).
      injection H2 as E2. cbn [app] in E2. subst csr. rewrite Z.sub_0_r in Gr.
      apply index_Ok_nth_error in Il, Ir.
      destruct (Z.eq_dec k (b - i)) as [->|Nl].
      { apply (KBucket_GetContacts_nil kb count Hc). destruct Il as [_ Il]. congruence. }
      destruct (Z.eq_dec k (b + i)) as [->|Nr].
      { apply (KBucket_GetContacts_nil kb count Hc). destruct Ir as [_ Ir]. congruence. }
      apply (IH (i + 1) ltac:(lia) H k kb Hk ltac:(lia) Ek).
    + exfalso. cbn [andb] in H2. destruct (len (x :: csl) <? count).
      * apply bind_Ok in H2. destruct H2 as (kbr & _ & H2).
        apply bind_Ok in H2. destruct H2 as (csr & _ & H2). discriminate.
      * discriminate.
  - (* only the left neighbour exists *)
    apply bind_Ok in H1. destruct H1 as (kbl & Il & H1).
    apply bind_Ok in H1. destruct H1 as (csl & Gl & H1).
    injection H1 as <-. cbn [app] in H2. injection H2 as ->.
    rewrite Z.sub_0_r in Gl. apply index_Ok_nth_error in Il.
    destruct (Z.eq_dec k (b - i)) as [->|Nl].
    { apply (KBucket_GetContacts_nil kb count Hc). destruct Il as [_ Il]. congruence. }
    apply (IH (i + 1) ltac:(lia) H k kb Hk ltac:(lia) Ek).
  - (* only the right neighbour exists *)
    injection H1 as <-. change (len (@nil Contact)) with 0 in H2.
    destruct (Z.ltb_spec 0 count) as [_|Hn]; [|lia]. cbn [andb] in H2.
    apply bind_Ok in H2. destruct H2 as (kbr & Ir & H2).
    apply bind_Ok in H2. destruct H2 as (csr & Gr & H2).
    injection H2 as E2. cbn [app] in E2. subst csr. rewrite Z.sub_0_r in Gr.
    apply index_Ok_nth_error in Ir.
    destruct (Z.eq_dec k (b + i)) as [->|Nr].
    { apply (KBucket_GetContacts_nil kb count Hc). destruct Ir as [_ Ir]. congruence. }
    apply (IH (i + 1) ltac:(lia) H k kb Hk ltac:(lia) Ek).
Qed.

Lemma sort_Slice_nil {A} (less : A -> A -> bool) l : sort_Slice less l = [] -> l = [].
Proof.
  intros E. pose proof (sort_Slice_perm less l) as P. rewrite E in P.
  apply Permutation_nil in P. assumption.
Qed.

Lemma GetClosestContacts_empty rt target count :
  table_inv rt -> wf_NodeID target -> 0 < count ->
  (GetClosestContacts rt target count = Ok [] <-> RoutingTable_Size rt = 0).
Proof.
  intros Inv Ht Hc. split.
  - intros E. pose proof Inv as (HL & Len & _).
    pose proof (getBucketIndex_range _ _ HL Ht) as Hb.
    unfold GetClosestContacts in E.
    set (b := getBucketIndex (localID rt) target) in *.
    apply bind_Ok in E. destruct E as (kb & Ib & E).
    apply bind_Ok in E. destruct E as (first & G & E).
    apply bind_Ok in E. destruct E as (pool & Lp & E).
    injection E as E.
    assert (Es : sort_Slice (closer target) pool = []).
    { destruct (len (sort_Slice (closer target) pool) >? count); [|assumption].
      destruct (sort_Slice (closer target) pool); [reflexivity|].
      replace (Z.to_nat count) with (S (Z.to_nat (count - 1))) in E by lia.
      cbn [firstn] in E. discriminate. }
    apply sort_Slice_nil in Es. subst pool.
    destruct (closest_loop_prefix _ _ _ _ _ _ _ Lp) as (r & Er).
    symmetry in Er. apply app_eq_nil in Er. destruct Er as [-> _].
    apply index_Ok_nth_error in Ib. destruct Ib as [_ Ib].
    apply KBucket_GetContacts_nil in G; [|assumption].
    rewrite RoutingTable_Size_all. unfold all_contacts.
    assert (Hall : forall l, In l (map contacts (buckets rt)) -> l = []).
    { intros l Hl. apply in_map_iff in Hl. destruct Hl as (kb' & <- & Hkb).
      apply In_nth_error in Hkb. destruct Hkb as (n & En).
      assert (Hn : (n < 160)%nat)
        by (rewrite <- Len; apply nth_error_Some; congruence).
      destruct (Z.eq_dec (Z.of_nat n) b) as [Eb|Nb].
      - rewrite <- Eb, Nat2Z.id in Ib. congruence.
      - apply (closest_loop_empty rt b count Hc Hb 160 1 ltac:(lia) Lp (Z.of_nat n));
          [lia|lia|rewrite Nat2Z.id; assumption]. }
    induction (map contacts (buckets rt)) as [|l ls IH]; [reflexivity|].
    cbn [concat]. rewrite (Hall l (or_introl eq_refl)). cbn [app].
    apply IH. intros l' Hl'. apply Hall. right. assumption.
  - intros E.
    destruct (GetClosestContacts_spec rt target count Inv Ht ltac:(lia))
      as (out & -> & _ & _ & _ & B).
    destruct out as [|c out]; [reflexivity|].
    rewrite len_cons in B. pose proof (len_nonneg out). lia.
Qed.

(** ** FindNode *)

Lemma FindNode_loop_no_error target sched : forall st e st',
  FindNode_loop target sched st <> Returned (Some e) st'.
Proof.
  induction sched as [|d sched IH]; intros st e st'; cbn [FindNode_loop].
  - destruct (len (lk_inflight st) >? 0); discriminate.
  - destruct (len (lk_inflight st) >? 0); [|discriminate].
    destruct (who d <? length (lk_inflight st))%nat; [|apply IH].
    destruct (receive target d st); [apply IH|discriminate..].
Qed.

Lemma FindNode_loop_all_fail target : forall inflight rt contacted closest rpcs,
  FindNode_loop target
    (map (fun _ => {| who := 0; reply := None; at_time := 0 |}) inflight)
    {| lk_table := rt; lk_contacted := contacted; lk_closestSoFar := closest;
       lk_inflight := inflight; lk_rpcs := rpcs |}
  = Returned None
      {| lk_table := rt; lk_contacted := contacted; lk_closestSoFar := closest;
         lk_inflight := []; lk_rpcs := rpcs |}.
Proof.
  induction inflight as [|c inflight IH]; intros rt contacted closest rpcs;
    cbn [map FindNode_loop lk_inflight].
  - reflexivity.
  - rewrite len_cons. pose proof (len_nonneg inflight).
    destruct (Z.gtb_spec (len inflight + 1) 0); [|lia].
    cbn [who length Nat.ltb Nat.leb receive reply remove_nth lk_inflight
         lk_table lk_contacted lk_closestSoFar lk_rpcs].
    apply IH.
Qed.

(** C5 (as the code has it): FindNode returns the error
    "no contacts in routing table", without starting any RPC, exactly when
    GetClosestContacts yields no seed at all, which on a table the program
    built means that the table is empty; with one seed or more (also fewer
    than ALPHA = 3) the RPCs are started and no error can come back
    whatever the replies are: if every RPC fails the call returns nil. *)
Theorem FindNode_only_error (rt : RoutingTable) (target : NodeID) (sched : list delivery) :
  (GetClosestContacts rt target Alpha = Ok [] ->
     FindNode rt target sched =
       Returned (Some no_contacts_error)
         {| lk_table := rt; lk_contacted := []; lk_closestSoFar := [];
            lk_inflight := []; lk_rpcs := [] |}) /\
  (forall e st,
     FindNode rt target sched = Returned (Some e) st ->
     e = no_contacts_error /\ GetClosestContacts rt target Alpha = Ok [] /\
     lk_rpcs st = [] /\ lk_table st = rt) /\
  (forall seeds,
     GetClosestContacts rt target Alpha = Ok seeds -> seeds <> [] ->
     FindNode rt target
       (map (fun _ => {| who := 0; reply := None; at_time := 0 |}) seeds)
     = Returned None
         {| lk_table := rt; lk_contacted := map Address seeds; lk_closestSoFar := [];
            lk_inflight := []; lk_rpcs := seeds |}) /\
  (reachable rt -> wf_NodeID target ->
     (GetClosestContacts rt target Alpha = Ok [] <-> RoutingTable_Size rt = 0)).
Proof.
  split; [|split; [|split]].
  - intros E. unfold FindNode. rewrite E. reflexivity.
  - intros e st. unfold FindNode.
    destruct (GetClosestContacts rt target Alpha) as [seeds| |]; try discriminate.
    destruct seeds as [|c seeds].
    + cbn. intros H. injection H as <- <-. repeat split; reflexivity.
    + rewrite len_cons. pose proof (len_nonneg seeds) as Hs.
      destruct (Z.eqb_spec (len seeds + 1) 0); [lia|].
      intros H. apply FindNode_loop_no_error in H. contradiction.
  - intros seeds E Hne. unfold FindNode. rewrite E.
    destruct seeds as [|c seeds]; [congruence|].
    rewrite len_cons. pose proof (len_nonneg seeds).
    destruct (Z.eqb_spec (len seeds + 1) 0); [lia|].
    apply FindNode_loop_all_fail.
  - intros R Ht. apply GetClosestContacts_empty;
      [apply reachable_inv; assumption|assumption|reflexivity].
Qed.

Lemma one_contact_table_reachable : reachable one_contact_table.
Proof.
  exists clock0, zeroID, [TAddContact 1 one_contact].
  split; [split; reflexivity|]. split.
  - repeat constructor.
  - vm_compute. reflexivity.
Qed.

Lemma FindNode_only_error_witness :
  FindNode (NewRoutingTable clock0 zeroID) (id_of_last_byte 9)
    [{| who := 0; reply := None; at_time := 7 |}]
  = Returned (Some no_contacts_error)
      {| lk_table := NewRoutingTable clock0 zeroID; lk_contacted := [];
         lk_closestSoFar := []; lk_inflight := []; lk_rpcs := [] |}
  /\
  FindNode one_contact_table zeroID
    (map (fun _ => {| who := 0; reply := None; at_time := 0 |}) [one_contact])
  = Returned None
      {| lk_table := one_contact_table; lk_contacted := map Address [one_contact];
         lk_closestSoFar := []; lk_inflight := []; lk_rpcs := [one_contact] |}.
Proof.
  pose proof (FindNode_only_error (NewRoutingTable clock0 zeroID) (id_of_last_byte 9)
                [{| who := 0; reply := None; at_time := 7 |}]) as (A & _).
  pose proof (FindNode_only_error one_contact_table zeroID []) as (_ & _ & C & _).
  split.
  - apply A. vm_compute. reflexivity.
  - apply C.
    + vm_compute. reflexivity.
    + discriminate.
Defined.

(** C5 as stated fails: with a single contact in the table only one seed
    can be drawn, fewer than ALPHA = 3, yet FindNode starts the RPC to it
    and returns nil when that RPC fails; no schedule makes it return an
    error. *)
Lemma FindNode_proceeds_with_one_seed :
  reachable one_contact_table /\
  RoutingTable_Size one_contact_table = 1 /\
  GetClosestContacts one_contact_table zeroID Alpha = Ok [one_contact] /\
  len [one_contact] < Alpha /\
  FindNode one_contact_table zeroID [{| who := 0; reply := None; at_time := 2 |}]
  = Returned None
      {| lk_table := one_contact_table; lk_contacted := ["10.0.0.1:4000"%string];
         lk_closestSoFar := []; lk_inflight := []; lk_rpcs := [one_contact] |} /\
  (forall sched e st,
     FindNode one_contact_table zeroID sched <> Returned (Some e) st).
Proof.
  split; [exact one_contact_table_reachable|].
  split; [vm_compute; reflexivity|].
  split; [vm_compute; reflexivity|].
  split; [vm_compute; reflexivity|].
  split; [vm_compute; reflexivity|].
  intros sched e st. unfold FindNode.
  assert (E : GetClosestContacts one_contact_table zeroID Alpha = Ok [one_contact])
    by (vm_compute; reflexivity).
  rewrite E. apply FindNode_loop_no_error.
Qed.

(** A run in which a reply brings a new contact: it enters the routing
    table, is queried in turn, and the lookup ends with nil. *)
Example FindNode_sample_run :
  let c2 := contact_of (id_of_first_byte 64) "10.0.0.3:4000" 5 in
  match FindNode one_contact_table zeroID
          [{| who := 0; reply := Some [c2; one_contact]; at_time := 6 |};
           {| who := 0; reply := None; at_time := 7 |}] with
  | Returned None st =>
      lk_rpcs st = [one_contact; c2] /\
      RoutingTable_Size (lk_table st) = 2 /\
      lk_inflight st = []
  | _ => False
  end.
Proof. vm_compute. repeat split; reflexivity. Qed.

(** ** The FindNode RPC handler *)

Lemma length_set_nth_len {A} (l : list A) n v : len (set_nth l n v) = len l.
Proof. unfold len. rewrite length_set_nth. reflexivity. Qed.

Lemma hex_Decode_from_fits : forall n src dst i,
  (length src <= n)%nat -> 0 <= i -> i + Z.of_nat (length src) / 2 <= len dst ->
  exists dst' m err,
    hex_Decode_from dst i src = Ok (dst', m, err) /\
    (err = None -> 2 * (m - i) = Z.of_nat (length src) /\ forallb is_hex src = true).
Proof.
  induction n as [|n IH]; intros src dst i Hn Hi Hfit.
  - destruct src; [|cbn [length] in Hn; lia].
    exists dst, i, None. split; [reflexivity|]. intros _. cbn [length forallb].
    split; [lia|reflexivity].
  - destruct src as [|p [|q rest]].
    + exists dst, i, None. split; [reflexivity|]. intros _. cbn [length forallb].
      split; [lia|reflexivity].
    + cbn [hex_Decode_from]. destruct (fromHexChar p); eexists _, _, _;
        (split; [reflexivity|discriminate]).
    + cbn [hex_Decode_from forallb]. unfold is_hex at 1 2.
      destruct (fromHexChar p) as [a|];
        [|eexists _, _, _; split; [reflexivity|discriminate]].
      destruct (fromHexChar q) as [b|];
        [|eexists _, _, _; split; [reflexivity|discriminate]].
      cbn [length] in Hn, Hfit.
      assert (E2 : Z.of_nat (S (S (length rest))) = Z.of_nat (length rest) + 1 * 2) by lia.
      rewrite E2, Z.div_add in Hfit by lia.
      assert (0 <= Z.of_nat (length rest) / 2) by (apply Z.div_pos; lia).
      unfold store. destruct (Z.leb_spec 0 i); [|lia].
      destruct (Z.ltb_spec i (len dst)); [|lia]. cbn [andb bind].
      destruct (IH rest (set_nth dst (Z.to_nat i) (Z.lor (Z.shiftl a 4) b)) (i + 1))
        as (dst' & m & err & E & Herr).
      * lia.
      * lia.
      * rewrite length_set_nth_len. lia.
      * exists dst', m, err. split; [assumption|]. intros He.
        destruct (Herr He) as [Hm Hf]. cbn [length andb]. split; [lia|assumption].
Qed.

Lemma length_list_ascii_of_string s :
  length (list_ascii_of_string s) = String.length s.
Proof. induction s as [|c s IH]; cbn; [reflexivity|]. rewrite IH. reflexivity. Qed.

(** What does hold of the handler: a missing target, and every target of
    at most 41 characters that is empty, holds a character that is not a
    hexadecimal digit, or is shorter than 40 characters, gets status 400,
    and the routing table is the one before the call. *)
Lemma handleFindNode_rejects_short_malformed rt r :
  (target_param r = None \/
   exists s, target_param r = Some s /\ (String.length s <= 41)%nat /\
             (s = EmptyString \/
              forallb is_hex (list_ascii_of_string s) = false \/
              (String.length s < 40)%nat)) ->
  exists msg, handleFindNode rt r = (Ok (http_Error msg StatusBadRequest), rt).
Proof.
  unfold handleFindNode, Query_Get_target.
  intros [-> | (s & -> & Hlen & Hbad)]; [eexists; reflexivity|].
  destruct (String.eqb_spec s EmptyString) as [_|Hne]; [eexists; reflexivity|].
  destruct Hbad as [->|Hbad]; [congruence|].
  unfold hex_Decode.
  destruct (hex_Decode_from_fits 41 (list_ascii_of_string s) (repeat 0 20) 0)
    as (dst' & m & err & -> & Herr).
  - rewrite length_list_ascii_of_string. assumption.
  - lia.
  - rewrite length_list_ascii_of_string. change (len (repeat 0 20)) with 20.
    assert (Z.of_nat (String.length s) / 2 < 21)
      by (apply Z.div_lt_upper_bound; lia).
    lia.
  - destruct err as [e|]; [eexists; reflexivity|].
    destruct (Herr eq_refl) as [Hm Hf].
    destruct Hbad as [Hbad|Hbad]; [congruence|].
    rewrite length_list_ascii_of_string in Hm.
    destruct (Z.eqb_spec m 20); [lia|]. eexists. reflexivity.
Qed.

(** C9 fails on the code: the target below is not valid hexadecimal, yet
    the handler does not answer 400.  hex.Decode writes into the 20-byte
    array [targetID]; the 21st pair of digits is decoded before the
    malformed tail is reached, and the write to index 20 panics.  With a
    long enough destination the decoder reports the invalid byte; the
    routing table is not touched in either case. *)
Theorem handleFindNode_long_malformed_target_panics (rt : RoutingTable) :
  forallb is_hex (list_ascii_of_string long_malformed_target) = false /\
  (exists dst, hex_Decode (repeat 0 32) long_malformed_target
               = Ok (dst, 21, Some (InvalidByteError "z"%char))) /\
  hex_Decode (repeat 0 20) long_malformed_target = Panic /\
  handleFindNode rt {| target_param := Some long_malformed_target |} = (Panic, rt).
Proof.
  split; [reflexivity|]. split; [eexists; vm_compute; reflexivity|].
  split; [vm_compute; reflexivity|].
  unfold handleFindNode, Query_Get_target. cbn [target_param].
  replace (hex_Decode (repeat 0 20) long_malformed_target)
    with (@Panic (list Z * Z * option hex_error)) by (vm_compute; reflexivity).
  reflexivity.
Qed.

(** ** The answer does not depend on how sort.Slice treats equal keys

    Distinct NodeIDs are at distinct distances from the target, so the
    contacts gathered by GetClosestContacts have pairwise different keys
    and only one arrangement of them is sorted. *)

Lemma toZ_inj a b :
  length a = length b ->
  forallb is_byte a = true -> forallb is_byte b = true ->
  toZ a = toZ b -> a = b.
Proof.
  revert b. induction a as [|x a IH]; intros [|y b];
    cbn [toZ forallb length]; try discriminate; [reflexivity|].
  intros L Ha Hb E. injection L as L.
  apply andb_true_iff in Ha, Hb. destruct Ha as [Hx Ha], Hb as [Hy Hb].
  apply is_byte_range in Hx, Hy.
  pose proof (toZ_bounds a Ha) as Ba. pose proof (toZ_bounds b Hb) as Bb.
  assert (El : len b = len a) by (unfold len; lia). rewrite El in *.
  set (P := 256 ^ len a) in *.
  assert (x = y) by nia. subst y.
  f_equal. apply IH; try assumption. lia.
Qed.

Lemma xor_bytes_inj a b t :
  length a = length t -> length b = length t ->
  xor_bytes a t = xor_bytes b t -> a = b.
Proof.
  revert b t. induction a as [|x a IH]; intros [|y b] [|z t];
    cbn [xor_bytes length]; try discriminate; [reflexivity|].
  intros La Lb E. injection La as La. injection Lb as Lb. injection E as Exy E.
  f_equal; [|apply (IH b t); assumption].
  rewrite <- (Z.lxor_0_r x), <- (Z.lxor_nilpotent z), <- Z.lxor_assoc, Exy.
  rewrite Z.lxor_assoc, Z.lxor_nilpotent, Z.lxor_0_r. reflexivity.
Qed.

Lemma distance_key_inj target x y :
  wf_NodeID target -> wf_NodeID x -> wf_NodeID y ->
  toZ (Distance x target) = toZ (Distance y target) -> x = y.
Proof.
  intros Ht Hx Hy E.
  destruct (Distance_wf _ _ Hx Ht) as [L1 B1].
  destruct (Distance_wf _ _ Hy Ht) as [L2 B2].
  apply toZ_inj in E; [|congruence|assumption..].
  destruct Ht as [Lt _], Hx as [Lx _], Hy as [Ly _].
  unfold Distance in E. apply (xor_bytes_inj x y target); congruence.
Qed.

Lemma strictly_sorted_perm_eq {A} (f : A -> Z) (l1 l2 : list A) :
  StronglySorted (fun a b => f a < f b) l1 ->
  StronglySorted (fun a b => f a < f b) l2 ->
  Permutation l1 l2 -> l1 = l2.
Proof.
  revert l2. induction l1 as [|a l1 IH]; intros l2 S1 S2 P.
  - apply Permutation_nil in P. congruence.
  - destruct l2 as [|b l2]; [apply Permutation_sym, Permutation_nil in P; discriminate|].
    apply StronglySorted_inv in S1, S2. destruct S1 as [S1 F1], S2 as [S2 F2].
    rewrite Forall_forall in F1, F2.
    assert (E : a = b).
    { assert (Ha : In a (b :: l2)) by (apply (Permutation_in _ P); left; reflexivity).
      assert (Hb : In b (a :: l1))
        by (apply (Permutation_in _ (Permutation_sym P)); left; reflexivity).
      destruct Ha as [->|Ha]; [reflexivity|]. destruct Hb as [->|Hb]; [reflexivity|].
      specialize (F1 b Hb). specialize (F2 a Ha). lia. }
    subst b. f_equal. apply IH; try assumption.
    apply Permutation_cons_inv in P. assumption.
Qed.

Lemma sorted_distinct_strict (target : NodeID) (l : list Contact) :
  wf_NodeID target -> Forall (fun c => wf_NodeID (ID c)) l ->
  NoDup (map ID l) -> StronglySorted (dist_le target) l ->
  StronglySorted
    (fun a b => toZ (Distance (ID a) target) < toZ (Distance (ID b) target)) l.
Proof.
  intros Ht W ND S. induction S as [|a l S IH F]; [constructor|].
  apply Forall_cons_iff in W. destruct W as [Wa Wl].
  cbn [map] in ND. apply NoDup_cons_iff in ND. destruct ND as [Na ND].
  constructor; [apply IH; assumption|].
  rewrite Forall_forall in *. intros b Hb.
  pose proof (proj1 (dist_le_toZ target a b Ht Wa (Wl b Hb)) (F b Hb)) as Hle.
  destruct (Z.eq_dec (toZ (Distance (ID a) target)) (toZ (Distance (ID b) target)))
    as [E|Ne]; [|lia].
  exfalso. apply Na. apply distance_key_inj in E; [|auto..].
  rewrite E. apply in_map. assumption.
Qed.

Lemma GetClosestContacts_only_sorted_arrangement rt target count out out' :
  table_inv rt -> wf_NodeID target -> 0 <= count ->
  GetClosestContacts rt target count = Ok out ->
  Permutation out' out -> StronglySorted (dist_le target) out' ->
  out' = out.
Proof.
  intros Inv Ht Hc E P S'.
  destruct (GetClosestContacts_spec rt target count Inv Ht Hc)
    as (o & E' & S & ND & Hall & _).
  rewrite E in E'. injection E' as <-.
  assert (W : Forall (fun c => wf_NodeID (ID c)) out).
  { apply Forall_forall. intros c H. apply (table_inv_contact rt); auto. }
  assert (W' : Forall (fun c => wf_NodeID (ID c)) out').
  { rewrite Forall_forall in *. intros c H. apply W. apply (Permutation_in _ P H). }
  apply (strictly_sorted_perm_eq (fun c => toZ (Distance (ID c) target)));
    [| |assumption].
  - apply sorted_distinct_strict; try assumption.
    apply (Permutation_NoDup (l := map ID out)); [|assumption].
    apply Permutation_map, Permutation_sym. assumption.
  - apply sorted_distinct_strict; try assumption.
    apply (StronglySorted_impl
             (fun x y => toZ (Distance (ID x) target) <= toZ (Distance (ID y) target))
             (dist_le target) (fun c => wf_NodeID (ID c)) out); try assumption.
    intros x y Px Py H. apply dist_le_toZ; assumption.
Qed.

(* ================================================================== *)
(** * Further properties of the package *)

(** ** The order of lessThan *)

(** X1: on 20-byte identifiers lessThan is the strict order of the
    big-endian values: irreflexive, asymmetric, transitive, and any two
    different identifiers are comparable. *)
Theorem lessThan_strict_total_order (a b c : NodeID) :
  wf_NodeID a -> wf_NodeID b -> wf_NodeID c ->
  (lessThan a b = true <-> toZ a < toZ b) /\
  lessThan a a = false /\
  (lessThan a b = true -> lessThan b a = false) /\
  (lessThan a b = true -> lessThan b c = true -> lessThan a c = true) /\
  (lessThan a b = true \/ a = b \/ lessThan b a = true).
Proof.
  intros [La Ba] [Lb Bb] [Lc Bc].
  assert (Hab : lessThan a b = true <-> toZ a < toZ b)
    by (apply lessThan_toZ; congruence).
  assert (Hba : lessThan b a = true <-> toZ b < toZ a)
    by (apply lessThan_toZ; congruence).
  assert (Hbc : lessThan b c = true <-> toZ b < toZ c)
    by (apply lessThan_toZ; congruence).
  assert (Hac : lessThan a c = true <-> toZ a < toZ c)
    by (apply lessThan_toZ; congruence).
  assert (Haa : lessThan a a = true <-> toZ a < toZ a)
    by (apply lessThan_toZ; congruence).
  split; [assumption|]. split; [|split; [|split]].
  - destruct (lessThan a a); [|reflexivity]. apply proj1 in Haa.
    specialize (Haa eq_refl). lia.
  - intros H. apply Hab in H. destruct (lessThan b a); [|reflexivity].
    apply proj1 in Hba. specialize (Hba eq_refl). lia.
  - intros H1 H2. apply Hab in H1. apply Hbc in H2. apply Hac. lia.
  - destruct (Z.lt_trichotomy (toZ a) (toZ b)) as [H|[H|H]].
    + left. apply Hab. assumption.
    + right. left. apply toZ_inj; congruence.
    + right. right. apply Hba. assumption.
Qed.

Lemma lessThan_strict_total_order_witness :
  lessThan (id_of_last_byte 1) (id_of_first_byte 1) = true /\
  lessThan (id_of_first_byte 1) (id_of_last_byte 1) = false.
Proof.
  assert (W1 : wf_NodeID (id_of_last_byte 1)) by (split; reflexivity).
  assert (W2 : wf_NodeID (id_of_first_byte 1)) by (split; reflexivity).
  assert (W3 : wf_NodeID (id_of_first_byte 2)) by (split; reflexivity).
  destruct (lessThan_strict_total_order _ _ _ W1 W2 W3) as (E & _ & A & _).
  assert (H : lessThan (id_of_last_byte 1) (id_of_first_byte 1) = true)
    by (apply E; vm_compute; reflexivity).
  split; [exact H | exact (A H)].
Defined.

(** ** The XOR distance *)

Lemma xor_bytes_cancel a b :
  length a = length b -> xor_bytes a (xor_bytes a b) = b.
Proof.
  revert b. induction a as [|x a IH]; intros [|y b]; cbn [xor_bytes length];
    try discriminate; [reflexivity|].
  intros L. injection L as L. rewrite IH by assumption.
  rewrite <- Z.lxor_assoc, Z.lxor_nilpotent, Z.lxor_0_l. reflexivity.
Qed.

(** X2: two identifiers are at distance zero only when they are equal,
    and the distance determines the other end: XOR-ing an identifier with
    its distance to [b] gives [b] back. *)
Theorem Distance_identity_involution (a b : NodeID) :
  wf_NodeID a -> wf_NodeID b ->
  (Distance a b = zeroID <-> a = b) /\
  Distance a (Distance a b) = b /\
  Distance (Distance a b) b = a.
Proof.
  intros [La Ba] [Lb Bb]. unfold Distance, zeroID. split; [split|split].
  - intros E. apply xor_bytes_zero_eq; [congruence|]. rewrite La. exact E.
  - intros ->. rewrite xor_bytes_self, Lb. reflexivity.
  - apply xor_bytes_cancel. congruence.
  - rewrite (xor_bytes_comm a b), xor_bytes_comm. apply xor_bytes_cancel. congruence.
Qed.

Lemma Distance_identity_involution_witness :
  Distance (id_of_first_byte 165) (Distance (id_of_first_byte 165) (id_of_last_byte 9))
  = id_of_last_byte 9.
Proof.
  apply (Distance_identity_involution (id_of_first_byte 165) (id_of_last_byte 9));
    split; reflexivity.
Defined.

(** ** Bucket index and distance *)

Lemma toZ_zeros n : toZ (repeat 0 n) = 0.
Proof. induction n as [|n IH]; cbn [repeat toZ]; [reflexivity|]. rewrite IH. lia. Qed.

(** X3: the bucket index orders the distance to the local identifier: a
    contact routed to a bucket of smaller index is strictly farther from
    the local identifier than one routed to a bucket of larger index. *)
Theorem getBucketIndex_orders_distance (L a b : NodeID) :
  wf_NodeID L -> wf_NodeID a -> wf_NodeID b ->
  getBucketIndex L a < getBucketIndex L b ->
  lessThan (Distance L b) (Distance L a) = true /\
  toZ (Distance L b) < toZ (Distance L a).
Proof.
  intros HL Ha Hb Hlt.
  pose proof (getBucketIndex_range L b HL Hb) as Rb.
  assert (Na : a <> L).
  { intros ->. rewrite getBucketIndex_self in Hlt by assumption. lia. }
  pose proof (highest_set_bit_log2 _ _ (Distance_wf _ _ HL Ha)
                (getBucketIndex_highest L a HL Ha Na)) as Ea.
  assert (Hz : toZ (Distance L b) < toZ (Distance L a)).
  { destruct (list_eq_dec Z.eq_dec b L) as [->|Nb].
    - unfold Distance at 1. rewrite xor_bytes_self, toZ_zeros.
      destruct (Z.le_gt_cases (toZ (Distance L a)) 1) as [H|H]; [|lia].
      assert (E0 : Z.log2 (toZ (Distance L a)) = 0).
      { destruct (Z.eq_dec (toZ (Distance L a)) 1) as [->|N1]; [reflexivity|].
        apply Z.log2_nonpos. lia. }
      rewrite getBucketIndex_self in Hlt by assumption. lia.
    - pose proof (highest_set_bit_log2 _ _ (Distance_wf _ _ HL Hb)
                    (getBucketIndex_highest L b HL Hb Nb)) as Eb.
      apply Z.log2_lt_cancel. lia. }
  split; [|assumption].
  destruct (Distance_wf _ _ HL Ha) as [L1 B1].
  destruct (Distance_wf _ _ HL Hb) as [L2 B2].
  apply lessThan_toZ; congruence.
Qed.

Lemma getBucketIndex_orders_distance_witness :
  lessThan (Distance zeroID (id_of_last_byte 200)) (Distance zeroID (id_of_first_byte 1))
  = true.
Proof.
  apply (getBucketIndex_orders_distance zeroID (id_of_first_byte 1) (id_of_last_byte 200));
    try (split; reflexivity); reflexivity.
Defined.

(** ** More on KBucket *)

(** X4: GetContacts panics exactly on a negative count; otherwise it
    returns the first min(count, Size()) contacts of the bucket, least
    recently seen first. *)
Theorem KBucket_GetContacts_prefix (kb : KBucket) (count : Z) :
  (KBucket_GetContacts kb count = Panic <-> count < 0) /\
  (0 <= count ->
     exists cs rest,
       KBucket_GetContacts kb count = Ok cs /\
       contacts kb = cs ++ rest /\
       len cs = Z.min count (KBucket_Size kb)).
Proof.
  unfold KBucket_GetContacts, KBucket_Size.
  pose proof (len_nonneg (contacts kb)) as H0.
  set (n := if count >? len (contacts kb) then len (contacts kb) else count).
  assert (Hn : n = Z.min count (len (contacts kb)))
    by (unfold n; destruct (Z.gtb_spec count (len (contacts kb))); lia).
  split.
  - destruct (Z.ltb_spec n 0); split; intros H1; try reflexivity; try discriminate; lia.
  - intros Hc. destruct (Z.ltb_spec n 0); [lia|].
    exists (firstn (Z.to_nat n) (contacts kb)), (skipn (Z.to_nat n) (contacts kb)).
    split; [reflexivity|]. split; [symmetry; apply firstn_skipn|].
    unfold len in *. rewrite length_firstn. lia.
Qed.

Lemma lessThan_false_toZ a b :
  wf_NodeID a -> wf_NodeID b -> (lessThan a b = false <-> toZ b <= toZ a).
Proof.
  intros [La Ba] [Lb Bb].
  pose proof (lessThan_toZ a b ltac:(congruence) Ba Bb) as E.
  destruct (lessThan a b).
  - split; [discriminate|]. intros H. apply proj1 in E. specialize (E eq_refl). lia.
  - split; [|reflexivity]. intros _.
    destruct (Z.le_gt_cases (toZ b) (toZ a)) as [H|H]; [assumption|].
    apply E in H. discriminate.
Qed.

Lemma refresh_same_IDs c l l' e :
  refresh c l = Some l' -> In e l' -> exists e', In e' l /\ ID e' = ID e.
Proof.
  intros R He. apply refresh_Some in R.
  destruct R as (l1 & old & l2 & -> & Eo & _ & ->).
  rewrite app_assoc, in_app_iff in He. destruct He as [He|[<-|[]]].
  - exists e. split; [|reflexivity]. apply in_app_iff in He.
    rewrite in_app_iff. cbn [In]. tauto.
  - exists old. split; [|assumption]. rewrite in_app_iff. cbn [In]. tauto.
Qed.

Lemma bucket_step_range kb op :
  wf_bucket_op op ->
  (wf_NodeID (range_min kb) /\ wf_NodeID (range_max kb) /\
   forall c, In c (contacts kb) -> wf_NodeID (ID c) /\ in_range kb c) ->
  let kb' := bucket_step kb op in
  wf_NodeID (range_min kb') /\ wf_NodeID (range_max kb') /\
  forall c, In c (contacts kb') -> wf_NodeID (ID c) /\ in_range kb' c.
Proof.
  intros W (Wmin & Wmax & H). destruct op as [now c| |]; cbn [bucket_step wf_bucket_op] in *;
    try (split; [assumption|split; assumption]).
  unfold KBucket_AddContact.
  destruct (refresh c (contacts kb)) as [l|] eqn:R.
  - cbn [snd range_min range_max contacts]. split; [assumption|]. split; [assumption|].
    intros e He. destruct (refresh_same_IDs _ _ _ _ R He) as (e' & He' & Ee).
    destruct (H e' He') as [We' [R1 R2]]. unfold in_range in *. cbn [range_min range_max].
    rewrite <- Ee. auto.
  - destruct (len (contacts kb) <? K); cbn [snd]; [|split; [assumption|split; assumption]].
    cbn [range_min range_max contacts].
    assert (Wmin' : wf_NodeID (if lessThan (ID c) (range_min kb)
                              then ID c else range_min kb))
      by (destruct (lessThan (ID c) (range_min kb)); assumption).
    assert (Wmax' : wf_NodeID (if lessThan (range_max kb) (ID c)
                              then ID c else range_max kb))
      by (destruct (lessThan (range_max kb) (ID c)); assumption).
    split; [assumption|]. split; [assumption|].
    intros e He. apply in_app_iff in He.
    assert (We : wf_NodeID (ID e)).
    { destruct He as [He|[<-|[]]]; [apply H|]; assumption. }
    split; [assumption|]. unfold in_range. cbn [range_min range_max].
    rewrite !lessThan_false_toZ by assumption.
    pose proof (lessThan_toZ (ID c) (range_min kb)
                  ltac:(destruct W as [-> _], Wmin as [-> _]; reflexivity)
                  (proj2 W) (proj2 Wmin)) as Emin.
    pose proof (lessThan_toZ (range_max kb) (ID c)
                  ltac:(destruct W as [-> _], Wmax as [-> _]; reflexivity)
                  (proj2 Wmax) (proj2 W)) as Emax.
    assert (Hold : In e (contacts kb) ->
                   toZ (range_min kb) <= toZ (ID e) <= toZ (range_max kb)).
    { intros Hin. destruct (H e Hin) as [_ [R1 R2]].
      apply lessThan_false_toZ in R1, R2; try assumption. lia. }
    destruct (lessThan (ID c) (range_min kb)) eqn:E1;
      destruct (lessThan (range_max kb) (ID c)) eqn:E2;
      try (apply proj1 in Emin; specialize (Emin eq_refl));
      try (apply proj1 in Emax; specialize (Emax eq_refl));
      try (assert (toZ (range_min kb) <= toZ (ID c))
             by (apply lessThan_false_toZ; assumption));
      try (assert (toZ (ID c) <= toZ (range_max kb))
             by (apply lessThan_false_toZ; assumption));
      (destruct He as [He|[<-|[]]]; [specialize (Hold He)|]); lia.
Qed.

(** X5: in a bucket built from NewKBucket by contacts with 20-byte
    identifiers, the recorded range covers every contact held:
    range.min <= ID <= range.max, in the order of lessThan and as
    big-endian values. *)
Theorem KBucket_range_covers_contacts (ops : list bucket_op) (t : Z) (c : Contact) :
  Forall wf_bucket_op ops ->
  In c (contacts (bucket_run ops (NewKBucket t))) ->
  in_range (bucket_run ops (NewKBucket t)) c /\
  toZ (range_min (bucket_run ops (NewKBucket t))) <= toZ (ID c)
    <= toZ (range_max (bucket_run ops (NewKBucket t))).
Proof.
  intros W Hc.
  assert (G : forall ops kb,
            Forall wf_bucket_op ops ->
            (wf_NodeID (range_min kb) /\ wf_NodeID (range_max kb) /\
             forall c, In c (contacts kb) -> wf_NodeID (ID c) /\ in_range kb c) ->
            let kb' := bucket_run ops kb in
            wf_NodeID (range_min kb') /\ wf_NodeID (range_max kb') /\
            forall c, In c (contacts kb') -> wf_NodeID (ID c) /\ in_range kb' c).
  { unfold bucket_run. induction ops0 as [|op ops0 IH]; intros kb Wo I; cbn [fold_left];
      [assumption|].
    apply Forall_cons_iff in Wo. destruct Wo as [Wop Wo].
    apply IH; [assumption|]. apply bucket_step_range; assumption. }
  destruct (G ops (NewKBucket t) W) as (Wmin & Wmax & H).
  { split; [split; reflexivity|]. split; [split; reflexivity|]. intros e []. }
  destruct (H c Hc) as [Wc [R1 R2]]. split; [split; assumption|].
  apply lessThan_false_toZ in R1, R2; try assumption. lia.
Qed.

Lemma KBucket_range_covers_contacts_witness :
  let ops := [BAddContact 1 (contact_of (id_of_first_byte 9) "a" 1);
              BAddContact 2 (contact_of (id_of_first_byte 3) "b" 2);
              BAddContact 3 (contact_of (id_of_first_byte 200) "c" 3)] in
  in_range (bucket_run ops (NewKBucket 0)) (contact_of (id_of_first_byte 9) "a" 1) /\
  range_min (bucket_run ops (NewKBucket 0)) = id_of_first_byte 3 /\
  range_max (bucket_run ops (NewKBucket 0)) = id_of_first_byte 200.
Proof.
  intros ops. split; [|split; reflexivity].
  apply (KBucket_range_covers_contacts ops 0 (contact_of (id_of_first_byte 9) "a" 1)).
  - repeat apply Forall_cons; try apply Forall_nil; split; reflexivity.
  - left. reflexivity.
Defined.

Lemma KBucket_AddContact_keeps_ID now kb c id :
  has_ID id (contacts kb) -> has_ID id (contacts (snd (KBucket_AddContact now kb c))).
Proof.
  intros (e & He & Ee). unfold KBucket_AddContact.
  destruct (refresh c (contacts kb)) as [l|] eqn:R.
  - apply refresh_Some in R. destruct R as (l1 & old & l2 & E & Eo & _ & ->).
    cbn [snd contacts]. rewrite E in He. apply in_app_iff in He.
    destruct He as [He|[<-|He]].
    + exists e. split; [|assumption]. rewrite !in_app_iff. tauto.
    + exists c. split; [|congruence]. rewrite !in_app_iff. cbn [In]. tauto.
    + exists e. split; [|assumption]. rewrite !in_app_iff. tauto.
  - destruct (len (contacts kb) <? K); cbn [snd contacts].
    + exists e. split; [|assumption]. rewrite in_app_iff. tauto.
    + exists e. split; assumption.
Qed.

(** X6: a bucket never evicts: a NodeID held by the bucket is still held
    after any sequence of bucket operations, and a bucket built from
    NewKBucket never holds the same NodeID twice. *)
Theorem KBucket_never_evicts (ops : list bucket_op) (kb : KBucket) (id : NodeID) (t : Z) :
  (has_ID id (contacts kb) -> has_ID id (contacts (bucket_run ops kb))) /\
  NoDup (map ID (contacts (bucket_run ops (NewKBucket t)))).
Proof.
  split.
  - revert kb. unfold bucket_run.
    induction ops as [|op ops IH]; intros kb H; cbn [fold_left]; [assumption|].
    apply IH. destruct op; cbn [bucket_step]; try assumption.
    apply KBucket_AddContact_keeps_ID. assumption.
  - apply bucket_run_NoDup. constructor.
Qed.

(** ** More on the routing table *)

Lemma table_run_app ops1 ops2 rt :
  table_run (ops1 ++ ops2) rt = (rt1 <- table_run ops1 rt ;; table_run ops2 rt1).
Proof.
  revert rt. induction ops1 as [|op ops1 IH]; intros rt; cbn [app table_run bind];
    [reflexivity|].
  destruct (table_step rt op) as [rt1| |]; cbn [bind]; [apply IH|reflexivity..].
Qed.

Lemma reachable_add now rt c rt' :
  reachable rt -> wf_NodeID (ID c) ->
  RoutingTable_AddContact now rt c = Ok rt' -> reachable rt'.
Proof.
  intros (clock & L & ops & HL & W & E) Hc A.
  exists clock, L, (ops ++ [TAddContact now c]). split; [assumption|]. split.
  - apply Forall_app. split; [assumption|]. constructor; [exact Hc|constructor].
  - rewrite table_run_app, E. cbn [bind table_run table_step]. rewrite A. reflexivity.
Qed.

Lemma RoutingTable_AddContact_Ok now rt c rt' :
  RoutingTable_AddContact now rt c = Ok rt' ->
  exists kb,
    0 <= getBucketIndex (localID rt) (ID c) < len (buckets rt) /\
    nth_error (buckets rt) (Z.to_nat (getBucketIndex (localID rt) (ID c))) = Some kb /\
    rt' = {| localID := localID rt;
             buckets := set_nth (buckets rt)
                          (Z.to_nat (getBucketIndex (localID rt) (ID c)))
                          (snd (KBucket_AddContact now kb c)) |}.
Proof.
  unfold RoutingTable_AddContact. cbv zeta.
  set (b := getBucketIndex (localID rt) (ID c)). intros H.
  apply bind_Ok in H. destruct H as (kb & I & H).
  apply bind_Ok in H. destruct H as (bs & S & H). injection H as <-.
  unfold store in S.
  destruct (Z.leb_spec 0 b); cbn [andb] in S; [|discriminate].
  destruct (Z.ltb_spec b (len (buckets rt))); [|discriminate]. injection S as <-.
  apply index_Ok_nth_error in I. destruct I as [_ I].
  exists kb. split; [lia|]. split; [assumption|reflexivity].
Qed.

Lemma set_nth_same {A} (l : list A) n a : nth_error l n = Some a -> set_nth l n a = l.
Proof.
  revert n. induction l as [|x l IH]; intros [|n]; cbn [nth_error set_nth];
    try discriminate.
  - intros H. injection H as ->. reflexivity.
  - intros H. rewrite IH by assumption. reflexivity.
Qed.

Lemma len_concat_set_nth (bs : list KBucket) n kb kb' :
  nth_error bs n = Some kb ->
  len (concat (map contacts (set_nth bs n kb')))
  = len (concat (map contacts bs)) - len (contacts kb) + len (contacts kb').
Proof.
  revert n. induction bs as [|x bs IH]; intros [|n]; cbn [nth_error set_nth map concat];
    try discriminate.
  - intros H. injection H as ->. rewrite !len_app. lia.
  - intros H. rewrite !len_app, (IH n H). lia.
Qed.

Lemma KBucket_AddContact_delta now kb c :
  let kb' := snd (KBucket_AddContact now kb c) in
  (KBucket_Size kb' = KBucket_Size kb /\
   (has_ID (ID c) (contacts kb) \/ (K <= KBucket_Size kb /\ kb' = kb))) \/
  (KBucket_Size kb' = KBucket_Size kb + 1 /\
   ~ has_ID (ID c) (contacts kb) /\ KBucket_Size kb < K).
Proof.
  unfold KBucket_AddContact, KBucket_Size.
  destruct (refresh c (contacts kb)) as [l|] eqn:R.
  - left. pose proof R as R'. apply refresh_Some in R.
    destruct R as (l1 & old & l2 & E & Eo & _ & ->). cbn [snd contacts]. split.
    + rewrite E. unfold len. repeat (rewrite ?length_app; cbn [length]). lia.
    + left. exists old. split; [|assumption]. rewrite E, in_app_iff. cbn [In]. tauto.
  - apply refresh_None in R.
    destruct (Z.ltb_spec (len (contacts kb)) K); cbn [snd contacts].
    + right. split; [|split; assumption]. rewrite len_app. reflexivity.
    + left. split; [reflexivity|]. right. split; [assumption|reflexivity].
Qed.

Lemma table_step_sizes rt op rt' :
  table_step rt op = Ok rt' ->
  (forall i kb, nth_error (buckets rt) i = Some kb -> KBucket_Size kb <= K) ->
  forall i kb, nth_error (buckets rt') i = Some kb -> KBucket_Size kb <= K.
Proof.
  destruct op as [now c|target count]; cbn [table_step]; intros H S.
  - apply RoutingTable_AddContact_Ok in H. destruct H as (kb0 & Rb & E0 & ->).
    cbn [buckets]. intros i kb E. rewrite nth_error_set_nth in E.
    destruct ((Nat.eqb i (Z.to_nat (getBucketIndex (localID rt) (ID c)))
               && Nat.ltb (Z.to_nat (getBucketIndex (localID rt) (ID c)))
                    (length (buckets rt)))%bool).
    + injection E as <-. apply KBucket_AddContact_size. apply (S _ _ E0).
    + apply (S _ _ E).
  - apply bind_Ok in H. destruct H as (out & _ & H). injection H as <-. exact S.
Qed.

Lemma reachable_sizes rt :
  reachable rt ->
  forall i kb, nth_error (buckets rt) i = Some kb -> KBucket_Size kb <= K.
Proof.
  intros (clock & L & ops & _ & _ & E).
  assert (G : forall ops rt0 rt1,
            table_run ops rt0 = Ok rt1 ->
            (forall i kb, nth_error (buckets rt0) i = Some kb -> KBucket_Size kb <= K) ->
            forall i kb, nth_error (buckets rt1) i = Some kb -> KBucket_Size kb <= K).
  { induction ops0 as [|op ops0 IH]; intros rt0 rt1 H S; cbn [table_run] in H.
    - injection H as <-. exact S.
    - apply bind_Ok in H. destruct H as (rt2 & H1 & H2).
      apply (IH rt2 rt1 H2). apply (table_step_sizes rt0 op rt2 H1 S). }
  apply (G ops _ _ E). intros i kb H. cbn [NewRoutingTable buckets] in H.
  rewrite nth_error_map, nth_error_seq in H.
  destruct (Nat.ltb i 160); [|discriminate]. injection H as <-.
  unfold KBucket_Size, K, len. simpl. lia.
Qed.

Lemma len_concat_bound (bs : list KBucket) :
  (forall i kb, nth_error bs i = Some kb -> KBucket_Size kb <= K) ->
  len (concat (map contacts bs)) <= K * len bs.
Proof.
  induction bs as [|b bs IH]; intros H; cbn [map concat].
  - unfold len. simpl. lia.
  - rewrite len_app, len_cons.
    pose proof (H 0%nat b eq_refl) as Hb. unfold KBucket_Size in Hb.
    assert (Hr : len (concat (map contacts bs)) <= K * len bs)
      by (apply IH; intros i kb E; apply (H (S i) kb E)).
    lia.
Qed.

(** X7: on a table the program built, AddContact of a contact with a
    20-byte identifier does not fail, gives again such a table, leaves the
    local ID and every bucket other than the one of getBucketIndex as they
    were, and afterwards either the contact is in the table or nothing has
    changed in any bucket's contents because its bucket already held K
    other NodeIDs: the contact is dropped without any report. *)
Theorem RoutingTable_AddContact_outcome (now : Z) (rt : RoutingTable) (c : Contact) :
  reachable rt -> wf_NodeID (ID c) ->
  exists rt',
    RoutingTable_AddContact now rt c = Ok rt' /\
    reachable rt' /\
    localID rt' = localID rt /\
    (forall i, Z.of_nat i <> getBucketIndex (localID rt) (ID c) ->
               nth_error (buckets rt') i = nth_error (buckets rt) i) /\
    (In c (all_contacts rt') \/
     (rt' = rt /\
      exists kb,
        nth_error (buckets rt) (Z.to_nat (getBucketIndex (localID rt) (ID c))) = Some kb /\
        KBucket_Size kb = K /\ ~ has_ID (ID c) (contacts kb))).
Proof.
  intros R Hc. pose proof (reachable_inv rt R) as Inv.
  destruct (table_inv_add now rt c Inv Hc) as (rt' & A & EL & _).
  exists rt'. split; [assumption|]. split; [eapply reachable_add; eassumption|].
  split; [assumption|].
  pose proof (RoutingTable_AddContact_Ok _ _ _ _ A) as (kb & Rb & Ekb & ->).
  set (b := getBucketIndex (localID rt) (ID c)) in *. cbn [buckets]. split.
  - intros i Hi. rewrite nth_error_set_nth.
    destruct (Nat.eqb_spec i (Z.to_nat b)); [lia|reflexivity].
  - assert (Hlt : Nat.ltb (Z.to_nat b) (length (buckets rt)) = true)
      by (apply Nat.ltb_lt; unfold len in Rb; lia).
    destruct (KBucket_AddContact_delta now kb c) as [[Es [P|[F Ekb']]]|[Es [N F]]].
    + left. apply in_all_contacts. cbn [buckets].
      exists (Z.to_nat b), (snd (KBucket_AddContact now kb c)). split.
      * rewrite nth_error_set_nth, Nat.eqb_refl, Hlt. reflexivity.
      * destruct (KBucket_AddContact_present now kb c P) as (l1 & old & l2 & _ & _ & _ & ->).
        cbn [snd contacts]. rewrite !in_app_iff. cbn [In]. tauto.
    + destruct (refresh c (contacts kb)) as [l|] eqn:Rf.
      * left. apply in_all_contacts. cbn [buckets].
        exists (Z.to_nat b), (snd (KBucket_AddContact now kb c)). split.
        -- rewrite nth_error_set_nth, Nat.eqb_refl, Hlt. reflexivity.
        -- unfold KBucket_AddContact. rewrite Rf. cbn [snd contacts].
           apply refresh_Some in Rf. destruct Rf as (l1 & old & l2 & _ & _ & _ & ->).
           rewrite !in_app_iff. cbn [In]. tauto.
      * right. split.
        -- rewrite Ekb', set_nth_same by assumption. destruct rt; reflexivity.
        -- exists kb. split; [assumption|]. split.
           ++ pose proof (reachable_sizes rt R _ _ Ekb). lia.
           ++ apply refresh_None. assumption.
    + left. apply in_all_contacts. cbn [buckets].
      exists (Z.to_nat b), (snd (KBucket_AddContact now kb c)). split.
      * rewrite nth_error_set_nth, Nat.eqb_refl, Hlt. reflexivity.
      * unfold KBucket_AddContact. apply refresh_None in N. rewrite N.
        unfold KBucket_Size in F. destruct (Z.ltb_spec (len (contacts kb)) K); [|lia].
        cbn [snd contacts]. rewrite in_app_iff. cbn [In]. tauto.
Qed.

Lemma RoutingTable_AddContact_outcome_witness :
  exists rt',
    RoutingTable_AddContact 9 sample_table (contact_of (id_of_first_byte 32) "x" 9)
      = Ok rt' /\
    In (contact_of (id_of_first_byte 32) "x" 9) (all_contacts rt').
Proof.
  destruct (RoutingTable_AddContact_outcome 9 sample_table
              (contact_of (id_of_first_byte 32) "x" 9))
    as (rt' & A & _ & _ & _ & [H|[E _]]).
  - exact sample_table_reachable.
  - split; reflexivity.
  - exists rt'. split; assumption.
  - exfalso. rewrite E in A.
    assert (A' : RoutingTable_AddContact 9 sample_table
                   (contact_of (id_of_first_byte 32) "x" 9) <> Ok sample_table)
      by (vm_compute; discriminate).
    contradiction.
Defined.

Lemma RoutingTable_AddContact_keeps_IDs now rt c rt' :
  RoutingTable_AddContact now rt c = Ok rt' ->
  forall id, has_ID id (all_contacts rt) -> has_ID id (all_contacts rt').
Proof.
  intros A. pose proof (RoutingTable_AddContact_Ok _ _ _ _ A) as (kb & Rb & Ekb & ->).
  set (b := getBucketIndex (localID rt) (ID c)) in *.
  intros id (e & He & Ee). apply in_all_contacts in He.
  destruct He as (i & kbi & Ei & Hi).
  assert (Hlt : Nat.ltb (Z.to_nat b) (length (buckets rt)) = true)
    by (apply Nat.ltb_lt; unfold len in Rb; lia).
  destruct (Nat.eqb_spec i (Z.to_nat b)) as [->|Ne].
  - assert (kbi = kb) by congruence. subst kbi.
    destruct (KBucket_AddContact_keeps_ID now kb c id) as (e' & He' & Ee').
    { exists e. split; assumption. }
    exists e'. split; [|assumption]. apply in_all_contacts. cbn [buckets].
    exists (Z.to_nat b), (snd (KBucket_AddContact now kb c)). split; [|assumption].
    rewrite nth_error_set_nth, Nat.eqb_refl, Hlt. reflexivity.
  - exists e. split; [|assumption]. apply in_all_contacts. cbn [buckets].
    exists i, kbi. split; [|assumption].
    rewrite nth_error_set_nth.
    destruct (Nat.eqb_spec i (Z.to_nat b)); [contradiction|]. assumption.
Qed.

Lemma RoutingTable_AddContact_Size now rt c rt' :
  RoutingTable_AddContact now rt c = Ok rt' ->
  (RoutingTable_Size rt' = RoutingTable_Size rt \/
   RoutingTable_Size rt' = RoutingTable_Size rt + 1) /\
  1 <= RoutingTable_Size rt'.
Proof.
  intros A. pose proof (RoutingTable_AddContact_Ok _ _ _ _ A) as (kb & Rb & Ekb & ->).
  rewrite !RoutingTable_Size_all. unfold all_contacts. cbn [buckets].
  rewrite (len_concat_set_nth _ _ kb) by assumption.
  assert (Hkb : len (contacts kb) <= len (concat (map contacts (buckets rt)))).
  { clear - Ekb. revert Ekb.
    generalize (Z.to_nat (getBucketIndex (localID rt) (ID c))).
    induction (buckets rt) as [|x bs IH]; intros [|n]; cbn [nth_error map concat];
      try discriminate; intros H; rewrite len_app.
    - injection H as ->. pose proof (len_nonneg (concat (map contacts bs))). lia.
    - specialize (IH n H). pose proof (len_nonneg (contacts x)). lia. }
  pose proof (len_nonneg (contacts kb)) as H0.
  destruct (KBucket_AddContact_delta now kb c) as [[Es [P|[F _]]]|[Es _]];
    unfold KBucket_Size in *.
  - split; [lia|]. destruct P as (e & He & _).
    destruct (contacts kb) as [|y l]; [destruct He|].
    rewrite len_cons in *. pose proof (len_nonneg l). lia.
  - unfold K in F. lia.
  - lia.
Qed.

(** X8: on a table the program built no bucket holds more than K = 20
    contacts and Size() is at most 160 * 20; an AddContact leaves Size()
    as it is or adds one, and no NodeID present before it is missing
    afterwards. *)
Theorem RoutingTable_Size_bounds (rt : RoutingTable) :
  reachable rt ->
  (forall i kb, nth_error (buckets rt) i = Some kb -> KBucket_Size kb <= K) /\
  0 <= RoutingTable_Size rt <= 160 * K /\
  (forall now c rt',
     RoutingTable_AddContact now rt c = Ok rt' ->
     (RoutingTable_Size rt' = RoutingTable_Size rt \/
      RoutingTable_Size rt' = RoutingTable_Size rt + 1) /\
     (forall id, has_ID id (all_contacts rt) -> has_ID id (all_contacts rt'))).
Proof.
  intros R. pose proof (reachable_sizes rt R) as S.
  pose proof (reachable_inv rt R) as (_ & Len & _).
  split; [assumption|]. split.
  - rewrite RoutingTable_Size_all. unfold all_contacts. split; [apply len_nonneg|].
    pose proof (len_concat_bound _ S) as B. unfold len at 2 in B. rewrite Len in B.
    exact B.
  - intros now c rt' A. split.
    + apply (RoutingTable_AddContact_Size _ _ _ _ A).
    + apply (RoutingTable_AddContact_keeps_IDs _ _ _ _ A).
Qed.

Lemma RoutingTable_Size_bounds_witness :
  0 <= RoutingTable_Size sample_table <= 160 * K.
Proof.
  apply (RoutingTable_Size_bounds sample_table). exact sample_table_reachable.
Defined.

(** ** More on GetClosestContacts *)

Lemma KBucket_GetContacts_all kb n cs :
  KBucket_GetContacts kb n = Ok cs -> len cs < n -> cs = contacts kb.
Proof.
  unfold KBucket_GetContacts. pose proof (len_nonneg (contacts kb)) as H0.
  destruct (Z.gtb_spec n (len (contacts kb))) as [Hgt|Hle].
  - destruct (Z.ltb_spec (len (contacts kb)) 0) as [Hn|Hn]; [discriminate|].
    intros E _. injection E as <-. unfold len. rewrite Nat2Z.id. apply firstn_all.
  - destruct (Z.ltb_spec n 0) as [Hn|Hn]; [discriminate|].
    intros E L. injection E as <-. exfalso. unfold len in *.
    rewrite length_firstn in L. lia.
Qed.

Lemma GetClosestContacts_Ok rt target count out :
  GetClosestContacts rt target count = Ok out ->
  exists kb first pool,
    nth_error (buckets rt) (Z.to_nat (getBucketIndex (localID rt) target)) = Some kb /\
    KBucket_GetContacts kb count = Ok first /\
    closest_loop 160 rt (getBucketIndex (localID rt) target) count 1 first = Ok pool /\
    out = (if len (sort_Slice (closer target) pool) >? count
           then firstn (Z.to_nat count) (sort_Slice (closer target) pool)
           else sort_Slice (closer target) pool).
Proof.
  unfold GetClosestContacts. cbv zeta. intros H.
  apply bind_Ok in H. destruct H as (kb & I & H).
  apply bind_Ok in H. destruct H as (first & G & H).
  apply bind_Ok in H. destruct H as (pool & Lp & H). injection H as <-.
  apply index_Ok_nth_error in I. destruct I as [_ I].
  exists kb, first, pool. repeat split; assumption.
Qed.

Lemma closest_loop_complete rt b count :
  0 <= b < 160 -> length (buckets rt) = 160%nat ->
  forall fuel i acc out,
    1 <= i ->
    closest_loop fuel rt b count i acc = Ok out ->
    len out < count ->
    (forall k kb c, nth_error (buckets rt) k = Some kb ->
                    b - i < Z.of_nat k < b + i -> In c (contacts kb) -> In c acc) ->
    forall c, In c (all_contacts rt) -> In c out.
Proof.
  intros Hb Len.
  assert (Done : forall i acc,
            (b - i >=? 0) || (b + i <? 160) = false ->
            (forall k kb c, nth_error (buckets rt) k = Some kb ->
                            b - i < Z.of_nat k < b + i -> In c (contacts kb) -> In c acc) ->
            forall c, In c (all_contacts rt) -> In c acc).
  { intros i acc Hcond Cov c Hc. rewrite Z.geb_leb in Hcond.
    apply orb_false_iff in Hcond. destruct Hcond as [H1 H2].
    apply Z.leb_gt in H1. apply Z.ltb_ge in H2.
    apply in_all_contacts in Hc. destruct Hc as (k & kb & E & Hin).
    assert (Hk : (k < 160)%nat) by (rewrite <- Len; apply nth_error_Some; congruence).
    apply (Cov k kb c E); [lia|assumption]. }
  induction fuel as [|fuel IH]; intros i acc out Hi H Lout Cov; cbn [closest_loop] in H.
  - destruct (Z.ltb_spec (len acc) count) as [Hacc|Hacc]; cbn [andb] in H.
    + destruct ((b - i >=? 0) || (b + i <? 160)) eqn:Hcond; [discriminate|].
      injection H as <-. apply Done with (i := i); assumption.
    + injection H as <-. lia.
  - destruct (Z.ltb_spec (len acc) count) as [Hacc|Hacc]; cbn [andb] in H;
      [|injection H as <-; lia].
    destruct ((b - i >=? 0) || (b + i <? 160)) eqn:Hcond;
      [|injection H as <-; apply Done with (i := i); assumption].
    apply bind_Ok in H. destruct H as (acc1 & H1 & H).
    apply bind_Ok in H. destruct H as (acc2 & H2 & H).
    destruct (closest_loop_prefix _ _ _ _ _ _ _ H) as (r3 & E3).
    assert (L2 : len acc2 < count)
      by (rewrite E3, len_app in Lout; pose proof (len_nonneg r3); lia).
    (* the left neighbour was taken whole *)
    assert (C1 : forall k kb c, nth_error (buckets rt) k = Some kb ->
                   b - i - 1 < Z.of_nat k < b + i -> In c (contacts kb) -> In c acc1).
    { rewrite Z.geb_leb in H1. destruct (Z.leb_spec 0 (b - i)) as [Hl|Hl].
      - apply bind_Ok in H1. destruct H1 as (kbl & Il & H1).
        apply bind_Ok in H1. destruct H1 as (cs & G & H1). injection H1 as <-.
        apply index_Ok_nth_error in Il. destruct Il as [_ Il].
        assert (Ecs : cs = contacts kbl).
        { apply (KBucket_GetContacts_all _ _ _ G).
          assert (len (acc ++ cs) <= len acc2).
          { destruct ((b + i <? 160) && (len (acc ++ cs) <? count)).
            - apply bind_Ok in H2. destruct H2 as (kbr & _ & H2).
              apply bind_Ok in H2. destruct H2 as (cs2 & _ & H2). injection H2 as <-.
              rewrite (len_app (acc ++ cs)). pose proof (len_nonneg cs2). lia.
            - injection H2 as <-. lia. }
          rewrite len_app in *. lia. }
        intros k kb c E Rk Hin. apply in_app_iff.
        destruct (Z.eq_dec (Z.of_nat k) (b - i)) as [Ek|Nk].
        + right. rewrite Ecs. rewrite <- Ek, Nat2Z.id in Il. congruence.
        + left. apply (Cov k kb c E); [lia|assumption].
      - injection H1 as <-. intros k kb c E Rk Hin.
        apply (Cov k kb c E); [lia|assumption]. }
    (* and so was the right one *)
    assert (C2 : forall k kb c, nth_error (buckets rt) k = Some kb ->
                   b - (i + 1) < Z.of_nat k < b + (i + 1) -> In c (contacts kb) ->
                   In c acc2).
    { destruct (Z.ltb_spec (b + i) 160) as [Hr|Hr]; cbn [andb] in H2.
      - destruct (Z.ltb_spec (len acc1) count) as [Hc1|Hc1].
        + apply bind_Ok in H2. destruct H2 as (kbr & Ir & H2).
          apply bind_Ok in H2. destruct H2 as (cs & G & H2). injection H2 as <-.
          apply index_Ok_nth_error in Ir. destruct Ir as [_ Ir].
          assert (Ecs : cs = contacts kbr).
          { apply (KBucket_GetContacts_all _ _ _ G). rewrite len_app in L2. lia. }
          intros k kb c E Rk Hin. apply in_app_iff.
          destruct (Z.eq_dec (Z.of_nat k) (b + i)) as [Ek|Nk].
          * right. rewrite Ecs. rewrite <- Ek, Nat2Z.id in Ir. congruence.
          * left. apply (C1 k kb c E); [lia|assumption].
        + injection H2 as <-. lia.
      - injection H2 as <-. intros k kb c E Rk Hin.
        assert (Hk : (k < 160)%nat) by (rewrite <- Len; apply nth_error_Some; congruence).
        apply (C1 k kb c E); [lia|assumption]. }
    apply (IH (i + 1) acc2 out); [lia|assumption|assumption|assumption].
Qed.

(** X9: on a table the program built GetClosestContacts returns exactly
    min(count, Size()) contacts: it comes back with fewer than [count]
    only when it has taken every contact of the table, and then its
    answer is the whole table, sorted. *)
Theorem GetClosestContacts_exact_length (rt : RoutingTable) (target : NodeID) (count : Z) :
  reachable rt -> wf_NodeID target -> 0 <= count ->
  exists out,
    GetClosestContacts rt target count = Ok out /\
    len out = Z.min count (RoutingTable_Size rt) /\
    (RoutingTable_Size rt <= count -> Permutation out (all_contacts rt)).
Proof.
  intros R Ht Hc. pose proof (reachable_inv rt R) as Inv.
  pose proof Inv as (HL & Len & _).
  destruct (GetClosestContacts_spec rt target count Inv Ht Hc)
    as (out & E & _ & ND & Hall & B).
  exists out. split; [assumption|].
  pose proof (getBucketIndex_range _ _ HL Ht) as Hb.
  destruct (GetClosestContacts_Ok _ _ _ _ E) as (kb & first & pool & Ekb & G & Lp & Eo).
  set (b := getBucketIndex (localID rt) target) in *.
  assert (Full : len out < count -> forall c, In c (all_contacts rt) -> In c out).
  { intros Lt.
    destruct (Z.gtb_spec (len (sort_Slice (closer target) pool)) count) as [Hgt|Hle].
    - exfalso. rewrite Eo in Lt. unfold len in Lt, Hgt. rewrite length_firstn in Lt. lia.
    - pose proof (sort_Slice_perm (closer target) pool) as P. rewrite <- Eo in P.
      assert (Lpool : len pool < count)
        by (unfold len in *; rewrite <- (Permutation_length P); assumption).
      intros c Hin. apply (Permutation_in _ (Permutation_sym P)).
      apply (closest_loop_complete rt b count Hb Len 160 1 first pool
               ltac:(lia) Lp Lpool); [|assumption].
      intros k kb' c' E' Rk Hin'.
      assert (k = Z.to_nat b) by lia. subst k.
      assert (kb' = kb) by congruence. subst kb'.
      destruct (closest_loop_prefix _ _ _ _ _ _ _ Lp) as (r & Er).
      assert (Ef : first = contacts kb).
      { apply (KBucket_GetContacts_all _ _ _ G).
        rewrite Er, len_app in Lpool. pose proof (len_nonneg r). lia. }
      rewrite Ef. assumption. }
  assert (Lall : len out < count -> RoutingTable_Size rt <= len out).
  { intros Lt. rewrite RoutingTable_Size_all.
    assert (L2 : (length (map ID (all_contacts rt)) <= length (map ID out))%nat).
    { apply NoDup_incl_length; [apply all_contacts_NoDup; assumption|].
      intros a Ha. apply in_map_iff in Ha. destruct Ha as (x & <- & Hx).
      apply in_map. apply Full; assumption. }
    rewrite !length_map in L2. unfold len. lia. }
  split.
  - destruct (Z.lt_ge_cases (len out) count) as [Lt|Ge]; [specialize (Lall Lt)|]; lia.
  - intros Hs. apply NoDup_Permutation_bis.
    + apply (NoDup_map_inv ID). assumption.
    + destruct (Z.lt_ge_cases (len out) count) as [Lt|Ge].
      * specialize (Lall Lt). rewrite RoutingTable_Size_all in Lall.
        unfold len in Lall. lia.
      * rewrite RoutingTable_Size_all in Hs, B. unfold len in *. lia.
    + intros c Hin. apply Hall. assumption.
Qed.

Lemma GetClosestContacts_exact_length_witness :
  exists out,
    GetClosestContacts sample_table (id_of_first_byte 65) 20 = Ok out /\
    len out = Z.min 20 (RoutingTable_Size sample_table) /\
    (RoutingTable_Size sample_table <= 20 -> Permutation out (all_contacts sample_table)).
Proof.
  apply (GetClosestContacts_exact_length sample_table (id_of_first_byte 65) 20).
  - exact sample_table_reachable.
  - split; reflexivity.
  - lia.
Defined.

Lemma KBucket_GetContacts_le kb n cs :
  KBucket_GetContacts kb n = Ok cs -> len cs <= Z.max 0 n.
Proof.
  unfold KBucket_GetContacts. pose proof (len_nonneg (contacts kb)) as H0.
  destruct (Z.gtb_spec n (len (contacts kb))) as [Hgt|Hle].
  - destruct (Z.ltb_spec (len (contacts kb)) 0) as [Hn|Hn]; [discriminate|].
    intros E. injection E as <-. unfold len in *. rewrite length_firstn. lia.
  - destruct (Z.ltb_spec n 0) as [Hn|Hn]; [discriminate|].
    intros E. injection E as <-. unfold len in *. rewrite length_firstn. lia.
Qed.

Lemma closest_loop_len rt b count : forall fuel i acc out,
  closest_loop fuel rt b count i acc = Ok out -> len acc <= count -> len out <= count.
Proof.
  induction fuel as [|fuel IH]; intros i acc out H La; cbn [closest_loop] in H;
    destruct (Z.ltb_spec (len acc) count) as [Hacc|Hacc]; cbn [andb] in H;
    try (injection H as <-; assumption);
    destruct ((b - i >=? 0) || (b + i <? 160));
    try discriminate; try (injection H as <-; assumption).
  apply bind_Ok in H. destruct H as (acc1 & H1 & H).
  apply bind_Ok in H. destruct H as (acc2 & H2 & H).
  assert (L1 : len acc1 <= count).
  { destruct (b - i >=? 0).
    - apply bind_Ok in H1. destruct H1 as (kb & _ & H1).
      apply bind_Ok in H1. destruct H1 as (cs & G & H1). injection H1 as <-.
      apply KBucket_GetContacts_le in G. rewrite len_app. lia.
    - injection H1 as <-. assumption. }
  assert (L2 : len acc2 <= count).
  { destruct (b + i <? 160); cbn [andb] in H2.
    - destruct (Z.ltb_spec (len acc1) count) as [Hc|Hc].
      + apply bind_Ok in H2. destruct H2 as (kb & _ & H2).
        apply bind_Ok in H2. destruct H2 as (cs & G & H2). injection H2 as <-.
        apply KBucket_GetContacts_le in G. rewrite len_app. lia.
      + injection H2 as <-. assumption.
    - injection H2 as <-. assumption. }
  apply (IH _ _ _ H L2).
Qed.

(** X10: looking up the NodeID of a contact that is in the table, with a
    count of at least K, returns that contact first: its bucket is read
    whole, and it is the only contact at distance zero. *)
Theorem GetClosestContacts_finds_target (rt : RoutingTable) (c : Contact) (count : Z) :
  reachable rt -> In c (all_contacts rt) -> K <= count ->
  exists rest, GetClosestContacts rt (ID c) count = Ok (c :: rest).
Proof.
  intros R Hc Hk. pose proof (reachable_inv rt R) as Inv.
  pose proof (table_inv_contact rt c Inv Hc) as Wc.
  assert (Hcount : 0 <= count) by (unfold K in Hk; lia).
  destruct (GetClosestContacts_spec rt (ID c) count Inv Wc Hcount)
    as (out & E & S & ND & Hall & B).
  destruct (GetClosestContacts_Ok _ _ _ _ E) as (kb & first & pool & Ekb & G & Lp & Eo).
  (* the contact is in the bucket that is read first *)
  assert (Hkb : In c (contacts kb)).
  { apply in_all_contacts in Hc. destruct Hc as (i & kbi & Ei & Hi).
    destruct Inv as (_ & _ & Inv). destruct (Inv i kbi Ei) as [_ Hin].
    destruct (Hin c Hi) as [_ Gi]. rewrite Gi, Nat2Z.id in Ekb. congruence. }
  assert (Hfirst : In c first).
  { pose proof (KBucket_GetContacts_prefix kb count) as [_ P].
    destruct (P Hcount) as (cs & rest & G' & Ec & Lc).
    rewrite G in G'. injection G' as <-.
    pose proof (reachable_sizes rt R _ _ Ekb) as Sk.
    assert (rest = []).
    { destruct rest as [|x rest]; [reflexivity|]. exfalso.
      unfold KBucket_Size in *. rewrite Ec, len_app, len_cons in Sk, Lc.
      pose proof (len_nonneg rest). lia. }
    subst rest. rewrite app_nil_r in Ec. congruence. }
  assert (Hout : In c out).
  { destruct (closest_loop_prefix _ _ _ _ _ _ _ Lp) as (r & Er).
    pose proof (sort_Slice_perm (closer (ID c)) pool) as P.
    assert (Es : out = sort_Slice (closer (ID c)) pool).
    { destruct (Z.gtb_spec (len (sort_Slice (closer (ID c)) pool)) count) as [Hgt|Hle];
        [|assumption].
      exfalso.
      assert (Lf : len first <= count).
      { apply KBucket_GetContacts_le in G. lia. }
      pose proof (closest_loop_len _ _ _ _ _ _ _ Lp Lf) as Lpool.
      unfold len in Hgt, Lpool. rewrite (Permutation_length P) in Hgt. lia. }
    rewrite Es. apply (Permutation_in _ (Permutation_sym P)).
    rewrite Er. apply in_app_iff. left. assumption. }
  destruct out as [|h t]; [destruct Hout|].
  destruct Hout as [->|Ht]; [exists t; exact E|].
  exfalso.
  apply StronglySorted_inv in S. destruct S as [_ F].
  rewrite Forall_forall in F. specialize (F c Ht). cbv beta in F.
  assert (Wh : wf_NodeID (ID h))
    by (apply (table_inv_contact rt); [assumption|apply Hall; left; reflexivity]).
  assert (Z0 : toZ (Distance (ID c) (ID c)) = 0)
    by (unfold Distance; rewrite xor_bytes_self; apply toZ_zeros).
  pose proof (toZ_bounds _ (proj2 (Distance_wf _ _ Wh Wc))) as Bh.
  assert (Eh : ID h = ID c).
  { apply (distance_key_inj (ID c)); try assumption. lia. }
  cbn [map] in ND. apply NoDup_cons_iff in ND. destruct ND as [Nh _].
  apply Nh. rewrite Eh. apply in_map. assumption.
Qed.

Lemma GetClosestContacts_finds_target_witness :
  exists rest,
    GetClosestContacts sample_table (id_of_last_byte 1) 20
    = Ok (contact_of (id_of_last_byte 1) "10.0.0.2:4000" 2 :: rest).
Proof.
  apply (GetClosestContacts_finds_target sample_table
           (contact_of (id_of_last_byte 1) "10.0.0.2:4000" 2) 20).
  - exact sample_table_reachable.
  - vm_compute. tauto.
  - vm_compute. discriminate.
Defined.

(** ** Hexadecimal targets *)

Lemma in_range_list b n : 0 <= b < Z.of_nat n -> In b (map Z.of_nat (seq 0 n)).
Proof.
  intros Hb. replace b with (Z.of_nat (Z.to_nat b)) by lia.
  apply in_map. apply in_seq. lia.
Qed.

Lemma hex_digit_valid v : 0 <= v < 16 -> fromHexChar (hex_digit v) = Some v.
Proof.
  intros Hv.
  assert (A : forallb (fun v => match fromHexChar (hex_digit v) with
                                | Some w => w =? v
                                | None => false
                                end) (map Z.of_nat (seq 0 16)) = true)
    by (vm_compute; reflexivity).
  rewrite forallb_forall in A. specialize (A v (in_range_list v 16 Hv)).
  destruct (fromHexChar (hex_digit v)) as [w|]; [|discriminate].
  apply Z.eqb_eq in A. congruence.
Qed.

Lemma byte_nibbles b :
  0 <= b < 256 ->
  0 <= Z.shiftr b 4 < 16 /\ 0 <= Z.land b 15 < 16 /\
  Z.lor (Z.shiftl (Z.shiftr b 4) 4) (Z.land b 15) = b.
Proof.
  intros Hb.
  assert (A : forallb (fun b => (0 <=? Z.shiftr b 4) && (Z.shiftr b 4 <? 16) &&
                                (0 <=? Z.land b 15) && (Z.land b 15 <? 16) &&
                                (Z.lor (Z.shiftl (Z.shiftr b 4) 4) (Z.land b 15) =? b))
                      (map Z.of_nat (seq 0 256)) = true)
    by (vm_compute; reflexivity).
  rewrite forallb_forall in A. specialize (A b (in_range_list b 256 Hb)).
  rewrite !andb_true_iff in A. destruct A as ((((A1 & A2) & A3) & A4) & A5).
  apply Z.leb_le in A1, A3. apply Z.ltb_lt in A2, A4. apply Z.eqb_eq in A5.
  repeat split; assumption.
Qed.

Lemma fromHexChar_range c a : fromHexChar c = Some a -> 0 <= a < 16.
Proof.
  unfold fromHexChar. set (n := Z.of_N (N_of_ascii c)). intros E.
  destruct ((48 <=? n) && (n <=? 57)) eqn:E1.
  { apply andb_true_iff in E1. destruct E1 as [A1 A2].
    apply Z.leb_le in A1, A2. injection E as <-. lia. }
  destruct ((97 <=? n) && (n <=? 102)) eqn:E2.
  { apply andb_true_iff in E2. destruct E2 as [A1 A2].
    apply Z.leb_le in A1, A2. injection E as <-. lia. }
  destruct ((65 <=? n) && (n <=? 70)) eqn:E3; [|discriminate].
  apply andb_true_iff in E3. destruct E3 as [A1 A2].
  apply Z.leb_le in A1, A2. injection E as <-. lia.
Qed.

Lemma nibbles_byte a b :
  0 <= a < 16 -> 0 <= b < 16 -> is_byte (Z.lor (Z.shiftl a 4) b) = true.
Proof.
  intros Ha Hb.
  assert (A : forallb (fun a => forallb (fun b => is_byte (Z.lor (Z.shiftl a 4) b))
                                  (map Z.of_nat (seq 0 16)))
                      (map Z.of_nat (seq 0 16)) = true)
    by (vm_compute; reflexivity).
  rewrite forallb_forall in A. specialize (A a (in_range_list a 16 Ha)).
  rewrite forallb_forall in A. exact (A b (in_range_list b 16 Hb)).
Qed.

Lemma set_nth_app {A} (pre : list A) z zs v :
  set_nth (pre ++ z :: zs) (length pre) v = pre ++ v :: zs.
Proof. induction pre as [|x pre IH]; cbn; [reflexivity|]. rewrite IH. reflexivity. Qed.

Lemma hex_Decode_Encode src : forall pre zs,
  forallb is_byte src = true -> (length src <= length zs)%nat ->
  hex_Decode_from (pre ++ zs) (len pre) (hex_Encode src)
  = Ok (pre ++ src ++ skipn (length src) zs, len pre + len src, None).
Proof.
  induction src as [|b src IH]; intros pre zs B L; cbn [hex_Encode hex_Decode_from].
  - cbn [app length skipn]. unfold len at 3. cbn [length]. rewrite Z.add_0_r. reflexivity.
  - cbn [forallb] in B. apply andb_true_iff in B. destruct B as [Hb B].
    apply is_byte_range in Hb. destruct (byte_nibbles b Hb) as (R1 & R2 & E).
    rewrite (hex_digit_valid _ R1), (hex_digit_valid _ R2), E.
    destruct zs as [|z zs]; [cbn [length] in L; lia|].
    unfold store. pose proof (len_nonneg pre) as Hp.
    destruct (Z.leb_spec 0 (len pre)); [|lia].
    destruct (Z.ltb_spec (len pre) (len (pre ++ z :: zs))) as [_|Hge];
      [|rewrite len_app, len_cons in Hge; pose proof (len_nonneg zs); lia].
    cbn [andb bind]. unfold len at 1. rewrite Nat2Z.id, set_nth_app.
    replace (pre ++ b :: zs) with ((pre ++ [b]) ++ zs)
      by (rewrite <- app_assoc; reflexivity).
    replace (len pre + 1) with (len (pre ++ [b]))
      by (rewrite len_app; reflexivity).
    cbn [length] in L. rewrite IH by (assumption || lia).
    rewrite <- app_assoc, len_app, len_cons. cbn [app length skipn].
    f_equal. f_equal. f_equal. unfold len. cbn [length]. lia.
Qed.

Lemma hex_Encode_length src : length (hex_Encode src) = (2 * length src)%nat.
Proof. induction src as [|b src IH]; cbn [hex_Encode length]; lia. Qed.

(** X11: what findNodeRPC sends is what the handler reads: for a 20-byte
    NodeID, hex.Decode of NodeID.String() into a 20-byte array gives the
    NodeID back, with 20 bytes decoded and no error, so that on a table
    the program built the handler answers 200 with the contacts
    GetClosestContacts finds for that NodeID, at most K of them, and
    leaves the table as it was. *)
Theorem NodeID_String_roundtrip (rt : RoutingTable) (id : NodeID) :
  reachable rt -> wf_NodeID id ->
  String.length (NodeID_String id) = 40%nat /\
  hex_Decode (repeat 0 20) (NodeID_String id) = Ok (id, 20, None) /\
  exists cs,
    GetClosestContacts rt id K = Ok cs /\ len cs <= K /\
    handleFindNode rt {| target_param := Some (NodeID_String id) |}
    = (Ok {| status := StatusOK; payload := ContactsJSON cs |}, rt).
Proof.
  intros R [L B].
  assert (Ed : hex_Decode (repeat 0 20) (NodeID_String id) = Ok (id, 20, None)).
  { unfold hex_Decode, NodeID_String. rewrite list_ascii_of_string_of_list_ascii.
    pose proof (hex_Decode_Encode id [] (repeat 0 20) B) as H.
    cbn [app] in H. change (len (@nil Z)) with 0 in H. rewrite H.
    - rewrite skipn_all2 by (rewrite repeat_length; lia).
      rewrite app_nil_r. unfold len. rewrite L. reflexivity.
    - rewrite repeat_length. lia. }
  assert (El : String.length (NodeID_String id) = 40%nat).
  { rewrite <- length_list_ascii_of_string. unfold NodeID_String.
    rewrite list_ascii_of_string_of_list_ascii, hex_Encode_length, L. reflexivity. }
  split; [assumption|]. split; [assumption|].
  destruct (GetClosestContacts_spec rt id K (reachable_inv rt R) (conj L B)
              ltac:(unfold K; lia)) as (cs & E & _ & _ & _ & Bd).
  exists cs. split; [assumption|]. split; [lia|].
  unfold handleFindNode, Query_Get_target. cbn [target_param].
  destruct (String.eqb_spec (NodeID_String id) EmptyString) as [E0|_].
  - rewrite E0 in El. discriminate.
  - rewrite Ed. cbn [orb negb Z.eqb Pos.eqb]. rewrite E. reflexivity.
Qed.

Lemma NodeID_String_roundtrip_witness :
  NodeID_String (id_of_first_byte 171) = "ab00000000000000000000000000000000000000"%string /\
  hex_Decode (repeat 0 20) (NodeID_String (id_of_first_byte 171))
  = Ok (id_of_first_byte 171, 20, None).
Proof.
  split; [reflexivity|].
  apply (NodeID_String_roundtrip sample_table (id_of_first_byte 171)).
  - exact sample_table_reachable.
  - split; reflexivity.
Defined.

Lemma hex_prefix_pair n p q rest :
  is_hex p = true -> is_hex q = true ->
  (hex_prefix (S (S n)) (p :: q :: rest) <-> hex_prefix n rest).
Proof.
  intros Hp Hq. unfold hex_prefix. cbn [length firstn forallb]. rewrite Hp, Hq.
  cbn [andb]. split; intros [H1 H2]; (split; [lia|assumption]).
Qed.

(** The decoder stops with an error: what is left to show is that the
    source has no long hexadecimal prefix and is not well-formed. *)
Ltac decode_stops :=
  right; split;
  [ | eexists _, _, _; split; [reflexivity|]; split; [reflexivity|];
      split; [assumption|]; split; [split; [discriminate|]|discriminate] ].

Lemma hex_Decode_from_cases : forall m dst i src,
  0 <= i -> len dst - i = Z.of_nat m -> forallb is_byte dst = true ->
  (hex_prefix (2 * m + 2) src /\ hex_Decode_from dst i src = Panic) \/
  (~ hex_prefix (2 * m + 2) src /\
   exists dst' n err,
     hex_Decode_from dst i src = Ok (dst', n, err) /\
     length dst' = length dst /\ forallb is_byte dst' = true /\
     (err = None <->
      forallb is_hex src = true /\ Nat.even (length src) = true) /\
     (err = None -> 2 * (n - i) = Z.of_nat (length src))).
Proof.
  induction m as [|m IH]; intros dst i src Hi Hm B;
    [ change (2 * 0 + 2)%nat with 2%nat
    | replace (2 * S m + 2)%nat with (S (S (2 * m + 2))) by lia ];
    (destruct src as [|p [|q rest]]; cbn [hex_Decode_from];
     [ right; split; [intros [H _]; cbn in H; lia|];
       exists dst, i, None; split; [reflexivity|]; split; [reflexivity|];
       split; [assumption|]; split; [tauto|]; intros _; cbn [length]; lia
     | destruct (fromHexChar p) eqn:Ep; decode_stops;
       try (intros [H _]; cbn in H; lia);
       cbn [length Nat.even]; intros [_ H]; discriminate
     | ]);
    (destruct (fromHexChar p) as [a|] eqn:Ep;
     [ destruct (fromHexChar q) as [b|] eqn:Eq | ]).
  - (* no room left: the write panics *)
    left. split.
    + split; [cbn [length]; lia|]. cbn [Nat.mul Nat.add firstn forallb].
      unfold is_hex. rewrite Ep, Eq. reflexivity.
    + unfold store. destruct (Z.leb_spec 0 i); [|lia].
      destruct (Z.ltb_spec i (len dst)); [lia|]. reflexivity.
  - decode_stops.
    + intros [_ H]. cbn [Nat.mul Nat.add firstn forallb] in H.
      unfold is_hex in H. rewrite Ep, Eq in H. discriminate.
    + intros [H _]. cbn [forallb] in H. unfold is_hex in H.
      rewrite Ep, Eq in H. discriminate.
  - decode_stops.
    + intros [_ H]. cbn [Nat.mul Nat.add firstn forallb] in H.
      unfold is_hex in H. rewrite Ep in H. discriminate.
    + intros [H _]. cbn [forallb] in H. unfold is_hex in H.
      rewrite Ep in H. discriminate.
  - (* one more byte is written *)
    assert (Hp : is_hex p = true) by (unfold is_hex; rewrite Ep; reflexivity).
    assert (Hq : is_hex q = true) by (unfold is_hex; rewrite Eq; reflexivity).
    unfold store. destruct (Z.leb_spec 0 i); [|lia].
    destruct (Z.ltb_spec i (len dst)); [|lia]. cbn [andb bind].
    set (dst1 := set_nth dst (Z.to_nat i) (Z.lor (Z.shiftl a 4) b)).
    assert (B1 : forallb is_byte dst1 = true).
    { apply forallb_set_nth; [assumption|].
      apply nibbles_byte; eapply fromHexChar_range; eassumption. }
    assert (L1 : length dst1 = length dst) by apply length_set_nth.
    destruct (IH dst1 (i + 1) rest ltac:(lia)
                ltac:(unfold len in *; rewrite L1; lia) B1)
      as [[P E]|[NP (dst' & n & err & E & L' & B' & V & N)]].
    + left. split; [apply hex_prefix_pair; assumption|assumption].
    + right. split; [rewrite hex_prefix_pair; assumption|].
      exists dst', n, err. split; [assumption|].
      split; [congruence|]. split; [assumption|]. split.
      * rewrite V. cbn [forallb length Nat.even]. rewrite Hp, Hq.
        cbn [andb]. tauto.
      * intros He. specialize (N He). cbn [length]. lia.
  - decode_stops.
    + intros [_ H]. cbn [firstn forallb] in H. unfold is_hex in H.
      rewrite Ep, Eq in H. rewrite andb_false_r in H. discriminate.
    + intros [H _]. cbn [forallb] in H. unfold is_hex in H.
      rewrite Ep, Eq in H. discriminate.
  - decode_stops.
    + intros [_ H]. cbn [firstn forallb] in H. unfold is_hex in H.
      rewrite Ep in H. discriminate.
    + intros [H _]. cbn [forallb] in H. unfold is_hex in H.
      rewrite Ep in H. discriminate.
Qed.

(** X12: what the FindNode handler answers, on a table the program built,
    is decided by the target string alone: it panics when the target
    starts with 42 hexadecimal digits (the 21st byte is written past the
    array); it answers 200, with the contacts GetClosestContacts finds for
    the decoded NodeID, when the target is exactly 40 hexadecimal digits;
    in every other case (missing, empty, odd length, a bad digit among the
    first 42 characters, too short or 41 long) it answers 400.  The
    routing table is never changed. *)
Theorem handleFindNode_trichotomy (rt : RoutingTable) (r : request) :
  reachable rt ->
  (hex_prefix 42 (list_ascii_of_string (Query_Get_target r)) ->
     handleFindNode rt r = (Panic, rt)) /\
  (length (list_ascii_of_string (Query_Get_target r)) = 40%nat /\
   forallb is_hex (list_ascii_of_string (Query_Get_target r)) = true ->
     exists id cs,
       wf_NodeID id /\
       hex_Decode (repeat 0 20) (Query_Get_target r) = Ok (id, 20, None) /\
       GetClosestContacts rt id K = Ok cs /\
       handleFindNode rt r
       = (Ok {| status := StatusOK; payload := ContactsJSON cs |}, rt)) /\
  (~ hex_prefix 42 (list_ascii_of_string (Query_Get_target r)) ->
   ~ (length (list_ascii_of_string (Query_Get_target r)) = 40%nat /\
      forallb is_hex (list_ascii_of_string (Query_Get_target r)) = true) ->
     exists msg, handleFindNode rt r = (Ok (http_Error msg StatusBadRequest), rt)).
Proof.
  intros R. unfold handleFindNode, hex_Decode.
  set (s := Query_Get_target r). set (src := list_ascii_of_string s).
  assert (Hempty : s = EmptyString -> src = []) by (intros E; unfold src; rewrite E; reflexivity).
  pose proof (hex_Decode_from_cases 20 (repeat 0 20) 0 src ltac:(lia)
                ltac:(reflexivity) ltac:(reflexivity)) as C.
  change (2 * 20 + 2)%nat with 42%nat in C.
  split; [|split].
  - intros P. destruct (String.eqb_spec s EmptyString) as [E|_].
    + exfalso. rewrite (Hempty E) in P. destruct P as [P _]. cbn in P. lia.
    + destruct C as [[_ ->]|[NP _]]; [reflexivity|contradiction].
  - intros [L V]. destruct (String.eqb_spec s EmptyString) as [E|_].
    + rewrite (Hempty E) in L. discriminate.
    + destruct C as [[[P _] _]|[_ (dst' & n & err & E & L' & B' & Hv & Hn)]]; [lia|].
      assert (He : err = None) by (apply Hv; rewrite L; split; [assumption|reflexivity]).
      specialize (Hn He). rewrite L in Hn. assert (n = 20) by lia. subst n err.
      assert (W : wf_NodeID dst') by (split; [rewrite L'; reflexivity|assumption]).
      destruct (GetClosestContacts_spec rt dst' K (reachable_inv rt R) W
                  ltac:(unfold K; lia)) as (cs & Ec & _).
      exists dst', cs. split; [assumption|]. split; [assumption|].
      split; [assumption|]. rewrite E. cbn [orb negb Z.eqb Pos.eqb]. rewrite Ec.
      reflexivity.
  - intros NP NV. destruct (String.eqb_spec s EmptyString) as [E|_];
      [eexists; reflexivity|].
    destruct C as [[P _]|[_ (dst' & n & err & E & L' & B' & Hv & Hn)]];
      [contradiction|].
    rewrite E. destruct err as [e|]; [eexists; reflexivity|].
    destruct (proj1 Hv eq_refl) as [V Ev]. specialize (Hn eq_refl).
    destruct (Z.eqb_spec n 20) as [->|Nn]; [|eexists; reflexivity].
    exfalso. apply NV. split; [lia|assumption].
Qed.

Lemma handleFindNode_trichotomy_witness :
  exists msg,
    handleFindNode sample_table {| target_param := Some "0g"%string |}
    = (Ok (http_Error msg StatusBadRequest), sample_table).
Proof.
  apply (handleFindNode_trichotomy sample_table {| target_param := Some "0g"%string |}).
  - exact sample_table_reachable.
  - intros [H _]. cbn in H. lia.
  - intros [H _]. cbn in H. discriminate.
Defined.

(** ** More on FindNode *)








Lemma table_extends_refl rt : reachable rt -> table_extends rt rt.
Proof. intros R. split; [assumption|]. split; [reflexivity|]. auto. Qed.

Lemma table_extends_trans rt1 rt2 rt3 :
  table_extends rt1 rt2 -> table_extends rt2 rt3 -> table_extends rt1 rt3.
Proof.
  intros (_ & L12 & I12) (R3 & L23 & I23). split; [assumption|].
  split; [congruence|]. auto.
Qed.

Lemma table_extends_add now rt c :
  reachable rt -> wf_NodeID (ID c) ->
  exists rt', RoutingTable_AddContact now rt c = Ok rt' /\ table_extends rt rt'.
Proof.
  intros R Hc.
  destruct (table_inv_add now rt c (reachable_inv rt R) Hc) as (rt' & A & EL & _).
  exists rt'. split; [assumption|]. split; [eapply reachable_add; eassumption|].
  split; [assumption|]. apply (RoutingTable_AddContact_keeps_IDs _ _ _ _ A).
Qed.










(** ** bootstrap *)

Lemma bootstrap_nodes_extends ping clock :
  (forall addr id, ping addr = Some id -> wf_NodeID id) ->
  forall nodes k rt,
    reachable rt ->
    exists rt',
      bootstrap_nodes ping clock k rt nodes = Ok rt' /\
      table_extends rt rt' /\
      RoutingTable_Size rt <= RoutingTable_Size rt' /\
      ((exists a, In a nodes /\ ping a <> None) -> 1 <= RoutingTable_Size rt') /\
      ((forall a, In a nodes -> ping a = None) -> rt' = rt).
Proof.
  intros Wp. induction nodes as [|addr nodes IH]; intros k rt R; cbn [bootstrap_nodes].
  - exists rt. split; [reflexivity|]. split; [apply table_extends_refl; assumption|].
    split; [lia|]. split; [intros (a & [] & _)|reflexivity].
  - unfold addBootstrapNode. destruct (ping addr) as [id|] eqn:Ep.
    + destruct (table_extends_add (clock (2 * k + 1)%nat) rt
                  {| ID := id; Address := addr; LastSeen := clock (2 * k)%nat |} R
                  (Wp _ _ Ep)) as (rt1 & A & X).
      rewrite A. cbn [bind snd].
      destruct (RoutingTable_AddContact_Size _ _ _ _ A) as [S1 S2].
      destruct (IH (S k) rt1 (proj1 X)) as (rt' & E & X' & S' & _ & _).
      exists rt'. split; [assumption|].
      split; [eapply table_extends_trans; eassumption|]. split; [lia|].
      split; [intros _; lia|]. intros F. specialize (F addr (or_introl eq_refl)).
      congruence.
    + cbn [bind snd]. destruct (IH (S k) rt R) as (rt' & E & X' & S' & P & F).
      exists rt'. split; [assumption|]. split; [assumption|]. split; [assumption|].
      split.
      * intros (a & [<-|Ha] & Na); [congruence|]. apply P. exists a. split; assumption.
      * intros Fa. apply F. intros a Ha. apply Fa. right. assumption.
Qed.

(** X16: bootstrap on a table the program built, when peers answer a ping
    with a 20-byte NodeID.  Without bootstrap addresses it returns nil and
    does nothing.  When every ping fails and the table is empty it returns
    the error "no contacts in routing table" and the table stays as it
    was.  As soon as one bootstrap node answers its ping, bootstrap cannot
    return an error, whatever happens in the lookup that follows. *)
Theorem bootstrap_outcomes
    (ping : string -> option NodeID) (clock : nat -> Z) (sched : list delivery)
    (rt : RoutingTable) (nodes : list string) :
  reachable rt ->
  (forall addr id, ping addr = Some id -> wf_NodeID id) ->
  (nodes = [] -> bootstrap ping clock sched rt nodes = Returned None (idle rt)) /\
  (nodes <> [] -> (forall a, In a nodes -> ping a = None) ->
   RoutingTable_Size rt = 0 ->
     bootstrap ping clock sched rt nodes
     = Returned (Some no_contacts_error) (idle rt)) /\
  ((exists a, In a nodes /\ ping a <> None) ->
     forall e st, bootstrap ping clock sched rt nodes <> Returned (Some e) st).
Proof.
  intros R Wp. unfold bootstrap. split; [|split].
  - intros ->. reflexivity.
  - intros Hne F Hs. destruct nodes as [|a nodes]; [congruence|].
    rewrite len_cons. pose proof (len_nonneg nodes) as Hn.
    destruct (Z.eqb_spec (len nodes + 1) 0); [lia|].
    destruct (bootstrap_nodes_extends ping clock Wp (a :: nodes) 0%nat rt R)
      as (rt' & -> & _ & _ & _ & Eq).
    rewrite (Eq F). pose proof (reachable_inv rt R) as Inv.
    assert (E : GetClosestContacts rt (localID rt) Alpha = Ok []).
    { apply GetClosestContacts_empty; [assumption|apply Inv|reflexivity|assumption]. }
    unfold FindNode. rewrite E. reflexivity.
  - intros Hex e st. destruct nodes as [|a nodes]; [destruct Hex as (x & [] & _)|].
    rewrite len_cons. pose proof (len_nonneg nodes) as Hn.
    destruct (Z.eqb_spec (len nodes + 1) 0); [lia|].
    destruct (bootstrap_nodes_extends ping clock Wp (a :: nodes) 0%nat rt R)
      as (rt' & -> & X & _ & P & _).
    specialize (P Hex). pose proof (reachable_inv rt' (proj1 X)) as Inv.
    unfold FindNode.
    destruct (GetClosestContacts rt' (localID rt') Alpha) as [seeds| |] eqn:E;
      try discriminate.
    destruct seeds as [|s0 seeds].
    + apply GetClosestContacts_empty in E; [lia|assumption|apply Inv|reflexivity].
    + rewrite len_cons. pose proof (len_nonneg seeds) as Hs.
      destruct (Z.eqb_spec (len seeds + 1) 0); [lia|].
      apply FindNode_loop_no_error.
Qed.

Lemma bootstrap_outcomes_witness :
  bootstrap (fun _ => None) clock0 [] (NewRoutingTable clock0 zeroID)
    ["10.0.0.1:4000"%string; "10.0.0.2:4000"%string]
  = Returned (Some no_contacts_error) (idle (NewRoutingTable clock0 zeroID)).
Proof.
  apply (bootstrap_outcomes (fun _ => None) clock0 [] (NewRoutingTable clock0 zeroID)
           ["10.0.0.1:4000"%string; "10.0.0.2:4000"%string]).
  - exists clock0, zeroID, []. split; [split; reflexivity|].
    split; [constructor|reflexivity].
  - discriminate.
  - discriminate.
  - reflexivity.
  - reflexivity.
Defined.

(** ** The service registry *)

Lemma services_get_set_same m k v : services_get (services_set m k v) k = Some v.
Proof.
  induction m as [|[k' v'] m IH]; cbn [services_set services_get].
  - rewrite String.eqb_refl. reflexivity.
  - destruct (String.eqb_spec k' k) as [->|Ne]; cbn [services_get].
    + rewrite String.eqb_refl. reflexivity.
    + destruct (String.eqb_spec k' k); [contradiction|]. assumption.
Qed.

Lemma services_get_set_other m k v k0 :
  k0 <> k -> services_get (services_set m k v) k0 = services_get m k0.
Proof.
  intros Ne. induction m as [|[k' v'] m IH]; cbn [services_set services_get].
  - destruct (String.eqb_spec k k0); [congruence|reflexivity].
  - destruct (String.eqb_spec k' k) as [->|Nk]; cbn [services_get].
    + destruct (String.eqb_spec k k0); [congruence|reflexivity].
    + destruct (String.eqb_spec k' k0); [reflexivity|assumption].
Qed.

(** X17: RegisterService always returns nil; afterwards FindService of the
    same service ID returns the registered info (the last write wins) and
    FindService of any other ID answers as before; FindService of an ID
    that is not in the map returns the error "service not found". *)
Theorem RegisterService_FindService
    (services : services_map) (serviceID other : string) (info : ServiceInfo) :
  fst (RegisterService services serviceID info) = None /\
  FindService (snd (RegisterService services serviceID info)) serviceID
    = (Some info, None) /\
  (other <> serviceID ->
     FindService (snd (RegisterService services serviceID info)) other
     = FindService services other) /\
  (services_get services other = None ->
     FindService services other = (None, Some service_not_found)).
Proof.
  unfold RegisterService, FindService. cbn [fst snd]. split; [reflexivity|].
  split; [rewrite services_get_set_same; reflexivity|]. split.
  - intros Ne. rewrite services_get_set_other by assumption. reflexivity.
  - intros ->. reflexivity.
Qed.

Lemma services_set_keys m k v k0 :
  In k0 (map fst (services_set m k v)) <-> k0 = k \/ In k0 (map fst m).
Proof.
  induction m as [|[k' v'] m IH]; cbn [services_set map fst In].
  - split; intros [H|H]; auto.
  - destruct (String.eqb_spec k' k) as [->|Nk]; cbn [map fst In].
    + split; intros H; intuition auto.
    + rewrite IH. split; intros H; intuition auto.
Qed.

Lemma services_set_NoDup m k v :
  NoDup (map fst m) -> NoDup (map fst (services_set m k v)).
Proof.
  induction m as [|[k' v'] m IH]; cbn [services_set map fst]; intros ND.
  - constructor; [intros []|constructor].
  - apply NoDup_cons_iff in ND. destruct ND as [Nk ND].
    destruct (String.eqb_spec k' k) as [->|Ne]; cbn [map fst].
    + constructor; assumption.
    + constructor; [|apply IH; assumption].
      rewrite services_set_keys. intros [E|H]; [congruence|contradiction].
Qed.

Lemma registry_of_NoDup regs : NoDup (map fst (registry_of regs)).
Proof.
  unfold registry_of.
  assert (G : forall regs m, NoDup (map fst m) ->
            NoDup (map fst (fold_left
                              (fun m kv => snd (RegisterService m (fst kv) (snd kv)))
                              regs m))).
  { induction regs0 as [|kv regs0 IH]; intros m ND; cbn [fold_left]; [assumption|].
    apply IH. unfold RegisterService. cbn [snd]. apply services_set_NoDup. assumption. }
  apply G. constructor.
Qed.

Lemma services_get_In m k v :
  NoDup (map fst m) -> (services_get m k = Some v <-> In (k, v) m).
Proof.
  induction m as [|[k' v'] m IH]; cbn [services_get map fst In]; intros ND.
  - split; [discriminate|intros []].
  - apply NoDup_cons_iff in ND. destruct ND as [Nk ND].
    destruct (String.eqb_spec k' k) as [->|Ne].
    + split.
      * intros H. injection H as ->. left. reflexivity.
      * intros [H|H]; [congruence|]. exfalso. apply Nk.
        apply (in_map fst) in H. exact H.
    + rewrite (IH ND). split; [auto|]. intros [H|H]; [congruence|assumption].
Qed.

(** X18: on a registry filled by RegisterService calls, FindServicesByType
    returns nil as error and exactly the services that FindService can
    find under some service ID and whose NodeType is the one asked for; no
    entry is filtered by its LastSeen. *)
Theorem FindServicesByType_exact
    (regs : list (string * ServiceInfo)) (serviceType : string) (info : ServiceInfo) :
  snd (FindServicesByType (registry_of regs) serviceType) = None /\
  (In info (fst (FindServicesByType (registry_of regs) serviceType)) <->
   exists serviceID,
     FindService (registry_of regs) serviceID = (Some info, None) /\
     svc_NodeType info = serviceType).
Proof.
  split; [reflexivity|]. unfold FindServicesByType, FindService. cbn [fst].
  pose proof (registry_of_NoDup regs) as ND. rewrite in_map_iff. split.
  - intros ([k v] & Ev & Hin). cbn [snd] in Ev. subst v.
    apply filter_In in Hin. destruct Hin as [Hin Ht]. cbn [snd] in Ht.
    apply String.eqb_eq in Ht. exists k. split; [|assumption].
    apply (services_get_In _ _ _ ND) in Hin. rewrite Hin. reflexivity.
  - intros (k & E & Ht).
    destruct (services_get (registry_of regs) k) as [v|] eqn:G; [|discriminate].
    injection E as ->. apply (services_get_In _ _ _ ND) in G.
    exists (k, info). split; [reflexivity|]. apply filter_In. split; [assumption|].
    cbn [snd]. apply String.eqb_eq. assumption.
Qed.

(** ** Adding the same contact twice *)

Lemma refresh_last c front :
  ~ has_ID (ID c) front -> refresh c (front ++ [c]) = Some (front ++ [c]).
Proof.
  induction front as [|e front IH]; intros N; cbn [app refresh].
  - unfold Contact_Equal. rewrite (proj2 (NodeID_eqb_eq (ID c) (ID c)) eq_refl).
    reflexivity.
  - destruct (Contact_Equal e c) eqn:E.
    + exfalso. apply N. exists e. split; [left; reflexivity|].
      apply Contact_Equal_iff. assumption.
    + rewrite IH; [reflexivity|]. intros (x & Hx & Ex). apply N.
      exists x. split; [right|]; assumption.
Qed.

Lemma KBucket_AddContact_result now kb c :
  NoDup (map ID (contacts kb)) ->
  (exists front,
     contacts (snd (KBucket_AddContact now kb c)) = front ++ [c] /\
     ~ has_ID (ID c) front /\ fst (KBucket_AddContact now kb c) = true) \/
  (KBucket_AddContact now kb c = (false, kb) /\
   refresh c (contacts kb) = None /\ (len (contacts kb) <? K) = false).
Proof.
  intros ND. unfold KBucket_AddContact.
  destruct (refresh c (contacts kb)) as [l|] eqn:R.
  - left. apply refresh_Some in R. destruct R as (l1 & old & l2 & E & Eo & _ & ->).
    exists (l1 ++ l2). cbn [snd fst contacts]. split; [apply app_assoc|].
    split; [|reflexivity].
    rewrite E, map_app in ND. cbn [map] in ND. apply NoDup_remove_2 in ND.
    intros (x & Hx & Ex). apply ND. rewrite <- map_app, Eo, <- Ex.
    apply in_map. assumption.
  - destruct (len (contacts kb) <? K) eqn:F.
    + left. exists (contacts kb). cbn [snd fst contacts]. split; [reflexivity|].
      split; [apply refresh_None; assumption|reflexivity].
    + right. split; [reflexivity|]. split; reflexivity.
Qed.

Lemma KBucket_AddContact_twice now now' kb c :
  NoDup (map ID (contacts kb)) ->
  contacts (snd (KBucket_AddContact now' (snd (KBucket_AddContact now kb c)) c))
  = contacts (snd (KBucket_AddContact now kb c)) /\
  fst (KBucket_AddContact now' (snd (KBucket_AddContact now kb c)) c)
  = fst (KBucket_AddContact now kb c).
Proof.
  intros ND.
  destruct (KBucket_AddContact_result now kb c ND) as [(front & E & N & F)|(E & R & F)].
  - rewrite F. set (kb1 := snd (KBucket_AddContact now kb c)) in *.
    unfold KBucket_AddContact. rewrite E, (refresh_last c front N).
    split; reflexivity.
  - rewrite E. cbn [snd fst]. unfold KBucket_AddContact. rewrite R, F.
    split; reflexivity.
Qed.

Lemma map_contacts_set_nth (bs : list KBucket) n kb kb' :
  nth_error bs n = Some kb -> contacts kb' = contacts kb ->
  map contacts (set_nth bs n kb') = map contacts bs.
Proof.
  revert n. induction bs as [|x bs IH]; intros [|n]; cbn [nth_error set_nth map];
    try discriminate.
  - intros H E. injection H as ->. rewrite E. reflexivity.
  - intros H E. rewrite (IH n H E). reflexivity.
Qed.

(** X19: adding the same contact a second time changes nothing in what
    the table holds: on a table the program built both calls succeed and
    after the second every bucket has the contacts, in the order, it had
    after the first. *)
Theorem RoutingTable_AddContact_idempotent (now now' : Z) (rt : RoutingTable) (c : Contact) :
  reachable rt -> wf_NodeID (ID c) ->
  exists rt1 rt2,
    RoutingTable_AddContact now rt c = Ok rt1 /\
    RoutingTable_AddContact now' rt1 c = Ok rt2 /\
    localID rt2 = localID rt1 /\
    map contacts (buckets rt2) = map contacts (buckets rt1) /\
    all_contacts rt2 = all_contacts rt1.
Proof.
  intros R Hc.
  destruct (table_extends_add now rt c R Hc) as (rt1 & A1 & (R1 & _ & _)).
  destruct (table_extends_add now' rt1 c R1 Hc) as (rt2 & A2 & (_ & L2 & _)).
  exists rt1, rt2. split; [assumption|]. split; [assumption|]. split; [assumption|].
  assert (M : map contacts (buckets rt2) = map contacts (buckets rt1)).
  { pose proof (RoutingTable_AddContact_Ok _ _ _ _ A1) as (kb & Rb & Ekb & E1).
    pose proof (RoutingTable_AddContact_Ok _ _ _ _ A2) as (kb1 & Rb1 & Ekb1 & E2).
    assert (EL : localID rt1 = localID rt) by (rewrite E1; reflexivity).
    rewrite EL in *. set (b := getBucketIndex (localID rt) (ID c)) in *.
    assert (Hlt : Nat.ltb (Z.to_nat b) (length (buckets rt)) = true)
      by (apply Nat.ltb_lt; unfold len in Rb; lia).
    assert (Ek : kb1 = snd (KBucket_AddContact now kb c)).
    { rewrite E1 in Ekb1. cbn [buckets] in Ekb1.
      rewrite nth_error_set_nth, Nat.eqb_refl, Hlt in Ekb1. cbn [andb] in Ekb1.
      congruence. }
    rewrite E2. cbn [buckets]. apply (map_contacts_set_nth _ _ kb1); [assumption|].
    rewrite Ek. apply KBucket_AddContact_twice.
    destruct (reachable_inv rt R) as (_ & _ & Inv). apply (Inv _ _ Ekb). }
  split; [assumption|]. unfold all_contacts. rewrite M. reflexivity.
Qed.

Lemma RoutingTable_AddContact_idempotent_witness :
  exists rt1 rt2,
    RoutingTable_AddContact 7 sample_table (contact_of (id_of_first_byte 128) "y" 7)
      = Ok rt1 /\
    RoutingTable_AddContact 8 rt1 (contact_of (id_of_first_byte 128) "y" 7) = Ok rt2 /\
    localID rt2 = localID rt1 /\
    map contacts (buckets rt2) = map contacts (buckets rt1) /\
    all_contacts rt2 = all_contacts rt1.
Proof.
  apply (RoutingTable_AddContact_idempotent 7 8 sample_table
           (contact_of (id_of_first_byte 128) "y" 7)).
  - exact sample_table_reachable.
  - split; reflexivity.
Defined.

(** ** GetRandomIDFromBucket outside the table *)

(** X20: GetRandomIDFromBucket panics exactly for the indices whose byte
    index, bucketIndex / 8 rounded towards zero, falls outside the 20
    bytes of the identifier: bucketIndex <= -8 or bucketIndex >= 160. *)
Theorem GetRandomIDFromBucket_panics_iff (rt : RoutingTable) (bucketIndex : Z) :
  wf_NodeID (localID rt) ->
  (GetRandomIDFromBucket rt bucketIndex = Panic <->
   bucketIndex <= -8 \/ 160 <= bucketIndex).
Proof.
  intros W. pose proof (wf_len _ W) as L. unfold GetRandomIDFromBucket.
  assert (Q : 0 <= Z.quot bucketIndex 8 < 20 <-> -8 < bucketIndex < 160).
  { destruct (Z.le_gt_cases 0 bucketIndex) as [Hp|Hn].
    - rewrite Z.quot_div_nonneg by lia.
      pose proof (Z.div_mod bucketIndex 8 ltac:(lia)).
      pose proof (Z.mod_pos_bound bucketIndex 8 ltac:(lia)). lia.
    - replace bucketIndex with (- (- bucketIndex)) at 1 2 by lia.
      rewrite Z.quot_opp_l by lia. rewrite Z.quot_div_nonneg by lia.
      pose proof (Z.div_mod (- bucketIndex) 8 ltac:(lia)).
      pose proof (Z.mod_pos_bound (- bucketIndex) 8 ltac:(lia)). lia. }
  unfold index, store.
  destruct (Z.leb_spec 0 (Z.quot bucketIndex 8)) as [H1|H1];
    destruct (Z.ltb_spec (Z.quot bucketIndex 8) (len (localID rt))) as [H2|H2];
    cbn [andb bind]; try (split; [intros _; lia|reflexivity]).
  destruct (nth_error (localID rt) (Z.to_nat (Z.quot bucketIndex 8))) as [old|] eqn:E.
  - cbn [bind]. split; [discriminate|lia].
  - apply nth_error_None in E. unfold len in *. lia.
Qed.

Lemma GetRandomIDFromBucket_panics_iff_witness :
  GetRandomIDFromBucket (NewRoutingTable clock0 zeroID) 160 = Panic.
Proof.
  apply (GetRandomIDFromBucket_panics_iff (NewRoutingTable clock0 zeroID) 160).
  - split; reflexivity.
  - right. lia.
Defined.

(** ** The target's own bucket comes first *)

Lemma closest_loop_full fuel rt b count i acc :
  count <= len acc -> closest_loop fuel rt b count i acc = Ok acc.
Proof.
  intros H. destruct fuel; cbn [closest_loop];
    (destruct (Z.ltb_spec (len acc) count); [lia|reflexivity]).
Qed.

Lemma GetClosestContacts_bucket_prefix rt target count kb :
  0 <= count ->
  nth_error (buckets rt) (Z.to_nat (getBucketIndex (localID rt) target)) = Some kb ->
  0 <= getBucketIndex (localID rt) target < len (buckets rt) ->
  count <= KBucket_Size kb ->
  GetClosestContacts rt target count
  = Ok (sort_Slice (closer target) (firstn (Z.to_nat count) (contacts kb))).
Proof.
  intros Hc Ekb Rb Hs. unfold GetClosestContacts, KBucket_Size in *.
  destruct (index_nth_error (buckets rt) _ Rb) as (kb' & -> & E').
  assert (kb' = kb) by congruence. subst kb'. cbn [bind].
  unfold KBucket_GetContacts.
  destruct (Z.gtb_spec count (len (contacts kb))); [lia|].
  destruct (Z.ltb_spec count 0); [lia|]. cbn [bind].
  set (first := firstn (Z.to_nat count) (contacts kb)).
  assert (Lf : len first = count).
  { unfold first, len in *. rewrite length_firstn. lia. }
  rewrite closest_loop_full by lia. cbn [bind].
  assert (Ls : len (sort_Slice (closer target) first) = count).
  { unfold len in *. rewrite (Permutation_length (sort_Slice_perm _ first)). exact Lf. }
  rewrite Ls. destruct (Z.gtb_spec count count); [lia|reflexivity].
Qed.

(** X21: GetClosestContacts serves the target's own bucket first.  On a
    table the program built, when the bucket of the target holds at least
    [count] contacts the answer is made of the first [count] contacts of
    that bucket and of nothing else; when it holds fewer, all of them are
    in the answer. *)
Theorem GetClosestContacts_own_bucket_first
    (rt : RoutingTable) (target : NodeID) (count : Z) (kb : KBucket) :
  reachable rt -> wf_NodeID target -> 0 <= count ->
  nth_error (buckets rt) (Z.to_nat (getBucketIndex (localID rt) target)) = Some kb ->
  exists out,
    GetClosestContacts rt target count = Ok out /\
    (count <= KBucket_Size kb ->
       Permutation out (firstn (Z.to_nat count) (contacts kb))) /\
    (KBucket_Size kb <= count -> forall c, In c (contacts kb) -> In c out).
Proof.
  intros R Ht Hc Ekb. pose proof (reachable_inv rt R) as Inv.
  pose proof Inv as (HL & Len & _).
  pose proof (getBucketIndex_range _ _ HL Ht) as Hb.
  destruct (GetClosestContacts_spec rt target count Inv Ht Hc) as (out & E & _).
  exists out. split; [assumption|]. split.
  - intros Hs. rewrite (GetClosestContacts_bucket_prefix rt target count kb) in E;
      try assumption; [|unfold len; rewrite Len; lia].
    injection E as <-. apply sort_Slice_perm.
  - intros Hs c Hin.
    destruct (GetClosestContacts_Ok _ _ _ _ E) as (kb' & first & pool & Ekb' & G & Lp & Eo).
    assert (kb' = kb) by congruence. subst kb'.
    assert (Ef : first = contacts kb).
    { pose proof (KBucket_GetContacts_prefix kb count) as [_ P].
      destruct (P Hc) as (cs & rest & G' & Ec & Lc).
      rewrite G in G'. injection G' as <-.
      destruct rest as [|x rest]; [rewrite app_nil_r in Ec; congruence|].
      exfalso. unfold KBucket_Size in *. rewrite Ec, len_app, len_cons in Hs, Lc.
      pose proof (len_nonneg rest). lia. }
    destruct (closest_loop_prefix _ _ _ _ _ _ _ Lp) as (r & Er).
    assert (Lpool : len pool <= count).
    { apply (closest_loop_len _ _ _ _ _ _ _ Lp). rewrite Ef. exact Hs. }
    pose proof (sort_Slice_perm (closer target) pool) as P.
    assert (Es : out = sort_Slice (closer target) pool).
    { destruct (Z.gtb_spec (len (sort_Slice (closer target) pool)) count) as [Hgt|Hle];
        [|assumption].
      exfalso. unfold len in Hgt, Lpool. rewrite (Permutation_length P) in Hgt. lia. }
    rewrite Es. apply (Permutation_in _ (Permutation_sym P)).
    rewrite Er, Ef. apply in_app_iff. left. assumption.
Qed.

Lemma GetClosestContacts_own_bucket_first_witness :
  exists out,
    GetClosestContacts sample_table (id_of_first_byte 129) 1 = Ok out /\
    Permutation out [contact_of (id_of_first_byte 128) "10.0.0.9:4000" 4].
Proof.
  destruct (GetClosestContacts_own_bucket_first sample_table (id_of_first_byte 129) 1
              {| contacts := [contact_of (id_of_first_byte 128) "10.0.0.9:4000" 4];
                 lastSeen := 4;
                 range_min := id_of_first_byte 128;
                 range_max := id_of_first_byte 128 |})
    as (out & E & P & _).
  - exact sample_table_reachable.
  - split; reflexivity.
  - lia.
  - vm_compute. reflexivity.
  - exists out. split; [assumption|]. apply P. vm_compute. discriminate.
Defined.

(** ** A refresh tick *)

Lemma GetRandomIDFromBucket_index rt i :
  wf_NodeID (localID rt) -> 0 <= i < 160 ->
  exists id, GetRandomIDFromBucket rt i = Ok id /\ wf_NodeID id /\
             getBucketIndex (localID rt) id = i.
Proof.
  intros HL Hi.
  destruct (GetRandomIDFromBucket_flip rt i HL Hi) as (id & E & W & B).
  exists id. split; [assumption|]. split; [assumption|].
  apply getBucketIndex_intro; [assumption..|].
  assert (LL : length (localID rt) = length id)
    by (destruct HL as [-> _], W as [-> _]; reflexivity).
  unfold highest_set_bit, Distance. split; [lia|]. split.
  - rewrite bit_at_xor, B by lia. rewrite Z.eqb_refl.
    destruct (bit_at (localID rt) i); reflexivity.
  - intros j Hj. rewrite bit_at_xor, B by lia.
    destruct (Z.eqb_spec j i); [lia|].
    destruct (bit_at (localID rt) j); reflexivity.
Qed.

(** X22: a refresh tick for a bucket that holds at least ALPHA = 3
    contacts starts its lookup inside that bucket: the identifier
    generated for the drawn index is routed to the bucket, and the RPCs
    started at once go to the three least recently seen contacts of that
    very bucket. *)
Theorem refresh_tick_queries_drawn_bucket (rt : RoutingTable) (i : Z) (kb : KBucket) :
  reachable rt -> 0 <= i < 160 ->
  nth_error (buckets rt) (Z.to_nat i) = Some kb ->
  Alpha <= KBucket_Size kb ->
  exists randomID seeds,
    GetRandomIDFromBucket rt i = Ok randomID /\
    getBucketIndex (localID rt) randomID = i /\
    Permutation seeds (firstn 3 (contacts kb)) /\
    refresh_tick rt i []
    = Waiting {| lk_table := rt; lk_contacted := map Address seeds;
                 lk_closestSoFar := []; lk_inflight := seeds; lk_rpcs := seeds |}.
Proof.
  intros R Hi Ekb Hs. pose proof (reachable_inv rt R) as (HL & Len & _).
  destruct (GetRandomIDFromBucket_index rt i HL Hi) as (id & E & W & G).
  set (seeds := sort_Slice (closer id) (firstn 3 (contacts kb))).
  assert (Ec : GetClosestContacts rt id Alpha = Ok seeds).
  { apply (GetClosestContacts_bucket_prefix rt id Alpha kb);
      [unfold Alpha; lia|rewrite G; assumption| |assumption].
    rewrite G. unfold len. rewrite Len. lia. }
  assert (P : Permutation seeds (firstn 3 (contacts kb))) by apply sort_Slice_perm.
  assert (L3 : len seeds = 3).
  { unfold len. rewrite (Permutation_length P), length_firstn.
    unfold KBucket_Size, Alpha, len in Hs. lia. }
  exists id, seeds. split; [assumption|]. split; [assumption|]. split; [assumption|].
  unfold refresh_tick, FindNode. rewrite E, Ec, L3. cbn [Z.eqb FindNode_loop lk_inflight].
  rewrite L3. reflexivity.
Qed.

Lemma bucket0_table_reachable : reachable bucket0_table.
Proof.
  exists clock0, zeroID, bucket0_ops. split; [split; reflexivity|]. split.
  - unfold bucket0_ops. repeat apply Forall_cons; try apply Forall_nil;
      split; reflexivity.
  - vm_compute. reflexivity.
Qed.

Lemma refresh_tick_queries_drawn_bucket_witness :
  exists randomID seeds,
    GetRandomIDFromBucket bucket0_table 0 = Ok randomID /\
    getBucketIndex (localID bucket0_table) randomID = 0 /\
    Permutation seeds
      [contact_of (id_of_first_byte 128) "10.0.0.1:4000" 0;
       contact_of (id_of_first_byte 129) "10.0.0.2:4000" 0;
       contact_of (id_of_first_byte 130) "10.0.0.3:4000" 0].
Proof.
  destruct (refresh_tick_queries_drawn_bucket bucket0_table 0
              {| contacts := [contact_of (id_of_first_byte 128) "10.0.0.1:4000" 0;
                              contact_of (id_of_first_byte 129) "10.0.0.2:4000" 0;
                              contact_of (id_of_first_byte 130) "10.0.0.3:4000" 0;
                              contact_of (id_of_first_byte 131) "10.0.0.4:4000" 0];
                 lastSeen := 4;
                 range_min := id_of_first_byte 128;
                 range_max := id_of_first_byte 131 |})
    as (id & seeds & E1 & E2 & P & _).
  - exact bucket0_table_reachable.
  - lia.
  - vm_compute. reflexivity.
  - vm_compute. discriminate.
  - exists id, seeds. split; [exact E1|]. split; [exact E2|exact P].
Defined.

(** ** What the answer of GetClosestContacts is made of *)

(** X23: on a table the program built, every contact returned by
    GetClosestContacts is a contact held by the table, the distances to
    the target increase strictly along the answer, and the answer is the
    only sorted arrangement of its contacts: it does not depend on how
    sort.Slice orders elements that compare equal, since there are none. *)
Theorem GetClosestContacts_members_and_order
    (rt : RoutingTable) (target : NodeID) (count : Z) (out : list Contact) :
  reachable rt -> wf_NodeID target -> 0 <= count ->
  GetClosestContacts rt target count = Ok out ->
  (forall c, In c out -> In c (all_contacts rt)) /\
  StronglySorted
    (fun a b => toZ (Distance (ID a) target) < toZ (Distance (ID b) target)) out /\
  (forall out', Permutation out' out -> StronglySorted (dist_le target) out' ->
                out' = out).
Proof.
  intros R Ht Hc E. pose proof (reachable_inv rt R) as Inv.
  destruct (GetClosestContacts_spec rt target count Inv Ht Hc)
    as (o & E' & S & ND & Hall & _).
  rewrite E in E'. injection E' as <-.
  assert (W : Forall (fun c => wf_NodeID (ID c)) out).
  { apply Forall_forall. intros c H. apply (table_inv_contact rt); auto. }
  split; [assumption|]. split.
  - apply sorted_distinct_strict; try assumption.
    apply (StronglySorted_impl
             (fun x y => toZ (Distance (ID x) target) <= toZ (Distance (ID y) target))
             (dist_le target) (fun c => wf_NodeID (ID c)) out); try assumption.
    intros x y Px Py H. apply dist_le_toZ; assumption.
  - intros out' P S'.
    apply (GetClosestContacts_only_sorted_arrangement rt target count); assumption.
Qed.

Lemma GetClosestContacts_members_and_order_witness :
  StronglySorted
    (fun a b => toZ (Distance (ID a) (id_of_first_byte 65))
                < toZ (Distance (ID b) (id_of_first_byte 65)))
    [contact_of (id_of_first_byte 64) "10.0.0.3:4000" 3;
     contact_of (id_of_first_byte 128) "10.0.0.9:4000" 4].
Proof.
  apply (GetClosestContacts_members_and_order sample_table (id_of_first_byte 65) 2).
  - exact sample_table_reachable.
  - split; reflexivity.
  - lia.
  - vm_compute. reflexivity.
Defined.
